(** * Type-compatibility matcher and metrics of [MetricsCalculator]

    Shallow embedding of [src/src/evaluation/evaluation-metrics.ts]
    (and of the earlier variant of [calculateMetrics] kept in
    [src/unnamed/part_004]).

    Modelling conventions.
    - Type strings are ASCII; a character is an [ascii].  [toLowerCase]
      maps [A-Z] to [a-z] and the regex class [\s] is the ASCII
      whitespace set (tab, LF, VT, FF, CR, space).
    - Every [String.prototype.replace] with a global regex is the
      left-to-right scanner [scan]: at each position the regex is tried,
      a match is replaced and scanning resumes after it, otherwise one
      character is copied.
    - [isStructurallyCompatible] recurses on substrings; its recursion is
      given explicit fuel, a run out of fuel answering [false].
    - A JavaScript [Map] built by [new Map(entries)] or [set] is an
      association list in insertion order whose [set] on an existing key
      updates the value in place.
    - Numbers computed by [calculateMetrics] are exact rationals; [NaN]
      and [Infinity] are explicit constructors of [jsnum].
    - A [TypeError] thrown by the code is the result [None]. *)

From Stdlib Require Import String Ascii List Bool Arith ZArith Lia QArith Sorted Permutation.
Import ListNotations.
Open Scope nat_scope.
Open Scope string_scope.

(* ------------------------------------------------------------------ *)
(** ** Characters and string helpers *)

Definition isUpper (c : ascii) : bool :=
  let n := nat_of_ascii c in (65 <=? n)%nat && (n <=? 90)%nat.

Definition lowerChar (c : ascii) : ascii :=
  if isUpper c then ascii_of_nat (nat_of_ascii c + 32)%nat else c.

(** [String.prototype.toLowerCase] on ASCII. *)
Fixpoint toLowerCase (s : string) : string :=
  match s with
  | EmptyString => EmptyString
  | String c s' => String (lowerChar c) (toLowerCase s')
  end.

(** The regex class [\s] on ASCII. *)
Definition isSpace (c : ascii) : bool :=
  let n := nat_of_ascii c in ((9 <=? n)%nat && (n <=? 13)%nat) || (n =? 32)%nat.

Fixpoint removeSpaces (s : string) : string :=
  match s with
  | EmptyString => EmptyString
  | String c s' => if isSpace c then removeSpaces s' else String c (removeSpaces s')
  end.

Fixpoint trimStart (s : string) : string :=
  match s with
  | EmptyString => EmptyString
  | String c s' => if isSpace c then trimStart s' else s
  end.

Fixpoint revStr (s : string) : string :=
  match s with
  | EmptyString => EmptyString
  | String c s' => revStr s' ++ String c EmptyString
  end.

(** [String.prototype.trim]. *)
Definition trim (s : string) : string := revStr (trimStart (revStr (trimStart s))).

Fixpoint drop (n : nat) (s : string) : string :=
  match n, s with
  | O, _ => s
  | S _, EmptyString => EmptyString
  | S k, String _ s' => drop k s'
  end.

(** [s.slice(0, -n)] for [n > 0]. *)
Definition sliceEnd (n : nat) (s : string) : string :=
  substring 0 (String.length s - n)%nat s.

Definition startsWith (pre s : string) : bool := prefix pre s.

Definition endsWith (suf s : string) : bool :=
  (String.length suf <=? String.length s)%nat &&
  String.eqb (substring (String.length s - String.length suf)%nat (String.length suf) s) suf.

Fixpoint includesChar (c : ascii) (s : string) : bool :=
  match s with
  | EmptyString => false
  | String d s' => Ascii.eqb c d || includesChar c s'
  end.

(** [s.indexOf(c)], [None] for [-1]. *)
Fixpoint indexOfChar (c : ascii) (s : string) : option nat :=
  match s with
  | EmptyString => None
  | String d s' =>
      if Ascii.eqb c d then Some 0
      else option_map S (indexOfChar c s')
  end.

(** The characters before the first [c], and what follows that [c]
    ([None] when [c] does not occur). *)
Fixpoint breakAt (c : ascii) (s : string) : string * option string :=
  match s with
  | EmptyString => (EmptyString, None)
  | String d s' =>
      if Ascii.eqb c d then (EmptyString, Some s')
      else let '(pre, post) := breakAt c s' in (String d pre, post)
  end.

(** [s.split(c)] for a one-character separator. *)
Fixpoint split (c : ascii) (s : string) : list string :=
  match s with
  | EmptyString => [EmptyString]
  | String d s' =>
      if Ascii.eqb c d then EmptyString :: split c s'
      else match split c s' with
           | [] => [String d EmptyString]
           | w :: ws => String d w :: ws
           end
  end.

(** [list.join(sep)]. *)
Definition join (sep : string) (l : list string) : string := String.concat sep l.

(** [Array.prototype.sort] with the default comparator on strings
    (code-unit order); equal strings are identical, so any sorting
    algorithm gives the same list. *)
Fixpoint insertStr (x : string) (l : list string) : list string :=
  match l with
  | [] => [x]
  | y :: ys => if String.ltb y x then y :: insertStr x ys else x :: y :: ys
  end.

Definition sortStrings (l : list string) : list string := fold_right insertStr [] l.

(* ------------------------------------------------------------------ *)
(** ** Global regex replacement *)

(** A regex tried at the start of a string: [Some (replacement, rest)]
    when it matches, [rest] being what follows the match. *)
Definition matcher := string -> option (string * string).

Fixpoint scan (m : matcher) (fuel : nat) (s : string) : string :=
  match fuel with
  | O => s
  | S k =>
      match s with
      | EmptyString => EmptyString
      | String c s' =>
          match m s with
          | Some (out, rest) => out ++ scan m k rest
          | None => String c (scan m k s')
          end
      end
  end.

(** Every match consumes at least one character, so [length s] steps
    reach the end of [s]. *)
Definition replaceAll (m : matcher) (s : string) : string := scan m (String.length s) s.

(** [/\[\]/g -> 'array'] and [/\{\}/g -> 'object']. *)
Definition litMatcher (pat rep : string) : matcher := fun s =>
  if prefix pat s then Some (rep, drop (String.length pat) s) else None.

(** [/<kw><([^>]+)>/g] with a replacement computed from the group. *)
Definition genericMatcher (kw : string) (f : string -> string) : matcher := fun s =>
  if prefix (kw ++ "<") s then
    match breakAt ">" (drop (String.length kw + 1)%nat s) with
    | (EmptyString, _) => None
    | (_, None) => None
    | (group, Some rest) => Some (f group, rest)
    end
  else None.

(** The callback of the last replacement: split members on [','],
    trim, drop empties, sort, rejoin. *)
Definition sortMembers (content : string) : string :=
  join "," (sortStrings (filter (fun p => negb (String.eqb p "")) (map trim (split "," content)))).

(** [/\{([^}]+)\}/g]. *)
Definition objectMatcher : matcher := fun s =>
  match s with
  | String c s' =>
      if Ascii.eqb c "{" then
        match breakAt "}" s' with
        | (EmptyString, _) => None
        | (_, None) => None
        | (content, Some rest) => Some ("{" ++ sortMembers content ++ "}", rest)
        end
      else None
  | EmptyString => None
  end.

Definition separatorChar (c : ascii) : ascii :=
  if Ascii.eqb c ";" || Ascii.eqb c "," then "," else c.

Fixpoint mapChars (f : ascii -> ascii) (s : string) : string :=
  match s with
  | EmptyString => EmptyString
  | String c s' => String (f c) (mapChars f s')
  end.

(** [MetricsCalculator.normalizeType]. *)
Definition normalizeType (type : string) : string :=
  let s1 := toLowerCase type in
  let s2 := removeSpaces s1 in
  let s3 := replaceAll (litMatcher "[]" "array") s2 in
  let s4 := replaceAll (genericMatcher "array" (fun g => g ++ "array")) s3 in
  let s5 := replaceAll (litMatcher "{}" "object") s4 in
  let s6 := replaceAll (genericMatcher "promise" (fun _ => "promise")) s5 in
  let s7 := mapChars separatorChar s6 in
  replaceAll objectMatcher s7.


(* ------------------------------------------------------------------ *)
(** ** The structural-compatibility matcher *)

(** Property information of [parseObjectType]. *)
Record PropInfo := { ptype : string; optional : bool }.

(** A [Map<string, V>] as an association list in insertion order. *)
Definition JsMap (V : Type) := list (string * V).

Fixpoint mapGet {V} (k : string) (m : JsMap V) : option V :=
  match m with
  | [] => None
  | (k', v) :: m' => if String.eqb k k' then Some v else mapGet k m'
  end.

(** [map.set(k, v)]: an existing key keeps its position. *)
Fixpoint mapSet {V} (k : string) (v : V) (m : JsMap V) : JsMap V :=
  match m with
  | [] => [(k, v)]
  | (k', v') :: m' => if String.eqb k k' then (k, v) :: m' else (k', v') :: mapSet k v m'
  end.

Definition mapHas {V} (k : string) (m : JsMap V) : bool :=
  match mapGet k m with Some _ => true | None => false end.

(** [new Map(l.map(x => [key(x), x]))]. *)
Definition mapOfList {A} (key : A -> string) (l : list A) : JsMap A :=
  fold_left (fun m x => mapSet (key x) x m) l [].

(** One member of the loop of [parseObjectType]. *)
Definition parseProp (props : JsMap PropInfo) (prop : string) : JsMap PropInfo :=
  let trimmed := trim prop in
  if String.eqb trimmed "" then props else
  match indexOfChar ":" trimmed with
  | None => props
  | Some colonIndex =>
      let nameWithOptional := trim (substring 0 colonIndex trimmed) in
      let type := trim (drop (S colonIndex) trimmed) in
      let opt := endsWith "?" nameWithOptional in
      let name := if opt then sliceEnd 1 nameWithOptional else nameWithOptional in
      mapSet name {| ptype := type; optional := opt |} props
  end.

(** [s.slice(1, -1)]. *)
Definition sliceInner (s : string) : string := substring 1 (String.length s - 2) s.

(** [MetricsCalculator.parseObjectType]. *)
Definition parseObjectType (objectType : string) : JsMap PropInfo :=
  let content := sliceInner objectType in
  if String.eqb (trim content) "" then []
  else fold_left parseProp (split "," content) [].

Definition isObjectType (type : string) : bool :=
  startsWith "{" type && endsWith "}" type.

Definition isUnionType (type : string) : bool := includesChar "|" type.

Definition parseUnionType (type : string) : list string := map trim (split "|" type).

Definition isArrayType (type : string) : bool :=
  endsWith "array" type || endsWith "[]" type.

Definition extractArrayElementType (arrayType : string) : string :=
  if endsWith "array" arrayType then sliceEnd 5 arrayType
  else if endsWith "[]" arrayType then sliceEnd 2 arrayType
  else "unknown".

Definition areBasicTypesCompatible (predicted groundTruth : string) : bool :=
  if String.eqb predicted "any" || String.eqb groundTruth "any" then true
  else if String.eqb predicted "unknown" then true
  else String.eqb predicted groundTruth.

(** [MetricsCalculator.areObjectTypesCompatible], the recursive call
    being [compat]. *)
Definition areObjectTypesCompatible (compat : string -> string -> bool)
    (predictedType groundTruthType : string) : bool :=
  let predProps := parseObjectType predictedType in
  let gtProps := parseObjectType groundTruthType in
  forallb (fun '(propName, gtPropInfo) =>
      match mapGet propName predProps with
      | None => optional gtPropInfo
      | Some predPropInfo => compat (ptype predPropInfo) (ptype gtPropInfo)
      end) gtProps.

(** [MetricsCalculator.isStructurallyCompatible]. *)
Fixpoint isStructurallyCompatible (fuel : nat) (predictedType groundTruthType : string) : bool :=
  match fuel with
  | O => false
  | S k =>
      let normalizedPredicted := normalizeType predictedType in
      let normalizedGroundTruth := normalizeType groundTruthType in
      if String.eqb normalizedPredicted normalizedGroundTruth then true
      else if isObjectType normalizedPredicted && isObjectType normalizedGroundTruth then
        areObjectTypesCompatible (isStructurallyCompatible k) normalizedPredicted normalizedGroundTruth
      else if isUnionType normalizedGroundTruth then
        existsb (fun unionType => isStructurallyCompatible k predictedType unionType)
                (parseUnionType normalizedGroundTruth)
      else if isArrayType normalizedPredicted && isArrayType normalizedGroundTruth then
        isStructurallyCompatible k (extractArrayElementType normalizedPredicted)
                                   (extractArrayElementType normalizedGroundTruth)
      else areBasicTypesCompatible normalizedPredicted normalizedGroundTruth
  end.

(** The matcher with ample fuel, for concrete examples. *)
Definition isCompat := isStructurallyCompatible 20.


(* ------------------------------------------------------------------ *)
(** ** Entities, [typesMatch] and [getTypeDifference] *)

(** The value of a [return] field: absent, a type string, or (in the
    multi-prediction format of the AST predictor) an array of strings. *)
Inductive RetVal :=
| RUndef
| RStr (s : string)
| RArr (l : list string).

(** A [params] object, in key order. *)
Definition Params := list (string * string).

Record TypesShape := { ret : RetVal; params : option Params }.

(** A prediction: [types] is absent in the candidates format,
    [candidates] is present only there. *)
Record Prediction := {
  pname : string;
  ptypes : option TypesShape;
  candidates : option (list TypesShape)
}.

Record GroundTruthType := { gname : string; gtypes : TypesShape }.

Definition retTruthy (r : RetVal) : bool :=
  match r with
  | RUndef => false
  | RStr s => negb (String.eqb s "")
  | RArr _ => true
  end.

(** [obj[key]] is truthy. Only the object's own keys are looked up:
    for a name inherited from [Object.prototype] ([constructor],
    [toString], ...), [obj[key]] is a function in JS, which this lookup
    does not model; statements that depend on it exclude such names
    (see [protoName]). *)
Definition paramTruthy (ps : Params) (k : string) : bool :=
  match mapGet k ps with
  | Some v => negb (String.eqb v "")
  | None => false
  end.

Section Matching.

Variable fuel : nat.

(** [isStructurallyCompatible] called on two [return] values:
    [normalizeType] calls [toLowerCase], which an array lacks. *)
Definition compatRet (p g : RetVal) : option bool :=
  match p, g with
  | RStr a, RStr b => Some (isStructurallyCompatible fuel a b)
  | _, _ => None
  end.

(** The two loops over the parameters in [typesMatch], with the own-key
    lookup of [paramTruthy]. *)
Definition paramsMatch (predParams gtParams : Params) : bool :=
  forallb (fun '(paramName, gtType) =>
      match mapGet paramName predParams with
      | Some predType =>
          negb (String.eqb predType "") && isStructurallyCompatible fuel predType gtType
      | None => false
      end) gtParams
  && forallb (fun '(paramName, _) => paramTruthy gtParams paramName) predParams.

(** [MetricsCalculator.typesMatch]; [None] is a thrown [TypeError]. *)
Definition typesMatch (predicted groundTruth : TypesShape) : option bool :=
  let retOk :=
    if retTruthy (ret predicted) && retTruthy (ret groundTruth)
    then compatRet (ret predicted) (ret groundTruth) else Some true in
  match retOk with
  | None => None
  | Some false => Some false
  | Some true =>
      match params predicted, params groundTruth with
      | Some pp, Some gp => Some (paramsMatch pp gp)
      | _, _ => Some true
      end
  end.

Definition retToString (r : RetVal) : string :=
  match r with
  | RUndef => "undefined"
  | RStr s => s
  | RArr l => String.concat "," l
  end.

(** [MetricsCalculator.getTypeDifference]. *)
Definition getTypeDifference (predicted groundTruth : TypesShape) : option string :=
  let retDiff :=
    if retTruthy (ret predicted) && retTruthy (ret groundTruth) then
      match compatRet (ret predicted) (ret groundTruth) with
      | None => None
      | Some true => Some []
      | Some false => Some ["Return type: predicted '" ++ retToString (ret predicted)
                            ++ "' is not compatible with '" ++ retToString (ret groundTruth) ++ "'"]
      end
    else Some [] in
  let paramDiff :=
    match params predicted, params groundTruth with
    | Some pp, Some gp =>
        flat_map (fun '(paramName, gtType) =>
          if paramTruthy pp paramName then
            match mapGet paramName pp with
            | Some predType =>
                if isStructurallyCompatible fuel predType gtType then []
                else ["Parameter " ++ paramName ++ ": predicted '" ++ predType
                      ++ "' is not compatible with '" ++ gtType ++ "'"]
            | None => []
            end
          else ["Missing parameter: " ++ paramName]) gp
    | _, _ => []
    end in
  match retDiff with
  | None => None
  | Some ds => Some (join "; " (ds ++ paramDiff))
  end.

End Matching.

(* ------------------------------------------------------------------ *)
(** ** [calculateMetrics] *)

(** JavaScript numbers as far as [calculateMetrics] produces them. *)
Inductive jsnum :=
| JNum (q : Q)
| JNaN
| JInfinity.

(** [a / b] on non-negative operands. *)
Definition jsDiv (a b : Q) : jsnum :=
  if Qeq_bool b 0 then (if Qeq_bool a 0 then JNaN else JInfinity) else JNum (a / b).

(** [x || 0]: [0] and [NaN] are falsy. *)
Definition orZero (x : jsnum) : jsnum :=
  match x with
  | JNum q => if Qeq_bool q 0 then JNum 0 else JNum q
  | JNaN => JNum 0
  | JInfinity => JInfinity
  end.

(** Equality of JavaScript numbers ([NaN] equals nothing). *)
Definition jsnumEq (x y : jsnum) : Prop :=
  match x, y with
  | JNum a, JNum b => (a == b)%Q
  | JInfinity, JInfinity => True
  | _, _ => False
  end.

Record EvaluationMetrics := {
  accuracy : jsnum;
  mrr : jsnum;
  totalPredictions : nat;
  correctPredictions : nat;
  totalReciprocalRank : Q
}.

Definition bindE {A B} (x : option A) (f : A -> option B) : option B :=
  match x with Some a => f a | None => None end.

Notation "x <- c ;; k" := (bindE c (fun x => k)) (at level 61, c at next level, right associativity).

Section Metrics.

Variable fuel : nat.

(** The rank loop of the candidates branch: [Some None] when no
    candidate matches, [Some (Some r)] for the first matching 1-based
    rank [r]. *)
Fixpoint findRank (cands : list TypesShape) (gt : TypesShape) : option (option nat) :=
  match cands with
  | [] => Some None
  | c :: cs =>
      b <- typesMatch fuel c gt ;;
      if b then Some (Some 1) else option_map (option_map S) (findRank cs gt)
  end.

(** The body of the loop of [calculateMetrics], on the pair
    (correctPredictions, totalReciprocalRank). *)
Definition processPrediction (groundTruthMap : JsMap GroundTruthType)
    (acc : nat * Q) (pred : Prediction) : option (nat * Q) :=
  let '(correct, trr) := acc in
  match mapGet (pname pred) groundTruthMap with
  | None => Some acc
  | Some gt =>
      match candidates pred with
      | Some cands =>
          foundRank <- findRank cands (gtypes gt) ;;
          match foundRank with
          | Some r =>
              Some (if Nat.eqb r 1 then S correct else correct, (trr + 1 / inject_Z (Z.of_nat r))%Q)
          | None => Some acc
          end
      | None =>
          types <- ptypes pred ;;
          b <- typesMatch fuel types (gtypes gt) ;;
          if b then Some (S correct, (trr + 1)%Q) else Some acc
      end
  end.

Fixpoint processAll (gtMap : JsMap GroundTruthType) (acc : nat * Q)
    (preds : list Prediction) : option (nat * Q) :=
  match preds with
  | [] => Some acc
  | p :: ps => acc' <- processPrediction gtMap acc p ;; processAll gtMap acc' ps
  end.

(** [MetricsCalculator.calculateMetrics] of [src/src/evaluation]. The
    total reciprocal rank is summed exactly in [Q]: the rounding of the
    double additions [+= 1.0 / foundRank], which makes the JS sum depend
    on the order of the terms, is not modelled. *)
Definition calculateMetrics (predicted : list Prediction) (groundTruth : list GroundTruthType)
    : option EvaluationMetrics :=
  let groundTruthMap := mapOfList gname groundTruth in
  res <- processAll groundTruthMap (0, 0%Q) predicted ;;
  let '(correct, trr) := res in
  let total := List.length predicted in
  Some {| accuracy := orZero (jsDiv (inject_Z (Z.of_nat correct)) (inject_Z (Z.of_nat total)));
          mrr := orZero (jsDiv trr (inject_Z (Z.of_nat total)));
          totalPredictions := total;
          correctPredictions := correct;
          totalReciprocalRank := trr |}.

End Metrics.

(** The earlier [calculateMetrics] of [src/unnamed/part_004], which
    reads ranked predictions from an array-valued [types.return]. *)
Module EarlierVariant.

Section Metrics.

Variable fuel : nat.

Definition withReturn (t : TypesShape) (r : RetVal) : TypesShape :=
  {| ret := r; params := params t |}.

(** [arr[i]] on an array of strings. *)
Definition nthRet (l : list string) (i : nat) : RetVal :=
  match nth_error l i with Some s => RStr s | None => RUndef end.

(** The MRR loop: the first 0-based index whose candidate matches. *)
Fixpoint firstMatchIndex (t : TypesShape) (gt : TypesShape) (l : list string) (i : nat)
    : option (option nat) :=
  match l with
  | [] => Some None
  | s :: l' =>
      b <- typesMatch fuel (withReturn t (RStr s)) gt ;;
      if b then Some (Some i) else firstMatchIndex t gt l' (S i)
  end.

(** The body of the loop, on (correctPredictions, totalReciprocalRank,
    itemsWithMatch). *)
Definition processEntry (groundTruthMap : JsMap GroundTruthType)
    (acc : nat * Q * nat) (entry : string * Prediction) : option (nat * Q * nat) :=
  let '(correct, trr, items) := acc in
  let '(name, pred) := entry in
  match mapGet name groundTruthMap with
  | None => Some acc
  | Some gt =>
      t <- ptypes pred ;;
      match ret t with
      | RArr l =>
          first <- typesMatch fuel (withReturn t (nthRet l 0)) (gtypes gt) ;;
          let correct' := if first then S correct else correct in
          idx <- firstMatchIndex t (gtypes gt) l 0 ;;
          match idx with
          | Some i => Some (correct', (trr + 1 / inject_Z (Z.of_nat (S i)))%Q, S items)
          | None => Some (correct', trr, items)
          end
      | _ =>
          b <- typesMatch fuel t (gtypes gt) ;;
          if b then Some (S correct, (trr + 1)%Q, S items) else Some acc
      end
  end.

Fixpoint processEntries (gtMap : JsMap GroundTruthType) (acc : nat * Q * nat)
    (entries : list (string * Prediction)) : option (nat * Q * nat) :=
  match entries with
  | [] => Some acc
  | e :: es => acc' <- processEntry gtMap acc e ;; processEntries gtMap acc' es
  end.

Definition calculateMetrics (predicted : list Prediction) (groundTruth : list GroundTruthType)
    : option EvaluationMetrics :=
  let predictedMap := mapOfList pname predicted in
  let groundTruthMap := mapOfList gname groundTruth in
  res <- processEntries groundTruthMap (0, 0%Q, 0) predictedMap ;;
  let '(correct, trr, items) := res in
  let total := List.length predicted in
  Some {| accuracy := if Nat.ltb 0 total then JNum (inject_Z (Z.of_nat correct) / inject_Z (Z.of_nat total))
                      else JNum 0;
          mrr := if Nat.ltb 0 items then JNum (trr / inject_Z (Z.of_nat total)) else JNum 0;
          totalPredictions := total;
          correctPredictions := correct;
          totalReciprocalRank := trr |}.

End Metrics.

End EarlierVariant.

(* ------------------------------------------------------------------ *)
(** ** [generateDetailedComparison] *)

Inductive Status := Correct | Incorrect | Missing | Extra.

Record DetailedComparison := {
  identifier : string;
  groundTruth : option GroundTruthType;
  predicted : option Prediction;
  status : Status;
  details : option string
}.

Section Comparison.

(** [String.prototype.localeCompare]: a collation order of the host
    locale, so a parameter here. *)
Variable localeCompare : string -> string -> comparison.

(** [Array.prototype.sort] with the comparator [(a, b) =>
    a.identifier.localeCompare(b.identifier)]: a stable sort, here a
    stable insertion sort. *)
Fixpoint insertBy (x : DetailedComparison) (l : list DetailedComparison) : list DetailedComparison :=
  match l with
  | [] => [x]
  | y :: ys =>
      match localeCompare (identifier x) (identifier y) with
      | Gt => y :: insertBy x ys
      | _ => x :: y :: ys
      end
  end.

Definition sortByIdentifier (l : list DetailedComparison) : list DetailedComparison :=
  fold_right insertBy [] l.

Variable fuel : nat.

(** The first loop, over the entries of [predictedMap]. *)
Definition comparePredicted (groundTruthMap : JsMap GroundTruthType)
    (entry : string * Prediction) : option DetailedComparison :=
  let '(name, pred) := entry in
  match mapGet name groundTruthMap with
  | Some gt =>
      t <- ptypes pred ;;
      isCorrect <- typesMatch fuel t (gtypes gt) ;;
      if isCorrect then
        Some {| identifier := name; groundTruth := Some gt; predicted := Some pred;
                status := Correct; details := None |}
      else
        d <- getTypeDifference fuel t (gtypes gt) ;;
        Some {| identifier := name; groundTruth := Some gt; predicted := Some pred;
                status := Incorrect; details := Some d |}
  | None =>
      Some {| identifier := name; groundTruth := None; predicted := Some pred;
              status := Extra; details := Some "Predicted but not in ground truth" |}
  end.

Fixpoint mapE {A B} (f : A -> option B) (l : list A) : option (list B) :=
  match l with
  | [] => Some []
  | x :: xs => y <- f x ;; ys <- mapE f xs ;; Some (y :: ys)
  end.

(** The second loop, over the entries of [groundTruthMap]. *)
Definition missingRecords (predictedMap : JsMap Prediction)
    (groundTruthMap : JsMap GroundTruthType) : list DetailedComparison :=
  flat_map (fun '(name, gt) =>
      if mapHas name predictedMap then []
      else [{| identifier := name; groundTruth := Some gt; predicted := None;
               status := Missing; details := Some "In ground truth but not predicted" |}])
    groundTruthMap.

(** [MetricsCalculator.generateDetailedComparison]. *)
Definition generateDetailedComparison (predicted : list Prediction)
    (groundTruth : list GroundTruthType) : option (list DetailedComparison) :=
  let predictedMap := mapOfList pname predicted in
  let groundTruthMap := mapOfList gname groundTruth in
  first <- mapE (comparePredicted groundTruthMap) predictedMap ;;
  Some (sortByIdentifier (first ++ missingRecords predictedMap groundTruthMap)).

End Comparison.

(* ------------------------------------------------------------------ *)
(** ** The first version of [src/unnamed/part_004]

    Types are compared by equality of their normalizations, and the
    metrics are precision, recall and F1 over the distinct predicted
    names. *)
Module ExactVariant.

(** The comparison of two [return] values: [normalizeType] calls
    [toLowerCase], which an array lacks. *)
Definition eqRet (p g : RetVal) : option bool :=
  match p, g with
  | RStr a, RStr b => Some (String.eqb (normalizeType a) (normalizeType b))
  | _, _ => None
  end.

(** The two loops over the parameters in [typesMatch]. *)
Definition paramsMatch (predParams gtParams : Params) : bool :=
  forallb (fun '(paramName, gtType) =>
      match mapGet paramName predParams with
      | Some predType =>
          negb (String.eqb predType "") &&
          String.eqb (normalizeType predType) (normalizeType gtType)
      | None => false
      end) gtParams
  && forallb (fun '(paramName, _) => paramTruthy gtParams paramName) predParams.

(** [MetricsCalculator.typesMatch]; [None] is a thrown [TypeError]. *)
Definition typesMatch (predicted groundTruth : TypesShape) : option bool :=
  let retOk :=
    if retTruthy (ret predicted) && retTruthy (ret groundTruth)
    then eqRet (ret predicted) (ret groundTruth) else Some true in
  match retOk with
  | None => None
  | Some false => Some false
  | Some true =>
      match params predicted, params groundTruth with
      | Some pp, Some gp => Some (paramsMatch pp gp)
      | _, _ => Some true
      end
  end.

Record EvaluationMetrics := {
  precision : jsnum;
  recall : jsnum;
  f1Score : jsnum;
  accuracy : jsnum;
  totalPredictions : nat;
  correctPredictions : nat;
  truePositives : nat;
  falsePositives : nat;
  falseNegatives : nat
}.

(** The body of the first loop, on (truePositives, falsePositives,
    correctPredictions). *)
Definition processEntry (groundTruthMap : JsMap GroundTruthType)
    (acc : nat * nat * nat) (entry : string * Prediction) : option (nat * nat * nat) :=
  let '(tp, fp, correct) := acc in
  let '(name, pred) := entry in
  match mapGet name groundTruthMap with
  | Some gt =>
      t <- ptypes pred ;;
      b <- typesMatch t (gtypes gt) ;;
      if b then Some (S tp, fp, S correct) else Some (tp, S fp, correct)
  | None => Some (tp, S fp, correct)
  end.

Fixpoint processEntries (gtMap : JsMap GroundTruthType) (acc : nat * nat * nat)
    (entries : list (string * Prediction)) : option (nat * nat * nat) :=
  match entries with
  | [] => Some acc
  | e :: es => acc' <- processEntry gtMap acc e ;; processEntries gtMap acc' es
  end.

(** The second loop: the ground-truth names absent from [predictedMap]. *)
Definition countMissing (predictedMap : JsMap Prediction)
    (groundTruthMap : JsMap GroundTruthType) : nat :=
  List.length (filter (fun '(name, _) => negb (mapHas name predictedMap)) groundTruthMap).

(** [2 * (precision * recall) / (precision + recall) || 0] on
    non-negative operands; with an operand [Infinity] or [NaN] the
    quotient is [NaN], and [NaN || 0] is [0]. *)
Definition f1Of (precision recall : jsnum) : jsnum :=
  match precision, recall with
  | JNum p, JNum r => orZero (jsDiv (2 * (p * r))%Q (p + r)%Q)
  | _, _ => JNum 0
  end.

Definition calculateMetrics (predicted : list Prediction) (groundTruth : list GroundTruthType)
    : option EvaluationMetrics :=
  let predictedMap := mapOfList pname predicted in
  let groundTruthMap := mapOfList gname groundTruth in
  res <- processEntries groundTruthMap (0, 0, 0) predictedMap ;;
  let '(tp, fp, correct) := res in
  let fn := countMissing predictedMap groundTruthMap in
  let total := List.length predicted in
  let precision := orZero (jsDiv (inject_Z (Z.of_nat tp)) (inject_Z (Z.of_nat (tp + fp)))) in
  let recall := orZero (jsDiv (inject_Z (Z.of_nat tp)) (inject_Z (Z.of_nat (tp + fn)))) in
  Some {| precision := precision;
          recall := recall;
          f1Score := f1Of precision recall;
          accuracy := orZero (jsDiv (inject_Z (Z.of_nat correct)) (inject_Z (Z.of_nat total)));
          totalPredictions := total;
          correctPredictions := correct;
          truePositives := tp;
          falsePositives := fp;
          falseNegatives := fn |}.

End ExactVariant.

(* ------------------------------------------------------------------ *)
(** ** Vocabulary of the statements *)

(** A type string with no generic argument list and no object literal:
    neither [<] nor [{] occurs in it. *)
Definition plainChar (c : ascii) : bool := negb (Ascii.eqb c "<") && negb (Ascii.eqb c "{").

(** The first character of [s] is [d]. *)
Definition headIs (d : ascii) (s : string) : bool :=
  match s with
  | String c _ => Ascii.eqb c d
  | EmptyString => false
  end.

(** The characters left by the first steps of [normalizeType] on a
    plain type string. *)
Definition normChar (c : ascii) : bool :=
  plainChar c && negb (isUpper c) && negb (isSpace c).

(** No occurrence of [[]] in [s]. *)
Fixpoint noPair (s : string) : bool :=
  match s with
  | EmptyString => true
  | String c s' => (negb (Ascii.eqb c "[") || negb (headIs "]" s')) && noPair s'
  end.

Fixpoint allChars (P : ascii -> bool) (s : string) : bool :=
  match s with
  | EmptyString => true
  | String c s' => P c && allChars P s'
  end.

Definition isLower (c : ascii) : bool :=
  let n := nat_of_ascii c in (97 <=? n)%nat && (n <=? 122)%nat.

(** Sample entities: a function whose ground-truth return is [number],
    predicted by ranked candidates or by an array-valued [return]. *)
Definition typesRet (r : string) : TypesShape := {| ret := RStr r; params := None |}.

Definition gtNumber : GroundTruthType := {| gname := "f"; gtypes := typesRet "number" |}.

Definition rankedPrediction (rs : list string) : Prediction :=
  {| pname := "f"; ptypes := None; candidates := Some (map typesRet rs) |}.

Definition singlePrediction (r : string) : Prediction :=
  {| pname := "f"; ptypes := Some (typesRet r); candidates := None |}.

Definition arrayReturnPrediction (rs : list string) : Prediction :=
  {| pname := "f"; ptypes := Some {| ret := RArr rs; params := None |}; candidates := None |}.

(** What a record of [generateDetailedComparison] says about its
    identifier, given the prediction and ground-truth maps. *)
Definition comparisonRecordSpec (fuel : nat) (preds : list Prediction)
    (gts : list GroundTruthType) (r : DetailedComparison) : Prop :=
  match mapGet (identifier r) (mapOfList pname preds),
        mapGet (identifier r) (mapOfList gname gts) with
  | Some pred, Some gt =>
      predicted r = Some pred /\ groundTruth r = Some gt /\
      exists t, ptypes pred = Some t /\
        ((status r = Correct /\ typesMatch fuel t (gtypes gt) = Some true) \/
         (status r = Incorrect /\ typesMatch fuel t (gtypes gt) = Some false /\
          exists d, details r = Some d))
  | Some pred, None => status r = Extra /\ predicted r = Some pred /\ groundTruth r = None
  | None, Some gt => status r = Missing /\ groundTruth r = Some gt /\ predicted r = None
  | None, None => False
  end.

(** The properties every plain JS object inherits from
    [Object.prototype]: [obj[name]] is defined (a function, or the
    prototype itself for [__proto__]) even when [obj] has no own key
    [name]. *)
Definition objectPrototypeNames : list string :=
  ["constructor"; "hasOwnProperty"; "isPrototypeOf"; "propertyIsEnumerable";
   "toLocaleString"; "toString"; "valueOf"; "__proto__";
   "__defineGetter__"; "__defineSetter__"; "__lookupGetter__"; "__lookupSetter__"].

Definition protoName (k : string) : bool := existsb (String.eqb k) objectPrototypeNames.

(** No ground-truth parameter is named after a property of
    [Object.prototype]. *)
Definition gtParamsNoProto (gts : list GroundTruthType) : Prop :=
  forall g pp, In g gts -> params (gtypes g) = Some pp ->
  forallb (fun '(k, _) => negb (protoName k)) pp = true.

(** A [return] field that is not an array. *)
Definition retNotArray (r : RetVal) : Prop := forall l, r <> RArr l.

(** What one prediction adds to (correctPredictions,
    totalReciprocalRank) in [calculateMetrics], whatever was counted
    before it; [None] where the loop body throws. *)
Definition predContribution (fuel : nat) (gm : JsMap GroundTruthType) (pred : Prediction)
    : option (nat * Q) :=
  match mapGet (pname pred) gm with
  | None => Some (0, 0%Q)
  | Some gt =>
      match candidates pred with
      | Some cands =>
          r <- findRank fuel cands (gtypes gt) ;;
          match r with
          | Some r => Some (if Nat.eqb r 1 then 1 else 0, (1 / inject_Z (Z.of_nat r))%Q)
          | None => Some (0, 0%Q)
          end
      | None =>
          types <- ptypes pred ;;
          b <- typesMatch fuel types (gtypes gt) ;;
          if b then Some (1, 1%Q) else Some (0, 0%Q)
      end
  end.

(** A record of [generateDetailedComparison] with status [correct],
    and one with status [missing]. *)
Definition isCorrectRecord (r : DetailedComparison) : bool :=
  match status r with Correct => true | _ => false end.

Definition isMissingRecord (r : DetailedComparison) : bool :=
  match status r with Missing => true | _ => false end.

Fixpoint sumNat (l : list nat) : nat :=
  match l with [] => 0 | x :: l' => x + sumNat l' end.

Fixpoint sumQ (l : list Q) : Q :=
  match l with [] => 0%Q | x :: l' => (x + sumQ l')%Q end.

(** The two halves of the list of differences of [getTypeDifference]. *)
Definition retDifferences (fuel : nat) (predicted groundTruth : TypesShape) : option (list string) :=
  if retTruthy (ret predicted) && retTruthy (ret groundTruth) then
    match compatRet fuel (ret predicted) (ret groundTruth) with
    | None => None
    | Some true => Some []
    | Some false => Some ["Return type: predicted '" ++ retToString (ret predicted)
                          ++ "' is not compatible with '" ++ retToString (ret groundTruth) ++ "'"]
    end
  else Some [].

Definition paramDifferences (fuel : nat) (predicted groundTruth : TypesShape) : list string :=
  match params predicted, params groundTruth with
  | Some pp, Some gp =>
      flat_map (fun '(paramName, gtType) =>
        if paramTruthy pp paramName then
          match mapGet paramName pp with
          | Some predType =>
              if isStructurallyCompatible fuel predType gtType then []
              else ["Parameter " ++ paramName ++ ": predicted '" ++ predType
                    ++ "' is not compatible with '" ++ gtType ++ "'"]
          | None => []
          end
        else ["Missing parameter: " ++ paramName]) gp
  | _, _ => []
  end.

(* ------------------------------------------------------------------ *)
(** * Properties *)

(** ** Examples *)

Example normalize_ex1 : normalizeType "{ b: number; a: string }" = "{a:string,b:number}".
Proof. reflexivity. Qed.
Example normalize_ex2 : normalizeType "Array<String>" = "stringarray".
Proof. reflexivity. Qed.
Example normalize_ex3 : normalizeType "Promise<number>" = "promise".
Proof. reflexivity. Qed.
Example normalize_ex4 : normalizeType "string[] | null" = "stringarray|null".
Proof. reflexivity. Qed.
Example compat_ex1 : isCompat "{name:string,age:number,extra:boolean}" "{name:string,age:number}" = true.
Proof. reflexivity. Qed.
Example compat_ex2 : isCompat "{name:string}" "{name:string,age:number}" = false.
Proof. reflexivity. Qed.
Example compat_ex3 : isCompat "{name:string}" "{name:string,age?:number}" = true.
Proof. reflexivity. Qed.
Example compat_ex4 : isCompat "string" "string|number" = true /\ isCompat "boolean" "string|number" = false.
Proof. split; reflexivity. Qed.
Example compat_ex5 : isCompat "string[]" "string[]" = true /\ isCompat "number[]" "string[]" = false.
Proof. split; reflexivity. Qed.
Example compat_ex6 : normalizeType "Array<Array<number>>" = "array<numberarray>"
  /\ normalizeType "array<numberarray>" = "numberarrayarray".
Proof. split; reflexivity. Qed.
Example compat_ex7 : isCompat "{a:{b:string,c:number}}" "{a:{b:string}}" = false
  /\ isCompat "{b:string,c:number}" "{b:string}" = true.
Proof. split; reflexivity. Qed.
Example compat_ex8 : isCompat "Array<Array<number>>" "Array<Array<number>> | null" = false.
Proof. reflexivity. Qed.


(** ** Characters kept by the normalizer *)


Section AllChars.

Variable P : ascii -> bool.

Lemma allChars_app : forall a b, allChars P (a ++ b) = allChars P a && allChars P b.
Proof. induction a as [|c a IH]; intros b; simpl; [reflexivity|]. rewrite IH. apply andb_assoc. Qed.

Lemma allChars_drop : forall n s, allChars P s = true -> allChars P (drop n s) = true.
Proof.
  induction n as [|n IH]; intros [|c s] H; simpl in *; auto.
  apply andb_prop in H as [_ H]. auto.
Qed.

Lemma allChars_substring0 : forall m s, allChars P s = true -> allChars P (substring 0 m s) = true.
Proof.
  intros m s; revert m; induction s as [|c s IH]; intros [|m] H; simpl in *; auto.
  apply andb_prop in H as [Hc H]. rewrite Hc. simpl. auto.
Qed.

Lemma allChars_substring : forall n m s, allChars P s = true -> allChars P (substring n m s) = true.
Proof.
  induction n as [|n IH]; intros m s H; [apply allChars_substring0; exact H|].
  destruct s as [|c s]; simpl in *; [reflexivity|].
  apply andb_prop in H as [_ H]. auto.
Qed.

Lemma allChars_breakAt : forall c s pre post, breakAt c s = (pre, post) ->
  allChars P s = true ->
  allChars P pre = true /\ (forall r, post = Some r -> allChars P r = true).
Proof.
  intros c; induction s as [|d s IH]; intros pre post Hb H; simpl in *.
  - inversion Hb; subst. split; [reflexivity|discriminate].
  - apply andb_prop in H as [Hd H].
    destruct (Ascii.eqb c d).
    + inversion Hb; subst. split; [reflexivity|]. intros r Hr; inversion Hr; subst; exact H.
    + destruct (breakAt c s) as [pre' post'] eqn:E. inversion Hb; subst.
      destruct (IH _ _ eq_refl H) as [H1 H2]. simpl. rewrite Hd, H1. auto.
Qed.

Lemma allChars_split : forall c s, allChars P s = true ->
  Forall (fun w => allChars P w = true) (split c s).
Proof.
  intros c; induction s as [|d s IH]; intros H; simpl in *.
  - constructor; [reflexivity|constructor].
  - apply andb_prop in H as [Hd H]. specialize (IH H).
    destruct (Ascii.eqb c d).
    + constructor; [reflexivity|exact IH].
    + destruct (split c s) as [|w ws]; constructor.
      * simpl. rewrite Hd. reflexivity.
      * constructor.
      * simpl. rewrite Hd. inversion IH; subst. assumption.
      * inversion IH; subst. assumption.
Qed.

Lemma allChars_revStr : forall s, allChars P (revStr s) = allChars P s.
Proof.
  induction s as [|c s IH]; simpl; [reflexivity|].
  rewrite allChars_app, IH. simpl. rewrite andb_true_r. apply andb_comm.
Qed.

Lemma allChars_trimStart : forall s, allChars P s = true -> allChars P (trimStart s) = true.
Proof.
  induction s as [|c s IH]; intros H; simpl in *; auto.
  destruct (isSpace c); [|exact H]. apply andb_prop in H as [_ H]. auto.
Qed.

Lemma allChars_trim : forall s, allChars P s = true -> allChars P (trim s) = true.
Proof.
  intros s H. unfold trim. rewrite allChars_revStr.
  apply allChars_trimStart. rewrite allChars_revStr. apply allChars_trimStart. exact H.
Qed.

Lemma allChars_removeSpaces : forall s, allChars P s = true -> allChars P (removeSpaces s) = true.
Proof.
  induction s as [|c s IH]; intros H; simpl in *; auto.
  apply andb_prop in H as [Hc H]. destruct (isSpace c); simpl; [auto|]. rewrite Hc. auto.
Qed.

Lemma allChars_mapChars : forall f s, (forall c, P c = true -> P (f c) = true) ->
  allChars P s = true -> allChars P (mapChars f s) = true.
Proof.
  intros f; induction s as [|c s IH]; intros Hf H; simpl in *; auto.
  apply andb_prop in H as [Hc H]. rewrite (Hf c Hc). simpl. auto.
Qed.

Lemma allChars_join : forall sep l, allChars P sep = true ->
  Forall (fun w => allChars P w = true) l -> allChars P (join sep l) = true.
Proof.
  intros sep l Hs Hl. unfold join. induction Hl as [|w l Hw Hl IH]; simpl; [reflexivity|].
  destruct l as [|w' l]; [exact Hw|].
  rewrite allChars_app, Hw, allChars_app, Hs, IH. reflexivity.
Qed.

Lemma In_insertStr : forall x w l, In w (insertStr x l) -> w = x \/ In w l.
Proof.
  intros x w; induction l as [|y l IH]; simpl; intros H.
  - destruct H as [H|[]]. auto.
  - destruct (String.ltb y x); simpl in H.
    + destruct H as [H|H]; [auto|]. destruct (IH H); auto.
    + destruct H as [H|[H|H]]; auto.
Qed.

Lemma Forall_sortStrings : forall (Q : string -> Prop) l, Forall Q l -> Forall Q (sortStrings l).
Proof.
  intros Q l H. apply Forall_forall. intros w Hw.
  rewrite Forall_forall in H. revert w Hw.
  induction l as [|x l IH]; simpl; intros w Hw; [destruct Hw|].
  destruct (In_insertStr _ _ _ Hw) as [->|Hw']; [apply H; left; reflexivity|].
  apply IH; [intros y Hy; apply H; right; exact Hy|exact Hw'].
Qed.

Lemma allChars_sortMembers : forall content, allChars P "," = true ->
  allChars P content = true -> allChars P (sortMembers content) = true.
Proof.
  intros content Hc H. unfold sortMembers. apply allChars_join; [exact Hc|].
  apply Forall_sortStrings. apply Forall_forall. intros w Hw.
  apply filter_In in Hw as [Hw _]. apply in_map_iff in Hw as [v [<- Hv]].
  apply allChars_trim. pose proof (allChars_split "," _ H) as Hs.
  rewrite Forall_forall in Hs. apply Hs. exact Hv.
Qed.

(** A replacement whose matches only produce and leave characters
    satisfying [P] keeps a string within [P]. *)
Lemma allChars_scan : forall (m : matcher),
  (forall s out rest, m s = Some (out, rest) -> allChars P s = true ->
     allChars P out = true /\ allChars P rest = true) ->
  forall k s, allChars P s = true -> allChars P (scan m k s) = true.
Proof.
  intros m Hm; induction k as [|k IH]; intros s H; simpl; [exact H|].
  destruct s as [|c s']; [reflexivity|].
  destruct (m (String c s')) as [[out rest]|] eqn:E.
  - destruct (Hm _ _ _ E H) as [H1 H2]. rewrite allChars_app, H1. simpl. auto.
  - simpl in *. apply andb_prop in H as [Hc H]. rewrite Hc. simpl. auto.
Qed.

End AllChars.


Lemma lowerChar_cases : forall c,
  lowerChar c = c \/ (isUpper c = true /\ isLower (lowerChar c) = true).
Proof.
  intros [b0 b1 b2 b3 b4 b5 b6 b7].
  destruct b0, b1, b2, b3, b4, b5, b6, b7;
    first [left; reflexivity | right; split; reflexivity].
Qed.

(** [toLowerCase] only moves letters: a character that is neither an
    upper-case nor a lower-case letter is found in the result exactly
    where it was. *)
Lemma lowerChar_eqb : forall x c, isUpper x = false -> isLower x = false ->
  Ascii.eqb x (lowerChar c) = Ascii.eqb x c.
Proof.
  intros x c Hu Hl. destruct (lowerChar_cases c) as [->|[Hc Hlc]]; [reflexivity|].
  destruct (Ascii.eqb_spec x (lowerChar c)) as [E|_]; [rewrite <- E in Hlc; congruence|].
  destruct (Ascii.eqb_spec x c) as [E|_]; [subst; congruence|reflexivity].
Qed.

Lemma toLowerCase_mapChars : forall s, toLowerCase s = mapChars lowerChar s.
Proof. induction s as [|c s IH]; simpl; [reflexivity|rewrite IH; reflexivity]. Qed.

(** [normalizeType] introduces only the characters of [array],
    [object], [promise], braces and commas. *)
Lemma allChars_normalizeType : forall P : ascii -> bool,
  (forall c, P c = true -> P (lowerChar c) = true) ->
  (forall c, P c = true -> P (separatorChar c) = true) ->
  allChars P "array" = true -> allChars P "object" = true -> allChars P "promise" = true ->
  allChars P "{" = true -> allChars P "}" = true -> allChars P "," = true ->
  forall t, allChars P t = true -> allChars P (normalizeType t) = true.
Proof.
  intros P Hlow Hsep Ha Ho Hp Hl Hr Hc t Ht. unfold normalizeType, replaceAll.
  assert (Hlit : forall pat rep, allChars P rep = true -> forall s out rest,
            litMatcher pat rep s = Some (out, rest) -> allChars P s = true ->
            allChars P out = true /\ allChars P rest = true).
  { intros pat rep Hrep s out rest E Hs. unfold litMatcher in E.
    destruct (prefix pat s); inversion E; subst. split; [exact Hrep|apply allChars_drop; exact Hs]. }
  assert (Hgen : forall kw f, (forall g, allChars P g = true -> allChars P (f g) = true) ->
            forall s out rest, genericMatcher kw f s = Some (out, rest) -> allChars P s = true ->
            allChars P out = true /\ allChars P rest = true).
  { intros kw f Hf s out rest E Hs. unfold genericMatcher in E.
    destruct (prefix (kw ++ "<") s); [|discriminate].
    destruct (breakAt ">" (drop (String.length kw + 1) s)) as [g post] eqn:Eb.
    destruct (allChars_breakAt P _ _ _ _ Eb (allChars_drop P _ _ Hs)) as [Hg Hpost].
    destruct g as [|d g]; [discriminate|]. destruct post as [r|]; [|discriminate].
    inversion E; subst. split; [apply Hf; exact Hg|apply Hpost; reflexivity]. }
  apply allChars_scan.
  { intros s out rest E Hs. unfold objectMatcher in E.
    destruct s as [|c s']; [discriminate|]. destruct (Ascii.eqb c "{"); [|discriminate].
    simpl in Hs. apply andb_prop in Hs as [_ Hs].
    destruct (breakAt "}" s') as [content post] eqn:Eb.
    destruct (allChars_breakAt P _ _ _ _ Eb Hs) as [Hct Hpost].
    destruct content as [|d content]; [discriminate|]. destruct post as [r|]; [|discriminate].
    inversion E; subst. split; [|apply Hpost; reflexivity].
    assert (Hx : allChars P (sortMembers (String d content)) = true)
      by (apply allChars_sortMembers; auto).
    revert Hx. generalize (sortMembers (String d content)). intros x Hx.
    simpl in Hl, Hr |- *. rewrite andb_true_r in Hl, Hr.
    rewrite Hl. simpl. rewrite allChars_app, Hx. simpl. rewrite Hr. reflexivity. }
  apply allChars_mapChars; [exact Hsep|].
  apply allChars_scan; [apply Hgen; intros; exact Hp|].
  apply allChars_scan; [apply Hlit; exact Ho|].
  apply allChars_scan; [apply Hgen; intros g Hg; rewrite allChars_app, Hg; exact Ha|].
  apply allChars_scan; [apply Hlit; exact Ha|].
  apply allChars_removeSpaces. rewrite toLowerCase_mapChars.
  apply allChars_mapChars; [exact Hlow|exact Ht].
Qed.

Lemma includesChar_allChars : forall c s,
  includesChar c s = negb (allChars (fun d => negb (Ascii.eqb c d)) s).
Proof.
  intros c; induction s as [|d s IH]; simpl; [reflexivity|].
  rewrite IH. destruct (Ascii.eqb c d); reflexivity.
Qed.

(** A type string without [|] normalizes to one without [|]. *)
Lemma normalizeType_no_bar : forall t,
  includesChar "|" t = false -> includesChar "|" (normalizeType t) = false.
Proof.
  intros t H. rewrite includesChar_allChars in *.
  apply negb_false_iff in H. apply negb_false_iff.
  apply allChars_normalizeType; try reflexivity; [| |exact H].
  - intros c Hc. rewrite lowerChar_eqb by reflexivity. exact Hc.
  - intros c Hc. unfold separatorChar.
    destruct (Ascii.eqb c ";" || Ascii.eqb c ","); [reflexivity|exact Hc].
Qed.

Lemma split_no_sep : forall c s,
  Forall (fun w => allChars (fun d => negb (Ascii.eqb c d)) w = true) (split c s).
Proof.
  intros c; induction s as [|d s IH]; simpl.
  - constructor; [reflexivity|constructor].
  - destruct (Ascii.eqb c d) eqn:E.
    + constructor; [reflexivity|exact IH].
    + destruct (split c s) as [|w ws]; constructor; simpl; try rewrite E; simpl.
      * reflexivity.
      * constructor.
      * inversion IH; assumption.
      * inversion IH; assumption.
Qed.

(** Every member of [parseUnionType] is free of [|]. *)
Lemma parseUnionType_no_bar : forall s u,
  In u (parseUnionType s) -> includesChar "|" u = false.
Proof.
  intros s u Hu. unfold parseUnionType in Hu. apply in_map_iff in Hu as [w [<- Hw]].
  rewrite includesChar_allChars. apply negb_false_iff. apply allChars_trim.
  pose proof (split_no_sep "|" s) as H. rewrite Forall_forall in H. apply H. exact Hw.
Qed.

Lemma split_nonempty : forall c s, split c s <> [].
Proof.
  intros c [|d s]; simpl; [discriminate|].
  destruct (Ascii.eqb c d); [discriminate|]. destruct (split c s); discriminate.
Qed.

Lemma parseUnionType_nonempty : forall s, parseUnionType s <> [].
Proof.
  intros s. unfold parseUnionType. pose proof (split_nonempty "|" s).
  destruct (split "|" s); [contradiction|discriminate].
Qed.

(** One step of [isStructurallyCompatible]. *)
Lemma isSC_step : forall k p g,
  isStructurallyCompatible (S k) p g =
  let np := normalizeType p in
  let ng := normalizeType g in
  if String.eqb np ng then true
  else if isObjectType np && isObjectType ng then
    areObjectTypesCompatible (isStructurallyCompatible k) np ng
  else if isUnionType ng then
    existsb (fun u => isStructurallyCompatible k p u) (parseUnionType ng)
  else if isArrayType np && isArrayType ng then
    isStructurallyCompatible k (extractArrayElementType np) (extractArrayElementType ng)
  else areBasicTypesCompatible np ng.
Proof. reflexivity. Qed.

Lemma isSC_refl : forall k t, isStructurallyCompatible (S k) t t = true.
Proof. intros k t. rewrite isSC_step. simpl. rewrite String.eqb_refl. reflexivity. Qed.

(** A predicted type that normalizes to a wildcard, neither an object
    nor an array type, is accepted by every ground truth whose
    normalization has no [|]. *)
Lemma isSC_wildcard_nonunion : forall k w g,
  (normalizeType w = "any" \/ normalizeType w = "unknown") ->
  includesChar "|" (normalizeType g) = false ->
  isStructurallyCompatible (S k) w g = true.
Proof.
  intros k w g Hw Hg. rewrite isSC_step. cbv zeta.
  assert (Hobj : isObjectType (normalizeType w) = false) by (destruct Hw as [-> | ->]; reflexivity).
  assert (Harr : isArrayType (normalizeType w) = false) by (destruct Hw as [-> | ->]; reflexivity).
  unfold isUnionType. rewrite Hg, Hobj, Harr. simpl andb.
  destruct (String.eqb _ _); [reflexivity|].
  unfold areBasicTypesCompatible.
  destruct Hw as [-> | ->]; simpl; destruct (String.eqb (normalizeType g) "any"); reflexivity.
Qed.

(** ... and so is accepted by every ground truth, given two steps. *)
Lemma isSC_wildcard : forall k w g,
  (normalizeType w = "any" \/ normalizeType w = "unknown") ->
  isStructurallyCompatible (S (S k)) w g = true.
Proof.
  intros k w g Hw. rewrite isSC_step. cbv zeta.
  assert (Hobj : isObjectType (normalizeType w) = false) by (destruct Hw as [-> | ->]; reflexivity).
  assert (Harr : isArrayType (normalizeType w) = false) by (destruct Hw as [-> | ->]; reflexivity).
  rewrite Hobj, Harr. simpl andb.
  destruct (String.eqb _ _); [reflexivity|].
  destruct (isUnionType (normalizeType g)) eqn:Hu.
  - pose proof (parseUnionType_nonempty (normalizeType g)) as Hne.
    destruct (parseUnionType (normalizeType g)) as [|u us] eqn:Ep; [contradiction|].
    cbn [existsb]. rewrite isSC_wildcard_nonunion; [reflexivity|exact Hw|].
    apply normalizeType_no_bar. apply (parseUnionType_no_bar (normalizeType g)).
    rewrite Ep. left. reflexivity.
  - unfold areBasicTypesCompatible.
    destruct Hw as [-> | ->]; simpl; destruct (String.eqb (normalizeType g) "any"); reflexivity.
Qed.

Lemma isSC_against_wildcard : forall k p g,
  (normalizeType g = "any" \/ normalizeType g = "unknown") ->
  isStructurallyCompatible (S k) p g =
  String.eqb (normalizeType p) (normalizeType g) || areBasicTypesCompatible (normalizeType p) (normalizeType g).
Proof.
  intros k p g Hg. rewrite isSC_step. cbv zeta.
  assert (Hobj : isObjectType (normalizeType g) = false) by (destruct Hg as [-> | ->]; reflexivity).
  assert (Harr : isArrayType (normalizeType g) = false) by (destruct Hg as [-> | ->]; reflexivity).
  assert (Hu : isUnionType (normalizeType g) = false) by (destruct Hg as [-> | ->]; reflexivity).
  rewrite Hobj, Harr, Hu, !andb_false_r.
  destruct (String.eqb _ _); reflexivity.
Qed.

(** ** C3 *)

(** C3: ['any'] is a wildcard on both sides: for every type string [t],
    [isStructurallyCompatible("any", t)] and
    [isStructurallyCompatible(t, "any")] hold (whatever the shape of [t]:
    object, union, array or basic), once the recursion has the two steps
    that a union ground truth needs. *)
Theorem any_wildcard_both_sides : forall k t,
  isStructurallyCompatible (S (S k)) "any" t = true /\
  isStructurallyCompatible (S k) t "any" = true.
Proof.
  intros k t. split.
  - apply isSC_wildcard. left. reflexivity.
  - rewrite isSC_against_wildcard by (left; reflexivity).
    unfold areBasicTypesCompatible. change (normalizeType "any") with "any".
    destruct (String.eqb (normalizeType t) "any"); reflexivity.
Qed.

(** ** C4 *)

(** C4: ['unknown'] is a wildcard only on the predicted side:
    [isStructurallyCompatible("unknown", "string")] is true and
    [isStructurallyCompatible("string", "unknown")] is false; a predicted
    ['unknown'] is accepted by every ground truth, while a ground truth
    ['unknown'] accepts exactly the predictions normalizing to
    ['unknown'] or ['any']. *)
Theorem unknown_one_directional : forall k,
  isStructurallyCompatible (S k) "unknown" "string" = true /\
  isStructurallyCompatible (S k) "string" "unknown" = false /\
  (forall t, isStructurallyCompatible (S (S k)) "unknown" t = true) /\
  (forall p, isStructurallyCompatible (S k) p "unknown" =
             String.eqb (normalizeType p) "unknown" || String.eqb (normalizeType p) "any").
Proof.
  intros k. split; [reflexivity|]. split; [reflexivity|]. split.
  - intros t. apply isSC_wildcard. right. reflexivity.
  - intros p. rewrite isSC_against_wildcard by (right; reflexivity).
    change (normalizeType "unknown") with "unknown". unfold areBasicTypesCompatible.
    destruct (String.eqb (normalizeType p) "unknown") eqn:E1;
      destruct (String.eqb (normalizeType p) "any") eqn:E2; simpl; reflexivity.
Qed.

(** ** Maps built by [set] *)

Lemma mapGet_mapSet : forall {V} k k' (v : V) m,
  mapGet k (mapSet k' v m) = if String.eqb k k' then Some v else mapGet k m.
Proof.
  intros V k k' v m. induction m as [|[k0 v0] m IH]; simpl.
  - reflexivity.
  - destruct (String.eqb k' k0) eqn:E0; simpl.
    + apply String.eqb_eq in E0. subst k0. destruct (String.eqb k k'); reflexivity.
    + rewrite IH. destruct (String.eqb k k0) eqn:E1; [|reflexivity].
      apply String.eqb_eq in E1. subst k0.
      destruct (String.eqb k k') eqn:E2; [|reflexivity].
      apply String.eqb_eq in E2. subst k'. rewrite String.eqb_refl in E0. discriminate.
Qed.

Lemma In_keys_mapSet : forall {V} k k' (v : V) m,
  In k (map fst (mapSet k' v m)) <-> k = k' \/ In k (map fst m).
Proof.
  intros V k k' v m. induction m as [|[k0 v0] m IH]; simpl.
  - firstorder congruence.
  - destruct (String.eqb k' k0) eqn:E0; simpl.
    + apply String.eqb_eq in E0. subst k0. firstorder congruence.
    + rewrite IH. firstorder congruence.
Qed.

Lemma NoDup_mapSet : forall {V} k (v : V) m,
  NoDup (map fst m) -> NoDup (map fst (mapSet k v m)).
Proof.
  intros V k v m. induction m as [|[k0 v0] m IH]; simpl; intros H.
  - constructor; [intros []|constructor].
  - inversion H as [|? ? Hn Hd]; subst.
    destruct (String.eqb k k0) eqn:E; simpl.
    + apply String.eqb_eq in E. subst. constructor; assumption.
    + constructor; [|apply IH; exact Hd].
      rewrite In_keys_mapSet. intros [->|Hin]; [rewrite String.eqb_refl in E; discriminate|].
      contradiction.
Qed.

Lemma mapGet_In : forall {V} k (v : V) m, mapGet k m = Some v -> In (k, v) m.
Proof.
  intros V k v m. induction m as [|[k0 v0] m IH]; simpl; intros H; [discriminate|].
  destruct (String.eqb k k0) eqn:E.
  - apply String.eqb_eq in E. inversion H; subst. left. reflexivity.
  - right. auto.
Qed.

Lemma In_mapGet : forall {V} k (v : V) m, NoDup (map fst m) -> In (k, v) m -> mapGet k m = Some v.
Proof.
  intros V k v m. induction m as [|[k0 v0] m IH]; simpl; intros Hd H; [destruct H|].
  inversion Hd as [|? ? Hn Hd']; subst.
  destruct H as [H|H].
  - inversion H; subst. rewrite String.eqb_refl. reflexivity.
  - destruct (String.eqb k k0) eqn:E.
    + apply String.eqb_eq in E. subst. exfalso. apply Hn.
      apply in_map_iff. exists (k0, v). auto.
    + auto.
Qed.

(** [forallb] over the entries of a map is a statement about lookups. *)
Lemma forallb_mapGet : forall {V} (f : string * V -> bool) m, NoDup (map fst m) ->
  forallb f m = true <-> (forall k v, mapGet k m = Some v -> f (k, v) = true).
Proof.
  intros V f m Hd. rewrite forallb_forall. split.
  - intros H k v Hg. apply H. apply mapGet_In. exact Hg.
  - intros H [k v] Hin. apply H. apply In_mapGet; assumption.
Qed.

Lemma NoDup_parseObjectType : forall s, NoDup (map fst (parseObjectType s)).
Proof.
  intros s. unfold parseObjectType.
  destruct (String.eqb (trim _) ""); [constructor|].
  assert (H : forall l m, NoDup (map fst m) -> NoDup (map fst (fold_left parseProp l m))).
  { induction l as [|x l IH]; intros m Hm; simpl; [exact Hm|]. apply IH.
    unfold parseProp. destruct (String.eqb (trim x) ""); [exact Hm|].
    destruct (indexOfChar ":" (trim x)); [apply NoDup_mapSet; exact Hm|exact Hm]. }
  apply H. constructor.
Qed.

(** [areObjectTypesCompatible] as lookups in the two property maps. *)
Lemma areObjectTypesCompatible_spec : forall compat p g,
  areObjectTypesCompatible compat p g = true <->
  (forall name gi, mapGet name (parseObjectType g) = Some gi ->
     (optional gi = false -> mapGet name (parseObjectType p) <> None) /\
     (forall pi, mapGet name (parseObjectType p) = Some pi -> compat (ptype pi) (ptype gi) = true)).
Proof.
  intros compat p g. unfold areObjectTypesCompatible.
  rewrite forallb_mapGet by apply NoDup_parseObjectType.
  split.
  - intros H name gi Hg. specialize (H name gi Hg). simpl in H.
    destruct (mapGet name (parseObjectType p)) as [pi|].
    + split; [discriminate|]. intros pi' Hpi. inversion Hpi; subst. exact H.
    + split; [intros Ho; rewrite Ho in H; discriminate|discriminate].
  - intros H name gi Hg. destruct (H name gi Hg) as [H1 H2]. simpl.
    destruct (mapGet name (parseObjectType p)) as [pi|].
    + apply H2. reflexivity.
    + destruct (optional gi); [reflexivity|]. exfalso. apply H1; reflexivity.
Qed.

(** ** C1 *)

(** C1 (counterexample): the property types are read by splitting the
    object body at every comma, so a nested object literal with two
    members is cut apart.  The only property [a] of the ground truth
    [{a:{b:string}}] is present in [{a:{b:string,c:number}}] with type
    [{b:string,c:number}], which is compatible with [{b:string}]; yet
    the two object types are judged incompatible, for every fuel. *)
Lemma nested_object_member_rejected :
  (forall k, isStructurallyCompatible k "{a:{b:string,c:number}}" "{a:{b:string}}" = false) /\
  (forall k, isStructurallyCompatible (S (S k)) "{b:string,c:number}" "{b:string}" = true).
Proof. split; intros [|[|k]]; reflexivity. Qed.

(** C1 (amended): for normalized object-literal strings,
    [isStructurallyCompatible(predicted, groundTruth)] holds exactly when,
    in the property maps built by [parseObjectType] (which split the
    object body at every comma), every non-optional ground-truth
    property is present in the predicted map and every property present
    in both has recursively compatible types; predicted properties
    absent from the ground truth play no part.  In particular
    [{name:string}] is incompatible with [{name:string,age:number}] and
    compatible with [{name:string,age?:number}]. *)
Theorem object_compat_by_property_maps :
  (forall k p g,
     isObjectType (normalizeType p) = true -> isObjectType (normalizeType g) = true ->
     (isStructurallyCompatible (S (S k)) p g = true <->
      (forall name gi, mapGet name (parseObjectType (normalizeType g)) = Some gi ->
         (optional gi = false -> mapGet name (parseObjectType (normalizeType p)) <> None) /\
         (forall pi, mapGet name (parseObjectType (normalizeType p)) = Some pi ->
            isStructurallyCompatible (S k) (ptype pi) (ptype gi) = true)))) /\
  (forall k, isStructurallyCompatible k "{name:string}" "{name:string,age:number}" = false) /\
  (forall k, isStructurallyCompatible (S (S k)) "{name:string}" "{name:string,age?:number}" = true).
Proof.
  split; [|split; intros [|[|k]]; reflexivity].
  intros k p g Hp Hg. rewrite isSC_step. cbv zeta.
  destruct (String.eqb (normalizeType p) (normalizeType g)) eqn:E.
  - apply String.eqb_eq in E. rewrite E. split; [intros _|reflexivity].
    intros name gi Hgi. split; [rewrite Hgi; discriminate|].
    intros pi Hpi. rewrite Hgi in Hpi. inversion Hpi; subst. apply isSC_refl.
  - rewrite Hp, Hg. simpl andb. apply areObjectTypesCompatible_spec.
Qed.

(** Witness of [object_compat_by_property_maps] at two flat object
    literals. *)
Lemma object_compat_by_property_maps_witness :
  isStructurallyCompatible 4 "{name:string,extra:boolean}" "{name:string}" = true /\
  (forall name gi, mapGet name (parseObjectType (normalizeType "{name:string}")) = Some gi ->
     (optional gi = false -> mapGet name (parseObjectType (normalizeType "{name:string,extra:boolean}")) <> None) /\
     (forall pi, mapGet name (parseObjectType (normalizeType "{name:string,extra:boolean}")) = Some pi ->
        isStructurallyCompatible 3 (ptype pi) (ptype gi) = true)).
Proof.
  pose proof (proj1 object_compat_by_property_maps 2 "{name:string,extra:boolean}" "{name:string}"
                eq_refl eq_refl) as H.
  assert (Hc : isStructurallyCompatible 4 "{name:string,extra:boolean}" "{name:string}" = true)
    by reflexivity.
  split; [exact Hc|]. apply H. exact Hc.
Defined.

(** ** C2 *)

(** C2 (counterexample): the equality test comes before the union
    expansion, so ["string|number"] is compatible with itself although
    it is compatible with none of the members [string] and [number]. *)
Lemma identical_union_accepted_without_member :
  (forall k, isStructurallyCompatible (S k) "string|number" "string|number" = true) /\
  (forall k, existsb (fun u => isStructurallyCompatible k "string|number" u)
                     (parseUnionType (normalizeType "string|number")) = false).
Proof. split; intros [|k]; reflexivity. Qed.

(** C2 (amended): when the normalized sides differ and are not both
    object types and the normalized ground truth contains ['|'], the
    result is the existential match over the union members; a ground
    truth without ['|'] is never expanded, and outside the object and
    array pairings the result is the equality and basic-type rules, so
    [isStructurallyCompatible("string|number", "string")] is false. *)
Theorem union_ground_truth_existential :
  (forall k p g,
     normalizeType p <> normalizeType g ->
     isObjectType (normalizeType p) && isObjectType (normalizeType g) = false ->
     isUnionType (normalizeType g) = true ->
     isStructurallyCompatible (S k) p g =
     existsb (fun u => isStructurallyCompatible k p u) (parseUnionType (normalizeType g))) /\
  (forall k p g,
     isUnionType (normalizeType g) = false ->
     isObjectType (normalizeType p) && isObjectType (normalizeType g) = false ->
     isArrayType (normalizeType p) && isArrayType (normalizeType g) = false ->
     isStructurallyCompatible (S k) p g =
     String.eqb (normalizeType p) (normalizeType g)
     || areBasicTypesCompatible (normalizeType p) (normalizeType g)) /\
  (forall k, isStructurallyCompatible k "string|number" "string" = false).
Proof.
  split; [|split; [|intros [|k]; reflexivity]].
  - intros k p g Hne Hobj Hu. rewrite isSC_step. cbv zeta.
    apply String.eqb_neq in Hne. rewrite Hne, Hobj, Hu. reflexivity.
  - intros k p g Hu Hobj Harr. rewrite isSC_step. cbv zeta.
    rewrite Hobj, Hu, Harr. destruct (String.eqb _ _); reflexivity.
Qed.

(** Witness of [union_ground_truth_existential]. *)
Lemma union_ground_truth_existential_witness :
  isStructurallyCompatible 3 "string" "string|number" = true /\
  isStructurallyCompatible 3 "boolean" "string|number" = false /\
  isStructurallyCompatible 3 "string" "number" = false.
Proof.
  split; [|split].
  - rewrite (proj1 union_ground_truth_existential 2 "string" "string|number");
      [reflexivity|discriminate|reflexivity|reflexivity].
  - rewrite (proj1 union_ground_truth_existential 2 "boolean" "string|number");
      [reflexivity|discriminate|reflexivity|reflexivity].
  - rewrite (proj1 (proj2 union_ground_truth_existential) 2 "string" "number");
      reflexivity.
Defined.

(** ** Ranked candidates *)

Lemma findRank_first : forall fuel gt cands i cand,
  nth_error cands i = Some cand ->
  typesMatch fuel cand gt = Some true ->
  (forall j cj, j < i -> nth_error cands j = Some cj -> typesMatch fuel cj gt = Some false) ->
  findRank fuel cands gt = Some (Some (S i)).
Proof.
  intros fuel gt cands. induction cands as [|c cs IH]; intros i cand Hi Hm Hbefore.
  - destruct i; discriminate.
  - simpl. destruct i as [|i].
    + simpl in Hi. inversion Hi; subst. rewrite Hm. reflexivity.
    + rewrite (Hbefore 0 c) by (reflexivity || lia). simpl.
      rewrite (IH i cand Hi Hm); [reflexivity|].
      intros j cj Hj Hcj. apply (Hbefore (S j)); [lia|exact Hcj].
Qed.

Lemma findRank_none : forall fuel gt cands,
  (forall cj, In cj cands -> typesMatch fuel cj gt = Some false) ->
  findRank fuel cands gt = Some None.
Proof.
  intros fuel gt cands. induction cands as [|c cs IH]; intros H; simpl; [reflexivity|].
  rewrite (H c) by (left; reflexivity). simpl.
  rewrite IH; [reflexivity|]. intros cj Hcj. apply H. right. exact Hcj.
Qed.

(** ** C5 *)

(** C5: for a prediction with a candidates sequence whose name is in the
    ground truth, the loop body of [calculateMetrics] adds [1/r] to
    totalReciprocalRank for the first 1-based rank [r] whose candidate
    matches, increments correctPredictions only when [r = 1], and adds
    nothing when no candidate matches.  With ground truth [number] and
    candidates [string], [number], [boolean] the contribution is [0.5]
    and correctPredictions stays [0]. *)
Theorem ranked_candidates_reciprocal_rank :
  (forall fuel gtMap c trr pred cands gt i cand,
     candidates pred = Some cands ->
     mapGet (pname pred) gtMap = Some gt ->
     nth_error cands i = Some cand ->
     typesMatch fuel cand (gtypes gt) = Some true ->
     (forall j cj, j < i -> nth_error cands j = Some cj -> typesMatch fuel cj (gtypes gt) = Some false) ->
     processPrediction fuel gtMap (c, trr) pred =
     Some (if Nat.eqb i 0 then S c else c, (trr + 1 / inject_Z (Z.of_nat (S i)))%Q)) /\
  (forall fuel gtMap c trr pred cands gt,
     candidates pred = Some cands ->
     mapGet (pname pred) gtMap = Some gt ->
     (forall cj, In cj cands -> typesMatch fuel cj (gtypes gt) = Some false) ->
     processPrediction fuel gtMap (c, trr) pred = Some (c, trr)) /\
  (forall fuel m,
     calculateMetrics (S fuel) [rankedPrediction ["string"; "number"; "boolean"]] [gtNumber] = Some m ->
     correctPredictions m = 0 /\ (totalReciprocalRank m == 1 # 2)%Q).
Proof.
  split; [|split].
  - intros fuel gtMap c trr pred cands gt i cand Hc Hg Hi Hm Hb.
    unfold processPrediction. rewrite Hg, Hc.
    rewrite (findRank_first fuel (gtypes gt) cands i cand Hi Hm Hb). reflexivity.
  - intros fuel gtMap c trr pred cands gt Hc Hg Hn.
    unfold processPrediction. rewrite Hg, Hc, (findRank_none fuel (gtypes gt) cands Hn). reflexivity.
  - intros fuel m H. vm_compute in H. inversion H; subst. split; reflexivity.
Qed.

(** Witness of [ranked_candidates_reciprocal_rank]: the second candidate
    of [string], [number], [boolean] matches [number]. *)
Lemma ranked_candidates_reciprocal_rank_witness :
  processPrediction 3 (mapOfList gname [gtNumber]) (0, 0%Q)
    (rankedPrediction ["string"; "number"; "boolean"]) = Some (0, (0 + 1 / inject_Z 2)%Q).
Proof.
  apply (proj1 ranked_candidates_reciprocal_rank 3 _ 0 0%Q _ (map typesRet ["string"; "number"; "boolean"])
           gtNumber 1 (typesRet "number")); try reflexivity.
  intros [|j] cj Hj Hcj; [inversion Hcj; reflexivity|lia].
Defined.

(** ** C7 *)

Lemma orZero_jsDiv : forall a b, ~ (b == 0)%Q -> jsnumEq (orZero (jsDiv a b)) (JNum (a / b)).
Proof.
  intros a b Hb. unfold jsDiv.
  destruct (Qeq_bool b 0) eqn:E; [apply Qeq_bool_eq in E; contradiction|].
  simpl. destruct (Qeq_bool (a / b) 0) eqn:E2; simpl.
  - apply Qeq_bool_eq in E2. symmetry. exact E2.
  - reflexivity.
Qed.

Lemma inject_length_nonzero : forall {A} (l : list A), l <> [] ->
  ~ (inject_Z (Z.of_nat (List.length l)) == 0)%Q.
Proof.
  intros A l Hl. destruct l as [|x l]; [contradiction|].
  change 0%Q with (inject_Z 0). rewrite inject_Z_injective. simpl. lia.
Qed.

(** C7: [calculateMetrics] never divides by zero: on an empty prediction
    list it returns accuracy [0] and mrr [0] (neither [NaN] nor an
    exception), and otherwise accuracy is correctPredictions /
    totalPredictions and mrr is totalReciprocalRank / totalPredictions. *)
Theorem metrics_zero_guard :
  (forall fuel gts,
     calculateMetrics fuel [] gts =
     Some {| accuracy := JNum 0; mrr := JNum 0; totalPredictions := 0;
             correctPredictions := 0; totalReciprocalRank := 0%Q |}) /\
  (forall fuel preds gts m,
     preds <> [] ->
     calculateMetrics fuel preds gts = Some m ->
     jsnumEq (accuracy m) (JNum (inject_Z (Z.of_nat (correctPredictions m))
                                 / inject_Z (Z.of_nat (totalPredictions m)))) /\
     jsnumEq (mrr m) (JNum (totalReciprocalRank m / inject_Z (Z.of_nat (totalPredictions m))))).
Proof.
  split.
  - intros fuel gts. reflexivity.
  - intros fuel preds gts m Hne H. unfold calculateMetrics in H.
    destruct (processAll fuel _ _ preds) as [[correct trr]|]; [|discriminate].
    simpl in H. inversion H; subst. simpl.
    split; apply orZero_jsDiv, inject_length_nonzero; exact Hne.
Qed.

(** Witness of [metrics_zero_guard] on the end-to-end example of an
    exactly predicted function. *)
Lemma metrics_zero_guard_witness :
  exists m, calculateMetrics 3 [singlePrediction "number"] [gtNumber] = Some m /\
  jsnumEq (accuracy m) (JNum (inject_Z (Z.of_nat (correctPredictions m))
                              / inject_Z (Z.of_nat (totalPredictions m)))).
Proof.
  eexists. split; [reflexivity|].
  apply (proj2 metrics_zero_guard 3 [singlePrediction "number"] [gtNumber]); [discriminate|reflexivity].
Defined.

(** ** C6 *)

(** C6: neither implementation of [calculateMetrics] handles both ranked
    shapes.  The current one accepts a candidates sequence but throws a
    [TypeError] on an array-valued [types.return] (the format of the AST
    predictor), since [normalizeType] is applied to the array; the
    earlier one (part_004) scores the array-valued shape but throws on a
    candidates sequence, whose [types] is absent. *)
Theorem ranked_shapes_not_both_handled :
  (forall fuel,
     calculateMetrics fuel [arrayReturnPrediction ["string"; "number"]] [gtNumber] = None) /\
  (forall fuel,
     calculateMetrics (S fuel) [rankedPrediction ["string"; "number"]] [gtNumber] =
     Some {| accuracy := JNum 0; mrr := JNum (1 # 2); totalPredictions := 1;
             correctPredictions := 0; totalReciprocalRank := 1 # 2 |}) /\
  (forall fuel,
     EarlierVariant.calculateMetrics (S fuel) [arrayReturnPrediction ["string"; "number"]] [gtNumber] =
     Some {| accuracy := JNum 0; mrr := JNum (1 # 2); totalPredictions := 1;
             correctPredictions := 0; totalReciprocalRank := 1 # 2 |}) /\
  (forall fuel,
     EarlierVariant.calculateMetrics fuel [rankedPrediction ["string"; "number"]] [gtNumber] = None).
Proof. repeat split; intros fuel; reflexivity. Qed.

(** ** The detailed comparison *)

Section MapOfList.

Context {A : Type} (key : A -> string).

Lemma NoDup_mapOfList_gen : forall l m,
  NoDup (map fst m) -> NoDup (map fst (fold_left (fun m x => mapSet (key x) x m) l m)).
Proof.
  induction l as [|x l IH]; intros m Hm; simpl; [exact Hm|]. apply IH. apply NoDup_mapSet. exact Hm.
Qed.

Lemma NoDup_mapOfList : forall l, NoDup (map fst (mapOfList key l)).
Proof. intros l. apply NoDup_mapOfList_gen. constructor. Qed.

Lemma keys_mapOfList_gen : forall l m k,
  In k (map fst (fold_left (fun m x => mapSet (key x) x m) l m)) <->
  In k (map fst m) \/ In k (map key l).
Proof.
  induction l as [|x l IH]; intros m k; simpl; [tauto|].
  rewrite IH. rewrite In_keys_mapSet. firstorder congruence.
Qed.

Lemma keys_mapOfList : forall l k, In k (map fst (mapOfList key l)) <-> In k (map key l).
Proof. intros l k. unfold mapOfList. rewrite keys_mapOfList_gen. simpl. tauto. Qed.

End MapOfList.

Lemma mapE_Forall2 : forall {A B} (f : A -> option B) l l',
  mapE f l = Some l' -> Forall2 (fun x y => f x = Some y) l l'.
Proof.
  intros A B f l. induction l as [|x l IH]; intros l' H; simpl in H.
  - inversion H; subst. constructor.
  - destruct (f x) as [y|] eqn:Ef; [|discriminate]. simpl in H.
    destruct (mapE f l) as [ys|] eqn:El; [|discriminate]. simpl in H. inversion H; subst.
    constructor; [exact Ef|apply IH; reflexivity].
Qed.

Lemma mapE_total : forall {A B} (f : A -> option B) l,
  (forall x, In x l -> f x <> None) -> exists l', mapE f l = Some l'.
Proof.
  intros A B f l. induction l as [|x l IH]; intros H; simpl; [eexists; reflexivity|].
  destruct (f x) as [y|] eqn:Ef; [|exfalso; apply (H x); [left; reflexivity|exact Ef]].
  destruct IH as [l' ->]; [intros z Hz; apply H; right; exact Hz|]. eexists. reflexivity.
Qed.

Lemma Forall2_map_l : forall {A B C} (R : A -> B -> Prop) (g : B -> C) (h : A -> C) l l',
  (forall x y, R x y -> g y = h x) -> Forall2 R l l' -> map g l' = map h l.
Proof.
  intros A B C R g h l l' Hr H. induction H as [|x y l l' Hxy _ IH]; simpl; [reflexivity|].
  rewrite IH, (Hr x y Hxy). reflexivity.
Qed.

Lemma comparePredicted_identifier : forall fuel gm name pred r,
  comparePredicted fuel gm (name, pred) = Some r -> identifier r = name.
Proof.
  intros fuel gm name pred r H. unfold comparePredicted in H.
  destruct (mapGet name gm) as [gt|].
  - destruct (ptypes pred) as [t|]; [|discriminate]. simpl in H.
    destruct (typesMatch fuel t (gtypes gt)) as [[|]|]; simpl in H; [inversion H; reflexivity| |discriminate].
    destruct (getTypeDifference fuel t (gtypes gt)); simpl in H; [inversion H; reflexivity|discriminate].
  - inversion H. reflexivity.
Qed.

Lemma missingRecords_identifiers : forall pm (gm : JsMap GroundTruthType),
  map identifier (missingRecords pm gm) = filter (fun k => negb (mapHas k pm)) (map fst gm).
Proof.
  intros pm gm. induction gm as [|[k gt] gm IH]; simpl; [reflexivity|].
  destruct (mapHas k pm); simpl; rewrite IH; reflexivity.
Qed.

Lemma In_missingRecords : forall pm (gm : JsMap GroundTruthType) r,
  In r (missingRecords pm gm) ->
  exists gt, In (identifier r, gt) gm /\ mapHas (identifier r) pm = false /\
             status r = Missing /\ groundTruth r = Some gt /\ predicted r = None.
Proof.
  intros pm gm r. induction gm as [|[k gt] gm IH]; simpl; [intros []|].
  destruct (mapHas k pm) eqn:E; simpl.
  - intros H. destruct (IH H) as [g Hg]. exists g. intuition.
  - intros [<-|H]; simpl.
    + exists gt. intuition.
    + destruct (IH H) as [g Hg]. exists g. intuition.
Qed.

Section Sorting.

Variable cmp : string -> string -> comparison.
Hypothesis cmp_antisym : forall a b, cmp a b = CompOpp (cmp b a).

Lemma Permutation_insertBy : forall x l, Permutation (insertBy cmp x l) (x :: l).
Proof.
  intros x l. induction l as [|y l IH]; simpl; [reflexivity|].
  destruct (cmp (identifier x) (identifier y)); try reflexivity.
  rewrite IH. apply perm_swap.
Qed.

Lemma Permutation_sortByIdentifier : forall l, Permutation (sortByIdentifier cmp l) l.
Proof.
  induction l as [|x l IH]; simpl; [reflexivity|].
  rewrite Permutation_insertBy, IH. reflexivity.
Qed.

Lemma HdRel_insertBy : forall y x l, cmp (identifier y) (identifier x) <> Gt ->
  HdRel (fun r1 r2 => cmp (identifier r1) (identifier r2) <> Gt) y l ->
  HdRel (fun r1 r2 => cmp (identifier r1) (identifier r2) <> Gt) y (insertBy cmp x l).
Proof.
  intros y x [|z l] Hyx Hh; simpl; [constructor; exact Hyx|].
  inversion Hh; subst. destruct (cmp (identifier x) (identifier z)); constructor; assumption.
Qed.

Lemma Sorted_insertBy : forall x l, Sorted (fun r1 r2 => cmp (identifier r1) (identifier r2) <> Gt) l ->
  Sorted (fun r1 r2 => cmp (identifier r1) (identifier r2) <> Gt) (insertBy cmp x l).
Proof.
  intros x l H. induction H as [|y l Hl IH Hh]; simpl.
  - constructor; constructor.
  - destruct (cmp (identifier x) (identifier y)) eqn:E.
    + constructor; [constructor; assumption|constructor; cbv beta; rewrite E; discriminate].
    + constructor; [constructor; assumption|constructor; cbv beta; rewrite E; discriminate].
    + constructor; [exact IH|]. apply HdRel_insertBy; [|exact Hh].
      cbv beta. rewrite cmp_antisym, E. discriminate.
Qed.

Lemma Sorted_sortByIdentifier : forall l,
  Sorted (fun r1 r2 => cmp (identifier r1) (identifier r2) <> Gt) (sortByIdentifier cmp l).
Proof. induction l as [|x l IH]; simpl; [constructor|]. apply Sorted_insertBy. exact IH. Qed.

End Sorting.

Lemma entries_mapOfList : forall {A} (key : A -> string) l k v,
  In (k, v) (mapOfList key l) -> In v l /\ key v = k.
Proof.
  intros A key l. unfold mapOfList.
  assert (H : forall l m k v, In (k, v) (fold_left (fun m x => mapSet (key x) x m) l m) ->
                In (k, v) m \/ (In v l /\ key v = k)).
  { induction l0 as [|x l0 IH]; intros m k v Hin; simpl in *; [left; exact Hin|].
    destruct (IH _ _ _ Hin) as [Hm|[Hv Hk]]; [|right; split; [right; exact Hv|exact Hk]].
    clear IH Hin. induction m as [|[k0 v0] m IHm]; simpl in Hm.
    - destruct Hm as [Hm|[]]. inversion Hm; subst. right. split; [left|]; reflexivity.
    - destruct (String.eqb (key x) k0) eqn:E.
      + destruct Hm as [Hm|Hm].
        * inversion Hm; subst. right. split; [left|]; reflexivity.
        * left. right. exact Hm.
      + destruct Hm as [Hm|Hm]; [left; left; exact Hm|].
        destruct (IHm Hm) as [H1|H1]; [left; right; exact H1|right; exact H1]. }
  intros k v Hin. destruct (H l [] k v Hin) as [[]|Hv]. exact Hv.
Qed.

Lemma In_keys_mapHas : forall {V} k (m : JsMap V), In k (map fst m) -> mapHas k m = true.
Proof.
  intros V k m. induction m as [|[k0 v0] m IH]; simpl; [intros []|].
  unfold mapHas. simpl. destruct (String.eqb k k0) eqn:E; [reflexivity|].
  intros [->|H]; [rewrite String.eqb_refl in E; discriminate|]. apply IH. exact H.
Qed.

Lemma mapHas_false_mapGet : forall {V} k (m : JsMap V), mapHas k m = false -> mapGet k m = None.
Proof. intros V k m. unfold mapHas. destruct (mapGet k m); [discriminate|reflexivity]. Qed.

Lemma Forall2_in_right : forall {A B} (R : A -> B -> Prop) l l' y,
  Forall2 R l l' -> In y l' -> exists x, In x l /\ R x y.
Proof.
  intros A B R l l' y H. induction H as [|x y' l l' Hxy _ IH]; simpl; [intros []|].
  intros [<-|Hy]; [exists x; auto|]. destruct (IH Hy) as [x' [Hx' Hr]]. exists x'. auto.
Qed.


Lemma comparePredicted_spec : forall fuel preds gts name pred r,
  In (name, pred) (mapOfList pname preds) ->
  comparePredicted fuel (mapOfList gname gts) (name, pred) = Some r ->
  comparisonRecordSpec fuel preds gts r.
Proof.
  intros fuel preds gts name pred r Hin H.
  pose proof (comparePredicted_identifier _ _ _ _ _ H) as Hid.
  unfold comparisonRecordSpec. rewrite Hid.
  rewrite (In_mapGet _ _ _ (NoDup_mapOfList _ _) Hin).
  unfold comparePredicted in H.
  destruct (mapGet name (mapOfList gname gts)) as [gt|].
  - destruct (ptypes pred) as [t|]; [|discriminate]. simpl in H.
    destruct (typesMatch fuel t (gtypes gt)) as [[|]|] eqn:Em; simpl in H; [| |discriminate].
    + inversion H; subst. simpl. repeat split. exists t. split; [reflexivity|]. left. auto.
    + destruct (getTypeDifference fuel t (gtypes gt)) as [d|]; simpl in H; [|discriminate].
      inversion H; subst. simpl. repeat split. exists t. split; [reflexivity|].
      right. repeat split; [exact Em|]. exists d. reflexivity.
  - inversion H; subst. simpl. auto.
Qed.

Lemma generateDetailedComparison_parts : forall cmp fuel preds gts out,
  generateDetailedComparison cmp fuel preds gts = Some out ->
  exists first,
    Forall2 (fun x y => comparePredicted fuel (mapOfList gname gts) x = Some y)
            (mapOfList pname preds) first /\
    out = sortByIdentifier cmp (first ++ missingRecords (mapOfList pname preds) (mapOfList gname gts)).
Proof.
  intros cmp fuel preds gts out H. unfold generateDetailedComparison in H.
  destruct (mapE _ _) as [first|] eqn:E; [|discriminate]. simpl in H. inversion H; subst.
  exists first. split; [apply mapE_Forall2; exact E|reflexivity].
Qed.


Lemma compatRet_total : forall fuel p g,
  retNotArray p -> retNotArray g -> retTruthy p && retTruthy g = true ->
  exists b, compatRet fuel p g = Some b.
Proof.
  intros fuel [|a|l] [|b|l'] Hp Hg H; simpl in *; try discriminate;
    try (exfalso; eapply Hp; reflexivity); try (exfalso; eapply Hg; reflexivity).
  - rewrite andb_false_r in H. discriminate.
  - eexists. reflexivity.
Qed.

Lemma typesMatch_total : forall fuel t g,
  retNotArray (ret t) -> retNotArray (ret g) -> exists b, typesMatch fuel t g = Some b.
Proof.
  intros fuel t g Ht Hg. unfold typesMatch.
  destruct (retTruthy (ret t) && retTruthy (ret g)) eqn:E.
  - destruct (compatRet_total fuel _ _ Ht Hg E) as [[|] ->].
    + destruct (params t), (params g); eexists; reflexivity.
    + eexists; reflexivity.
  - destruct (params t), (params g); eexists; reflexivity.
Qed.

Lemma getTypeDifference_total : forall fuel t g,
  retNotArray (ret t) -> retNotArray (ret g) -> exists d, getTypeDifference fuel t g = Some d.
Proof.
  intros fuel t g Ht Hg. unfold getTypeDifference.
  destruct (retTruthy (ret t) && retTruthy (ret g)) eqn:E.
  - destruct (compatRet_total fuel _ _ Ht Hg E) as [[|] ->]; eexists; reflexivity.
  - eexists; reflexivity.
Qed.

Lemma comparePredicted_total : forall fuel gts name pred,
  (exists t, ptypes pred = Some t /\ retNotArray (ret t)) ->
  (forall g, In g gts -> retNotArray (ret (gtypes g))) ->
  comparePredicted fuel (mapOfList gname gts) (name, pred) <> None.
Proof.
  intros fuel gts name pred [t [Ht Hr]] Hg. unfold comparePredicted.
  destruct (mapGet name (mapOfList gname gts)) as [gt|] eqn:Eg; [|discriminate].
  assert (Hgt : retNotArray (ret (gtypes gt))).
  { apply Hg. apply (entries_mapOfList gname gts name). apply mapGet_In. exact Eg. }
  rewrite Ht. simpl.
  destruct (typesMatch_total fuel t (gtypes gt) Hr Hgt) as [[|] ->]; simpl; [discriminate|].
  destruct (getTypeDifference_total fuel t (gtypes gt) Hr Hgt) as [d ->]. discriminate.
Qed.

(** Claim C9: for any [localeCompare] order (antisymmetric), when
    [generateDetailedComparison] returns, its output is sorted by
    [identifier], lists each identifier once, lists exactly the
    predicted and ground-truth names, and each record is [Correct]
    ([typesMatch] true) or [Incorrect] (with details) for a name in
    both inputs, [Extra] for a predicted-only name and [Missing] for a
    ground-truth-only name. It returns whenever no [types.return] is an
    array, every prediction has [types], and no ground-truth parameter
    is named after a property of [Object.prototype] (for such a name
    missing from the prediction, [predParams[name]] is the inherited
    function and [normalizeType] throws on it). *)
Theorem detailed_comparison_contract :
  forall (cmp : string -> string -> comparison),
  (forall a b, cmp a b = CompOpp (cmp b a)) ->
  forall fuel preds gts,
  (forall out, generateDetailedComparison cmp fuel preds gts = Some out ->
     Sorted (fun r1 r2 => cmp (identifier r1) (identifier r2) <> Gt) out /\
     NoDup (map identifier out) /\
     (forall name, In name (map identifier out) <-> In name (map pname preds) \/ In name (map gname gts)) /\
     (forall r, In r out -> comparisonRecordSpec fuel preds gts r)) /\
  ((forall p, In p preds -> exists t, ptypes p = Some t /\ retNotArray (ret t)) ->
   (forall g, In g gts -> retNotArray (ret (gtypes g))) ->
   gtParamsNoProto gts ->
   exists out, generateDetailedComparison cmp fuel preds gts = Some out).
Proof.
  intros cmp Hanti fuel preds gts. split.
  - intros out H.
    destruct (generateDetailedComparison_parts _ _ _ _ _ H) as [first [Hf ->]].
    set (pm := mapOfList pname preds) in *. set (gm := mapOfList gname gts) in *.
    pose proof (Permutation_sortByIdentifier cmp (first ++ missingRecords pm gm)) as Hp.
    assert (Hids : map identifier (first ++ missingRecords pm gm)
                   = (map fst pm ++ filter (fun k => negb (mapHas k pm)) (map fst gm))%list).
    { rewrite map_app, missingRecords_identifiers. f_equal.
      eapply Forall2_map_l; [|exact Hf].
      intros [name pred] y Hy. exact (comparePredicted_identifier _ _ _ _ _ Hy). }
    split; [|split; [|split]].
    + apply Sorted_sortByIdentifier. exact Hanti.
    + apply (Permutation_NoDup (Permutation_sym (Permutation_map identifier Hp))).
      rewrite Hids. apply NoDup_app.
      * apply NoDup_mapOfList.
      * apply NoDup_filter. apply NoDup_mapOfList.
      * intros k Hk Hk'. apply filter_In in Hk'. destruct Hk' as [_ Hk'].
        rewrite (In_keys_mapHas k pm Hk) in Hk'. discriminate.
    + intros name.
      assert (Hpi : In name (map identifier (sortByIdentifier cmp (first ++ missingRecords pm gm)))
                    <-> In name (map identifier (first ++ missingRecords pm gm))).
      { pose proof (Permutation_map identifier Hp) as Hpm.
        split; apply Permutation_in; [exact Hpm|apply Permutation_sym; exact Hpm]. }
      rewrite Hpi, Hids, in_app_iff, filter_In.
      unfold pm, gm. rewrite !keys_mapOfList.
      split; [intros [H1|[H1 _]]; auto|].
      intros [H1|H1]; [left; exact H1|].
      destruct (mapHas name (mapOfList pname preds)) eqn:E.
      * left. unfold mapHas in E. destruct (mapGet name (mapOfList pname preds)) as [p|] eqn:Eg;
          [|discriminate].
        apply mapGet_In in Eg. apply entries_mapOfList in Eg. destruct Eg as [Hin <-].
        apply in_map. exact Hin.
      * right. split; [exact H1|reflexivity].
    + intros r Hr. apply (Permutation_in _ Hp) in Hr. apply in_app_iff in Hr. destruct Hr as [Hr|Hr].
      * destruct (Forall2_in_right _ _ _ _ Hf Hr) as [[name pred] [Hin Hc]].
        exact (comparePredicted_spec _ _ _ _ _ _ Hin Hc).
      * destruct (In_missingRecords _ _ _ Hr) as [gt [Hin [Hhas [Hs [Hg Hpn]]]]].
        unfold comparisonRecordSpec. unfold pm, gm in *.
        rewrite (mapHas_false_mapGet _ _ Hhas), (In_mapGet _ _ _ (NoDup_mapOfList _ _) Hin).
        auto.
  - intros Hp Hg _. unfold generateDetailedComparison.
    destruct (mapE_total (comparePredicted fuel (mapOfList gname gts)) (mapOfList pname preds))
      as [first ->].
    + intros [name pred] Hin. apply comparePredicted_total; [|exact Hg].
      apply Hp. apply (entries_mapOfList pname preds name). exact Hin.
    + eexists. reflexivity.
Qed.

(** Witness of [detailed_comparison_contract] with the code-unit order
    of [String.compare]: one incorrect and one missing record. *)
Lemma detailed_comparison_contract_witness :
  (forall a b, String.compare a b = CompOpp (String.compare b a)) /\
  exists out,
    generateDetailedComparison String.compare 3 [singlePrediction "string"]
      [gtNumber; {| gname := "h"; gtypes := typesRet "number" |}] = Some out /\
    Sorted (fun r1 r2 => String.compare (identifier r1) (identifier r2) <> Gt) out /\
    NoDup (map identifier out) /\
    map identifier out = ["f"; "h"] /\ map status out = [Incorrect; Missing].
Proof.
  split; [exact String.compare_antisym|].
  destruct (detailed_comparison_contract String.compare String.compare_antisym 3
              [singlePrediction "string"]
              [gtNumber; {| gname := "h"; gtypes := typesRet "number" |}]) as [Hc Ht].
  destruct Ht as [out Hout].
  - intros p [<-|[]]. exists (typesRet "string"). split; [reflexivity|intros l; discriminate].
  - intros g [<-|[<-|[]]]; intros l; discriminate.
  - intros g pp [<-|[<-|[]]]; discriminate.
  - exists out. destruct (Hc out Hout) as [Hs [Hn _]].
    split; [exact Hout|split; [exact Hs|split; [exact Hn|]]].
    vm_compute in Hout. injection Hout as <-. split; reflexivity.
Defined.

Lemma NoDup_map_inj_in : forall {A B} (f : A -> B) l a b,
  NoDup (map f l) -> In a l -> In b l -> f a = f b -> a = b.
Proof.
  intros A B f l. induction l as [|x l IH]; intros a b Hd Ha Hb Hab; [destruct Ha|].
  simpl in Hd. inversion Hd as [|y ys Hnot Hd' Heq]; subst.
  destruct Ha as [<-|Ha], Hb as [<-|Hb]; try reflexivity.
  - exfalso. apply Hnot. rewrite Hab. apply in_map. exact Hb.
  - exfalso. apply Hnot. rewrite <- Hab. apply in_map. exact Ha.
  - apply IH; assumption.
Qed.

Lemma mapGet_mapOfList_unique : forall {A} (key : A -> string) l x,
  NoDup (map key l) -> In x l -> mapGet (key x) (mapOfList key l) = Some x.
Proof.
  intros A key l x Hd Hx.
  assert (Hk : In (key x) (map fst (mapOfList key l))).
  { apply keys_mapOfList. apply in_map. exact Hx. }
  apply In_keys_mapHas in Hk. unfold mapHas in Hk.
  destruct (mapGet (key x) (mapOfList key l)) as [v|] eqn:E; [|discriminate].
  apply mapGet_In, entries_mapOfList in E. destruct E as [Hv Hkv].
  f_equal. exact (NoDup_map_inj_in key l v x Hd Hv Hx Hkv).
Qed.

Lemma Forall2_in_left : forall {A B} (R : A -> B -> Prop) l l' x,
  Forall2 R l l' -> In x l -> exists y, In y l' /\ R x y.
Proof.
  intros A B R l l' x H. induction H as [|x' y l l' Hxy _ IH]; simpl; [intros []|].
  intros [<-|Hx]; [exists y; auto|]. destruct (IH Hx) as [y' [Hy' Hr]]. exists y'. auto.
Qed.

(** Claim C10: a predicted [types] whose [return] is falsy (absent or
    [""]) and which has no [params] matches every ground-truth shape;
    as a single prediction whose name is in the ground truth it adds
    one correct prediction and a reciprocal rank of 1, and
    [generateDetailedComparison] reports it [Correct] (predicted names
    distinct). *)
Theorem falsy_types_match_vacuously : forall fuel t,
  (ret t = RUndef \/ ret t = RStr "") -> params t = None ->
  (forall g, typesMatch fuel t g = Some true) /\
  (forall gm c trr pred gt,
     mapGet (pname pred) gm = Some gt -> candidates pred = None -> ptypes pred = Some t ->
     processPrediction fuel gm (c, trr) pred = Some (S c, (trr + 1)%Q)) /\
  (forall cmp preds gts pred out,
     NoDup (map pname preds) -> In pred preds -> ptypes pred = Some t ->
     In (pname pred) (map gname gts) ->
     generateDetailedComparison cmp fuel preds gts = Some out ->
     exists r, In r out /\ identifier r = pname pred /\ status r = Correct /\
               predicted r = Some pred).
Proof.
  intros fuel t Hr Hp.
  assert (Hm : forall g, typesMatch fuel t g = Some true).
  { intros g. unfold typesMatch. rewrite Hp.
    destruct Hr as [-> | ->]; simpl; destruct (params g); reflexivity. }
  split; [exact Hm|split].
  - intros gm c trr pred gt Hg Hc Ht. unfold processPrediction.
    rewrite Hg, Hc, Ht. simpl. rewrite Hm. reflexivity.
  - intros cmp preds gts pred out Hd Hin Ht Hn H.
    destruct (generateDetailedComparison_parts _ _ _ _ _ H) as [first [Hf ->]].
    pose proof (mapGet_mapOfList_unique pname preds pred Hd Hin) as Hget.
    apply mapGet_In in Hget.
    destruct (Forall2_in_left _ _ _ _ Hf Hget) as [r [Hr' Hc]].
    apply keys_mapOfList, In_keys_mapHas in Hn. unfold mapHas in Hn.
    unfold comparePredicted in Hc.
    destruct (mapGet (pname pred) (mapOfList gname gts)) as [gt|]; [|simpl in Hn; discriminate].
    rewrite Ht in Hc. simpl in Hc. rewrite Hm in Hc. simpl in Hc. injection Hc as <-.
    eexists. split.
    + apply (Permutation_in _ (Permutation_sym (Permutation_sortByIdentifier cmp _))).
      apply in_app_iff. left. exact Hr'.
    + split; [reflexivity|split; reflexivity].
Qed.

(** Witness of [falsy_types_match_vacuously]: an absent return against
    an array return with parameters, and an empty-string return. *)
Lemma falsy_types_match_vacuously_witness :
  typesMatch 3 {| ret := RUndef; params := None |} {| ret := RArr ["number"]; params := Some [("x", "string")] |}
    = Some true /\
  processPrediction 3 (mapOfList gname [gtNumber]) (0, 0%Q)
    {| pname := "f"; ptypes := Some {| ret := RStr ""; params := None |}; candidates := None |}
    = Some (1, (0 + 1)%Q) /\
  exists r, In r (sortByIdentifier String.compare
                    [{| identifier := "f"; groundTruth := Some gtNumber;
                        predicted := Some {| pname := "f"; ptypes := Some {| ret := RUndef; params := None |};
                                             candidates := None |};
                        status := Correct; details := None |}]) /\
            identifier r = "f" /\ status r = Correct.
Proof.
  split; [apply (proj1 (falsy_types_match_vacuously 3 {| ret := RUndef; params := None |}
                           (or_introl eq_refl) eq_refl))|].
  split.
  - apply (proj1 (proj2 (falsy_types_match_vacuously 3 {| ret := RStr ""; params := None |}
                            (or_intror eq_refl) eq_refl)) _ _ _ _ gtNumber); reflexivity.
  - destruct (falsy_types_match_vacuously 3 {| ret := RUndef; params := None |}
                (or_introl eq_refl) eq_refl) as [_ [_ H3]].
    destruct (H3 String.compare
                [{| pname := "f"; ptypes := Some {| ret := RUndef; params := None |}; candidates := None |}]
                [gtNumber]
                {| pname := "f"; ptypes := Some {| ret := RUndef; params := None |}; candidates := None |}
                (sortByIdentifier String.compare
                    [{| identifier := "f"; groundTruth := Some gtNumber;
                        predicted := Some {| pname := "f"; ptypes := Some {| ret := RUndef; params := None |};
                                             candidates := None |};
                        status := Correct; details := None |}]))
      as [r [Hin [Hid [Hs _]]]].
    + repeat constructor. intros [].
    + left. reflexivity.
    + reflexivity.
    + left. reflexivity.
    + vm_compute. reflexivity.
    + exists r. auto.
Defined.

(** ** Re-normalization *)

Lemma scan_id : forall (m : matcher) (Pr : string -> Prop),
  (forall c s, Pr (String c s) -> Pr s) -> (forall s, Pr s -> m s = None) ->
  forall k s, Pr s -> scan m k s = s.
Proof.
  intros m Pr Htail Hm; induction k as [|k IH]; intros s H; simpl; [reflexivity|].
  destruct s as [|c s']; [reflexivity|]. rewrite (Hm _ H). rewrite (IH s' (Htail _ _ H)). reflexivity.
Qed.

Lemma allChars_tail : forall P c s, allChars P (String c s) = true -> allChars P s = true.
Proof. intros P c s H. simpl in H. apply andb_prop in H. tauto. Qed.

Lemma allChars_impl : forall (P Q : ascii -> bool), (forall c, P c = true -> Q c = true) ->
  forall s, allChars P s = true -> allChars Q s = true.
Proof.
  intros P Q H; induction s as [|c s IH]; simpl; [reflexivity|].
  intros Hs. apply andb_prop in Hs as [Hc Hs]. rewrite (H c Hc). simpl. auto.
Qed.

Lemma allChars_prefix : forall P p s, prefix p s = true -> allChars P s = true -> allChars P p = true.
Proof.
  intros P; induction p as [|a p IH]; intros [|b s] Hp Hs; simpl in *; try discriminate; try reflexivity.
  destruct (ascii_dec a b); [subst|discriminate]. apply andb_prop in Hs as [Hb Hs].
  rewrite Hb. simpl. eauto.
Qed.

Lemma genericMatcher_plain : forall kw f s,
  allChars plainChar s = true -> genericMatcher kw f s = None.
Proof.
  intros kw f s Hs. unfold genericMatcher.
  destruct (prefix (kw ++ "<") s) eqn:E; [|reflexivity].
  pose proof (allChars_prefix _ _ _ E Hs) as H. rewrite allChars_app in H. simpl in H.
  rewrite andb_false_r in H. discriminate.
Qed.

Lemma litMatcher_plain : forall rep s,
  allChars plainChar s = true -> litMatcher "{}" rep s = None.
Proof.
  intros rep s Hs. unfold litMatcher.
  destruct (prefix "{}" s) eqn:E; [|reflexivity].
  pose proof (allChars_prefix _ _ _ E Hs) as H. discriminate.
Qed.

Lemma objectMatcher_plain : forall s, allChars plainChar s = true -> objectMatcher s = None.
Proof.
  intros [|c s] Hs; [reflexivity|]. simpl in *. unfold plainChar in Hs.
  destruct (Ascii.eqb c "{") eqn:E; [|reflexivity]. apply Ascii.eqb_eq in E. subst. discriminate.
Qed.

Lemma prefix_pair : forall s, prefix "[]" s = true -> exists r, s = String "[" (String "]" r).
Proof.
  intros s H. apply prefix_correct in H.
  destruct s as [|c [|d r]]; simpl in H; inversion H; subst. exists r. reflexivity.
Qed.

Lemma litMatcher_noPair : forall rep s, noPair s = true -> litMatcher "[]" rep s = None.
Proof.
  intros rep s Hs. unfold litMatcher.
  destruct (prefix "[]" s) eqn:E; [|reflexivity].
  destruct (prefix_pair _ E) as [r ->]. discriminate.
Qed.

Lemma noPair_tail : forall c s, noPair (String c s) = true -> noPair s = true.
Proof. intros c s H. simpl in H. apply andb_prop in H. tauto. Qed.

Lemma length_drop : forall n s, String.length (drop n s) <= String.length s.
Proof. induction n as [|n IH]; intros [|c s]; simpl; try lia. specialize (IH s). lia. Qed.

Lemma litMatcher_pair_out : forall s out rest,
  litMatcher "[]" "array" s = Some (out, rest) -> out = "array" /\ rest = drop 2 s.
Proof.
  intros s out rest E. unfold litMatcher in E. destruct (prefix "[]" s); [|discriminate].
  inversion E. auto.
Qed.

Lemma headIs_scan_pair : forall k s,
  headIs "]" (scan (litMatcher "[]" "array") k s) = true -> headIs "]" s = true.
Proof.
  intros [|k] s H; [exact H|]. destruct s as [|c s']; [exact H|]. simpl in H.
  destruct (litMatcher "[]" "array" (String c s')) as [[out rest]|] eqn:E.
  - apply litMatcher_pair_out in E as [-> _]. discriminate.
  - exact H.
Qed.

(** After [replace(/\[\]/g, 'array')] no [[]] is left. *)
Lemma noPair_scan_pair : forall k s, String.length s <= k ->
  noPair (scan (litMatcher "[]" "array") k s) = true.
Proof.
  induction k as [|k IH]; intros s Hl.
  - destruct s; [reflexivity|simpl in Hl; lia].
  - destruct s as [|c s']; [reflexivity|]. simpl.
    destruct (litMatcher "[]" "array" (String c s')) as [[out rest]|] eqn:E.
    + apply litMatcher_pair_out in E as [-> ->]. simpl. apply IH.
      destruct s' as [|d s'']; simpl in *; [lia|]. pose proof (length_drop 0 s''). lia.
    + simpl in Hl. cbn [noPair]. rewrite (IH s') by lia. rewrite andb_true_r.
      destruct (Ascii.eqb c "[") eqn:Ec; [|reflexivity]. simpl.
      destruct (headIs "]" (scan (litMatcher "[]" "array") k s')) eqn:Eh; [|reflexivity].
      apply headIs_scan_pair in Eh. apply Ascii.eqb_eq in Ec. subst.
      destruct s' as [|d r]; simpl in Eh; [discriminate|]. apply Ascii.eqb_eq in Eh. subst.
      destruct r; vm_compute in E; discriminate.
Qed.

Lemma separatorChar_idem : forall c, separatorChar (separatorChar c) = separatorChar c.
Proof.
  intros c. unfold separatorChar.
  destruct (Ascii.eqb c ";" || Ascii.eqb c ",") eqn:E; [reflexivity|]. rewrite E. reflexivity.
Qed.

Lemma mapChars_separator_idem : forall s,
  mapChars separatorChar (mapChars separatorChar s) = mapChars separatorChar s.
Proof. induction s as [|c s IH]; simpl; [reflexivity|]. rewrite separatorChar_idem, IH. reflexivity. Qed.

Lemma separatorChar_cases : forall c, separatorChar c = c \/ separatorChar c = ","%char.
Proof. intros c. unfold separatorChar. destruct (_ || _); auto. Qed.

Lemma separatorChar_eqb_bracket : forall d c, Ascii.eqb d "," = false -> Ascii.eqb d ";" = false ->
  Ascii.eqb (separatorChar c) d = Ascii.eqb c d.
Proof.
  intros d c H1 H2. rewrite Ascii.eqb_sym in H1, H2. unfold separatorChar.
  destruct (Ascii.eqb c ";" || Ascii.eqb c ",") eqn:E; [|reflexivity].
  apply orb_true_iff in E as [E|E]; apply Ascii.eqb_eq in E; subst; rewrite ?H1, ?H2; reflexivity.
Qed.

Lemma noPair_mapChars_separator : forall s, noPair (mapChars separatorChar s) = noPair s.
Proof.
  induction s as [|c s IH]; simpl; [reflexivity|]. rewrite IH.
  rewrite (separatorChar_eqb_bracket "[") by reflexivity.
  destruct s as [|d s']; simpl; [reflexivity|].
  rewrite (separatorChar_eqb_bracket "]") by reflexivity. reflexivity.
Qed.

Lemma isUpper_lowerChar : forall c, isUpper (lowerChar c) = false.
Proof. intros [b0 b1 b2 b3 b4 b5 b6 b7]. destruct b0, b1, b2, b3, b4, b5, b6, b7; reflexivity. Qed.

Lemma lowerChar_id : forall c, isUpper c = false -> lowerChar c = c.
Proof. intros c H. unfold lowerChar. rewrite H. reflexivity. Qed.

Lemma toLowerCase_id : forall s, allChars (fun c => negb (isUpper c)) s = true -> toLowerCase s = s.
Proof.
  induction s as [|c s IH]; simpl; [reflexivity|]. intros H. apply andb_prop in H as [Hc H].
  rewrite lowerChar_id by (destruct (isUpper c); [discriminate|reflexivity]). rewrite IH; auto.
Qed.

Lemma removeSpaces_id : forall s, allChars (fun c => negb (isSpace c)) s = true -> removeSpaces s = s.
Proof.
  induction s as [|c s IH]; simpl; [reflexivity|]. intros H. apply andb_prop in H as [Hc H].
  destruct (isSpace c); [discriminate|]. rewrite IH; auto.
Qed.

Lemma removeSpaces_noSpace : forall P s, allChars P s = true ->
  allChars (fun c => P c && negb (isSpace c)) (removeSpaces s) = true.
Proof.
  intros P; induction s as [|c s IH]; simpl; [reflexivity|]. intros H. apply andb_prop in H as [Hc H].
  destruct (isSpace c) eqn:E; simpl; [auto|]. rewrite Hc, E. simpl. auto.
Qed.


Lemma allChars_mapChars_to : forall (P Q : ascii -> bool) f,
  (forall c, P c = true -> Q (f c) = true) ->
  forall s, allChars P s = true -> allChars Q (mapChars f s) = true.
Proof.
  intros P Q f H; induction s as [|c s IH]; simpl; [reflexivity|].
  intros Hs. apply andb_prop in Hs as [Hc Hs]. rewrite (H c Hc). simpl. auto.
Qed.

Lemma plainChar_lowerChar : forall c, plainChar (lowerChar c) = plainChar c.
Proof.
  intros c. unfold plainChar.
  rewrite (Ascii.eqb_sym (lowerChar c)), (Ascii.eqb_sym (lowerChar c) "{").
  rewrite !lowerChar_eqb by reflexivity. rewrite (Ascii.eqb_sym "<"), (Ascii.eqb_sym "{"). reflexivity.
Qed.

Lemma normChar_separatorChar : forall c, normChar c = true -> normChar (separatorChar c) = true.
Proof. intros c H. destruct (separatorChar_cases c) as [-> | ->]; [exact H|reflexivity]. Qed.

Lemma normChar_plain : forall s, allChars normChar s = true -> allChars plainChar s = true.
Proof.
  apply allChars_impl. intros c H. unfold normChar in H.
  apply andb_prop in H as [H _]. apply andb_prop in H as [H _]. exact H.
Qed.

Lemma normChar_noUpper : forall s, allChars normChar s = true ->
  allChars (fun c => negb (isUpper c)) s = true.
Proof.
  apply allChars_impl. intros c H. unfold normChar in H.
  apply andb_prop in H as [H _]. apply andb_prop in H as [_ H]. exact H.
Qed.

Lemma normChar_noSpace : forall s, allChars normChar s = true ->
  allChars (fun c => negb (isSpace c)) s = true.
Proof.
  apply allChars_impl. intros c H. unfold normChar in H. apply andb_prop in H as [_ H]. exact H.
Qed.

(** On a plain type string, [normalizeType] lowercases, removes spaces,
    replaces [[]] and maps [;] to [,]; the other steps find no match. *)
Lemma normalizeType_plain : forall t, allChars plainChar t = true ->
  let s3 := replaceAll (litMatcher "[]" "array") (removeSpaces (toLowerCase t)) in
  allChars normChar s3 = true /\ noPair s3 = true /\
  normalizeType t = mapChars separatorChar s3.
Proof.
  intros t Ht s3.
  assert (H2 : allChars normChar (removeSpaces (toLowerCase t)) = true).
  { apply (allChars_impl (fun c => (plainChar c && negb (isUpper c)) && negb (isSpace c)));
      [intros c Hc; exact Hc|].
    apply removeSpaces_noSpace. rewrite toLowerCase_mapChars.
    apply (allChars_mapChars_to plainChar); [|exact Ht].
    intros c Hc. rewrite plainChar_lowerChar, Hc, isUpper_lowerChar. reflexivity. }
  assert (H3 : allChars normChar s3 = true).
  { unfold s3, replaceAll. apply allChars_scan; [|exact H2].
    intros s out rest E Hs. apply litMatcher_pair_out in E as [-> ->].
    split; [reflexivity|apply allChars_drop; exact Hs]. }
  assert (Hp3 : allChars plainChar s3 = true) by (apply normChar_plain; exact H3).
  split; [exact H3|split].
  - unfold s3, replaceAll. apply noPair_scan_pair. reflexivity.
  - unfold normalizeType. cbv zeta. fold (replaceAll (litMatcher "[]" "array") (removeSpaces (toLowerCase t))).
    fold s3. unfold replaceAll.
    rewrite (scan_id (genericMatcher "array" (fun g => g ++ "array")) (fun s => allChars plainChar s = true)
               (allChars_tail plainChar) (genericMatcher_plain _ _) _ s3 Hp3).
    rewrite (scan_id (litMatcher "{}" "object") (fun s => allChars plainChar s = true)
               (allChars_tail plainChar) (litMatcher_plain _) _ s3 Hp3).
    rewrite (scan_id (genericMatcher "promise" (fun _ => "promise")) (fun s => allChars plainChar s = true)
               (allChars_tail plainChar) (genericMatcher_plain _ _) _ s3 Hp3).
    apply (scan_id objectMatcher (fun s => allChars plainChar s = true)
             (allChars_tail plainChar) objectMatcher_plain).
    apply normChar_plain. apply (allChars_mapChars_to normChar); [|exact H3].
    exact normChar_separatorChar.
Qed.

(** Counterexample to claim C8: a nested generic and an object literal
    with no member change when normalized a second time, and the union
    member re-normalized inside the recursive call of
    [isStructurallyCompatible] then no longer equals the normalized
    predicted type, so a predicted type listed verbatim in a
    ground-truth union is rejected. *)
Lemma normalizeType_not_idempotent :
  normalizeType "Array<Array<number>>" = "array<numberarray>" /\
  normalizeType "array<numberarray>" = "numberarrayarray" /\
  normalizeType "{;}" = "{}" /\
  normalizeType "{}" = "object" /\
  (forall k, isStructurallyCompatible k "Array<Array<number>>" "Array<Array<number>> | null" = false).
Proof. repeat split; [reflexivity..|]. intros [|[|k]]; reflexivity. Qed.

(** Claim C8, amended: [normalizeType] is idempotent on every type
    string in which neither [<] nor [{] occurs (no generic argument list
    and no object literal). *)
Theorem normalizeType_idempotent_plain : forall t,
  allChars plainChar t = true -> normalizeType (normalizeType t) = normalizeType t.
Proof.
  intros t Ht. destruct (normalizeType_plain t Ht) as [H3 [Hn3 ->]].
  set (s3 := replaceAll (litMatcher "[]" "array") (removeSpaces (toLowerCase t))) in *.
  set (n := mapChars separatorChar s3).
  assert (Hn : allChars normChar n = true).
  { apply (allChars_mapChars_to normChar); [exact normChar_separatorChar|exact H3]. }
  assert (Hpn : allChars plainChar n = true) by (apply normChar_plain; exact Hn).
  unfold normalizeType. cbv zeta.
  rewrite (toLowerCase_id n) by (apply normChar_noUpper; exact Hn).
  rewrite (removeSpaces_id n) by (apply normChar_noSpace; exact Hn).
  unfold replaceAll.
  rewrite (scan_id (litMatcher "[]" "array") (fun s => noPair s = true) noPair_tail
             (litMatcher_noPair _) _ n) by (unfold n; rewrite noPair_mapChars_separator; exact Hn3).
  rewrite (scan_id (genericMatcher "array" (fun g => g ++ "array")) (fun s => allChars plainChar s = true)
             (allChars_tail plainChar) (genericMatcher_plain _ _) _ n Hpn).
  rewrite (scan_id (litMatcher "{}" "object") (fun s => allChars plainChar s = true)
             (allChars_tail plainChar) (litMatcher_plain _) _ n Hpn).
  rewrite (scan_id (genericMatcher "promise" (fun _ => "promise")) (fun s => allChars plainChar s = true)
             (allChars_tail plainChar) (genericMatcher_plain _ _) _ n Hpn).
  unfold n. rewrite mapChars_separator_idem. fold n.
  apply (scan_id objectMatcher (fun s => allChars plainChar s = true)
           (allChars_tail plainChar) objectMatcher_plain). exact Hpn.
Qed.

(** Witness of [normalizeType_idempotent_plain] on a union with an
    array suffix and a [;] separator. *)
Lemma normalizeType_idempotent_plain_witness :
  allChars plainChar "String[] | Number; Boolean" = true /\
  normalizeType (normalizeType "String[] | Number; Boolean") = normalizeType "String[] | Number; Boolean" /\
  normalizeType "String[] | Number; Boolean" = "stringarray|number,boolean".
Proof.
  split; [reflexivity|split; [|reflexivity]].
  apply normalizeType_idempotent_plain. reflexivity.
Defined.

(* ------------------------------------------------------------------ *)
(** ** Further properties of [calculateMetrics] *)

Lemma processPrediction_contribution : forall fuel gm c t p,
  match processPrediction fuel gm (c, t) p, predContribution fuel gm p with
  | Some (c', t'), Some (dc, dt) => c' = c + dc /\ (t' == t + dt)%Q
  | None, None => True
  | _, _ => False
  end.
Proof.
  intros fuel gm c t p. unfold processPrediction, predContribution.
  destruct (mapGet (pname p) gm) as [gt|]; [|split; [lia|symmetry; apply Qplus_0_r]].
  destruct (candidates p) as [cands|].
  - destruct (findRank fuel cands (gtypes gt)) as [[r|]|]; simpl; [|split; [lia|symmetry; apply Qplus_0_r]|exact I].
    split; [destruct (Nat.eqb r 1); lia|reflexivity].
  - destruct (ptypes p) as [ty|]; simpl; [|exact I].
    destruct (typesMatch fuel ty (gtypes gt)) as [[|]|]; simpl;
      [split; [lia|reflexivity]|split; [lia|symmetry; apply Qplus_0_r]|exact I].
Qed.

Lemma processAll_sum : forall fuel gm l c t,
  match processAll fuel gm (c, t) l, mapE (predContribution fuel gm) l with
  | Some (c', t'), Some ds => c' = c + sumNat (map fst ds) /\ (t' == t + sumQ (map snd ds))%Q
  | None, None => True
  | _, _ => False
  end.
Proof.
  intros fuel gm l. induction l as [|p l IH]; intros c t; cbn [processAll mapE].
  - simpl. split; [lia|symmetry; apply Qplus_0_r].
  - pose proof (processPrediction_contribution fuel gm c t p) as Hp.
    destruct (processPrediction fuel gm (c, t) p) as [[c1 t1]|];
      destruct (predContribution fuel gm p) as [[dc dt]|]; try contradiction; unfold bindE at 1 3.
    + destruct Hp as [Hc Ht]. specialize (IH c1 t1).
      destruct (processAll fuel gm (c1, t1) l) as [[c' t']|];
        destruct (mapE (predContribution fuel gm) l) as [ds|]; try contradiction; simpl; [|exact I].
      destruct IH as [Hc' Ht']. split; [simpl; lia|].
      simpl. rewrite Ht', Ht. ring.
    + destruct (mapE (predContribution fuel gm) l); exact I.
Qed.

Lemma mapE_Permutation : forall {A B} (f : A -> option B) l l',
  Permutation l l' ->
  match mapE f l, mapE f l' with
  | Some ds, Some ds' => Permutation ds ds'
  | None, None => True
  | _, _ => False
  end.
Proof.
  intros A B f l l' H. induction H as [|x l l' H IH|x y l|l l' l'' H1 IH1 H2 IH2]; simpl.
  - constructor.
  - destruct (f x) as [y|]; simpl; [|exact I].
    destruct (mapE f l), (mapE f l'); simpl; try contradiction; [|exact I].
    apply perm_skip. exact IH.
  - destruct (f y) as [b|], (f x) as [a|]; simpl; try exact I.
    destruct (mapE f l); simpl; [apply perm_swap|exact I].
  - destruct (mapE f l), (mapE f l'), (mapE f l''); try contradiction; try exact I.
    eapply perm_trans; eassumption.
Qed.

Lemma sumNat_Permutation : forall l l', Permutation l l' -> sumNat l = sumNat l'.
Proof. intros l l' H. induction H; simpl; lia. Qed.

Lemma sumQ_Permutation : forall l l', Permutation l l' -> (sumQ l == sumQ l')%Q.
Proof.
  intros l l' H. induction H as [| x l l' _ IH | x y l | l l' l'' _ IH1 _ IH2]; simpl.
  - reflexivity.
  - rewrite IH. reflexivity.
  - ring.
  - rewrite IH1. exact IH2.
Qed.

Lemma sumQ_app : forall l l', (sumQ (l ++ l')%list == sumQ l + sumQ l')%Q.
Proof. induction l as [|x l IH]; intros l'; simpl; [ring|]. rewrite IH. ring. Qed.

Lemma sumNat_app : forall l l', sumNat (l ++ l')%list = sumNat l + sumNat l'.
Proof. induction l as [|x l IH]; intros l'; simpl; [reflexivity|]. rewrite IH. lia. Qed.

Lemma mapE_app : forall {A B} (f : A -> option B) l l',
  mapE f (l ++ l') = (ds <- mapE f l ;; ds' <- mapE f l' ;; Some (ds ++ ds')%list).
Proof.
  intros A B f l l'. induction l as [|x l IH]; simpl.
  - destruct (mapE f l'); reflexivity.
  - destruct (f x); simpl; [|reflexivity]. rewrite IH.
    destruct (mapE f l); simpl; [|reflexivity]. destruct (mapE f l'); reflexivity.
Qed.

Lemma findRank_pos : forall fuel cands gt r, findRank fuel cands gt = Some (Some r) -> 1 <= r.
Proof.
  intros fuel cands gt. induction cands as [|c cs IH]; intros r H; simpl in H; [discriminate|].
  destruct (typesMatch fuel c gt) as [[|]|]; simpl in H; [inversion H; lia| |discriminate].
  destruct (findRank fuel cs gt) as [[r'|]|]; simpl in H; inversion H; subst. lia.
Qed.

(** Each contribution [(dc, dt)] has [dc <= dt <= 1] and [0 <= dt]. *)
Lemma predContribution_bounds : forall fuel gm p dc dt,
  predContribution fuel gm p = Some (dc, dt) ->
  (inject_Z (Z.of_nat dc) <= dt)%Q /\ (0 <= dt)%Q /\ (dt <= 1)%Q.
Proof.
  intros fuel gm p dc dt H. unfold predContribution in H.
  destruct (mapGet (pname p) gm) as [gt|]; [|inversion H; subst; split; [|split]; discriminate].
  destruct (candidates p) as [cands|].
  - destruct (findRank fuel cands (gtypes gt)) as [[r|]|] eqn:Ef; simpl in H;
      [|inversion H; subst; split; [|split]; discriminate|discriminate].
    apply findRank_pos in Ef. inversion H; subst.
    assert (Hr : (1 <= inject_Z (Z.of_nat r))%Q).
    { change 1%Q with (inject_Z 1). rewrite <- Zle_Qle. lia. }
    assert (Hr0 : (0 < inject_Z (Z.of_nat r))%Q).
    { change 0%Q with (inject_Z 0). rewrite <- Zlt_Qlt. lia. }
    assert (Hinv : (0 <= 1 / inject_Z (Z.of_nat r))%Q).
    { apply Qle_shift_div_l; [exact Hr0|]. rewrite Qmult_0_l. discriminate. }
    assert (Hle : (1 / inject_Z (Z.of_nat r) <= 1)%Q).
    { apply Qle_shift_div_r; [exact Hr0|]. rewrite Qmult_1_l. exact Hr. }
    split; [|split; assumption].
    destruct (Nat.eqb r 1) eqn:E.
    + apply Nat.eqb_eq in E. subst. simpl. discriminate.
    + simpl. exact Hinv.
  - destruct (ptypes p) as [ty|]; simpl in H; [|discriminate].
    destruct (typesMatch fuel ty (gtypes gt)) as [[|]|]; simpl in H; inversion H; subst;
      split; try split; discriminate.
Qed.

Lemma sums_bounds : forall fuel gm l ds,
  mapE (predContribution fuel gm) l = Some ds ->
  (inject_Z (Z.of_nat (sumNat (map fst ds))) <= sumQ (map snd ds))%Q /\
  (0 <= sumQ (map snd ds))%Q /\
  (sumQ (map snd ds) <= inject_Z (Z.of_nat (List.length l)))%Q.
Proof.
  intros fuel gm l. induction l as [|p l IH]; intros ds H; simpl in H.
  - inversion H; subst. simpl. split; [|split]; discriminate.
  - destruct (predContribution fuel gm p) as [[dc dt]|] eqn:Ep; [|discriminate]. simpl in H.
    destruct (mapE (predContribution fuel gm) l) as [ds'|]; [|discriminate]. simpl in H.
    inversion H; subst. destruct (IH ds' eq_refl) as [H1 [H2 H3]].
    destruct (predContribution_bounds _ _ _ _ _ Ep) as [B1 [B2 B3]].
    simpl map. simpl sumNat. simpl sumQ. simpl List.length.
    rewrite Nat2Z.inj_add, inject_Z_plus, Nat2Z.inj_succ, <- Z.add_1_l, inject_Z_plus.
    split; [|split].
    + apply Qplus_le_compat; assumption.
    + rewrite <- (Qplus_0_l 0). apply Qplus_le_compat; assumption.
    + apply Qplus_le_compat; assumption.
Qed.

(** [x || 0] of [x / n] for [0 <= x], where [n = 0] forces [x = 0]. *)
Lemma orZero_jsDiv_value : forall x n,
  (0 <= x)%Q -> (0 <= n)%Q -> ((n == 0)%Q -> (x == 0)%Q) ->
  exists v, orZero (jsDiv x n) = JNum v /\
            ((n == 0)%Q /\ (v == 0)%Q \/ ~ (n == 0)%Q /\ (v == x / n)%Q).
Proof.
  intros x n Hx Hn Hz. unfold jsDiv.
  destruct (Qeq_bool n 0) eqn:E.
  - apply Qeq_bool_eq in E. rewrite (Qeq_eq_bool _ _ (Hz E)). simpl.
    exists 0%Q. split; [reflexivity|left; split; [exact E|reflexivity]].
  - assert (Hn' : ~ (n == 0)%Q) by (intros C; rewrite (Qeq_eq_bool _ _ C) in E; discriminate).
    simpl. destruct (Qeq_bool (x / n) 0) eqn:E2.
    + exists 0%Q. split; [reflexivity|right; split; [exact Hn'|]].
      apply Qeq_bool_eq in E2. symmetry. exact E2.
    + exists (x / n)%Q. split; [reflexivity|right; split; [exact Hn'|reflexivity]].
Qed.

Lemma calculateMetrics_sums : forall fuel preds gts m,
  calculateMetrics fuel preds gts = Some m ->
  exists ds, mapE (predContribution fuel (mapOfList gname gts)) preds = Some ds /\
    correctPredictions m = sumNat (map fst ds) /\
    (totalReciprocalRank m == sumQ (map snd ds))%Q /\
    totalPredictions m = List.length preds /\
    accuracy m = orZero (jsDiv (inject_Z (Z.of_nat (correctPredictions m)))
                               (inject_Z (Z.of_nat (totalPredictions m)))) /\
    mrr m = orZero (jsDiv (totalReciprocalRank m) (inject_Z (Z.of_nat (totalPredictions m)))).
Proof.
  intros fuel preds gts m H. unfold calculateMetrics in H.
  pose proof (processAll_sum fuel (mapOfList gname gts) preds 0 0%Q) as Hs.
  destruct (processAll fuel (mapOfList gname gts) (0, 0%Q) preds) as [[c t]|]; [|discriminate].
  destruct (mapE (predContribution fuel (mapOfList gname gts)) preds) as [ds|]; [|contradiction].
  simpl in H. inversion H; subst. destruct Hs as [Hc Ht].
  exists ds. split; [reflexivity|]. split; [simpl; lia|].
  split; [simpl; rewrite Ht; apply Qplus_0_l|]. repeat split.
Qed.

Lemma calculateMetrics_none : forall fuel preds gts,
  calculateMetrics fuel preds gts = None <->
  mapE (predContribution fuel (mapOfList gname gts)) preds = None.
Proof.
  intros fuel preds gts. unfold calculateMetrics.
  pose proof (processAll_sum fuel (mapOfList gname gts) preds 0 0%Q) as Hs.
  destruct (processAll fuel (mapOfList gname gts) (0, 0%Q) preds) as [[c t]|];
    destruct (mapE (predContribution fuel (mapOfList gname gts)) preds); try contradiction;
    simpl; split; intros; try discriminate; reflexivity.
Qed.

Lemma Qeq_bool_compat : forall a a' b, (a == a')%Q -> Qeq_bool a b = Qeq_bool a' b.
Proof.
  intros a a' b H. destruct (Qeq_bool a b) eqn:E1, (Qeq_bool a' b) eqn:E2; try reflexivity.
  - apply Qeq_bool_eq in E1. rewrite H in E1. rewrite (Qeq_eq_bool _ _ E1) in E2. discriminate.
  - apply Qeq_bool_eq in E2. rewrite <- H in E2. rewrite (Qeq_eq_bool _ _ E2) in E1. discriminate.
Qed.

Lemma orZero_jsDiv_proper : forall a a' n, (a == a')%Q ->
  jsnumEq (orZero (jsDiv a n)) (orZero (jsDiv a' n)).
Proof.
  intros a a' n H. unfold jsDiv. destruct (Qeq_bool n 0).
  - rewrite (Qeq_bool_compat a a' 0 H). destruct (Qeq_bool a' 0); simpl; [reflexivity|exact I].
  - simpl. assert (H' : (a / n == a' / n)%Q) by (rewrite H; reflexivity).
    rewrite (Qeq_bool_compat _ _ 0 H'). destruct (Qeq_bool (a' / n) 0); simpl; [reflexivity|exact H'].
Qed.

Lemma mapGet_mapOfList_key : forall {A} (key : A -> string) l k v,
  mapGet k (mapOfList key l) = Some v -> In k (map key l).
Proof.
  intros A key l k v H. apply keys_mapOfList. apply mapGet_In in H.
  change k with (fst (k, v)). apply in_map. exact H.
Qed.

Lemma inject_nat_nonneg : forall n, (0 <= inject_Z (Z.of_nat n))%Q.
Proof. intros n. change 0%Q with (inject_Z 0). rewrite <- Zle_Qle. lia. Qed.

(** Extra property: [calculateMetrics] counts at most as many correct
    predictions as its total reciprocal rank, which is at most the
    number of predictions; its accuracy and mrr are numbers with
    [0 <= accuracy <= mrr <= 1]. *)
Theorem metrics_bounds : forall fuel preds gts m,
  calculateMetrics fuel preds gts = Some m ->
  (inject_Z (Z.of_nat (correctPredictions m)) <= totalReciprocalRank m)%Q /\
  (totalReciprocalRank m <= inject_Z (Z.of_nat (totalPredictions m)))%Q /\
  exists a b, accuracy m = JNum a /\ mrr m = JNum b /\
              (0 <= a)%Q /\ (a <= b)%Q /\ (b <= 1)%Q.
Proof.
  intros fuel preds gts m H.
  destruct (calculateMetrics_sums _ _ _ _ H) as [ds [Hd [Hc [Ht [Hn [Ha Hm]]]]]].
  destruct (sums_bounds _ _ _ _ Hd) as [B1 [B2 B3]].
  assert (C1 : (inject_Z (Z.of_nat (correctPredictions m)) <= totalReciprocalRank m)%Q)
    by (rewrite Hc, Ht; exact B1).
  assert (C2 : (totalReciprocalRank m <= inject_Z (Z.of_nat (totalPredictions m)))%Q)
    by (rewrite Ht, Hn; exact B3).
  split; [exact C1|split; [exact C2|]].
  rewrite Ha, Hm.
  set (c := inject_Z (Z.of_nat (correctPredictions m))) in *.
  set (t := totalReciprocalRank m) in *.
  set (n := inject_Z (Z.of_nat (totalPredictions m))) in *.
  assert (Hc0 : (0 <= c)%Q) by apply inject_nat_nonneg.
  assert (Ht0 : (0 <= t)%Q) by (eapply Qle_trans; eassumption).
  assert (Hn0 : (0 <= n)%Q) by apply inject_nat_nonneg.
  assert (Zt : (n == 0)%Q -> (t == 0)%Q).
  { intros E. apply Qle_antisym; [rewrite <- E; exact C2|exact Ht0]. }
  assert (Zc : (n == 0)%Q -> (c == 0)%Q).
  { intros E. apply Qle_antisym; [rewrite <- (Zt E); exact C1|exact Hc0]. }
  destruct (orZero_jsDiv_value c n Hc0 Hn0 Zc) as [a [-> Ha']].
  destruct (orZero_jsDiv_value t n Ht0 Hn0 Zt) as [b [-> Hb']].
  exists a, b. split; [reflexivity|split; [reflexivity|]].
  destruct Ha' as [[E Ea]|[E Ea]], Hb' as [[E' Eb]|[E' Eb]]; try contradiction.
  - rewrite Ea, Eb. split; [apply Qle_refl|split; [apply Qle_refl|discriminate]].
  - assert (Hpos : (0 < n)%Q) by (apply Qle_lt_or_eq in Hn0; destruct Hn0 as [P|P];
                                    [exact P|exfalso; apply E; symmetry; exact P]).
    assert (Hinv : (0 <= / n)%Q) by (apply Qinv_le_0_compat; exact Hn0).
    rewrite Ea, Eb. unfold Qdiv. split; [|split].
    + rewrite <- (Qmult_0_l (/ n)). apply Qmult_le_compat_r; assumption.
    + apply Qmult_le_compat_r; assumption.
    + rewrite <- (Qmult_inv_r n E). apply Qmult_le_compat_r; assumption.
Qed.

Lemma metrics_bounds_witness :
  exists m, calculateMetrics 3 [rankedPrediction ["string"; "number"]; singlePrediction "number"]
              [gtNumber] = Some m /\
  (inject_Z (Z.of_nat (correctPredictions m)) <= totalReciprocalRank m)%Q /\
  (totalReciprocalRank m <= inject_Z (Z.of_nat (totalPredictions m)))%Q /\
  exists a b, accuracy m = JNum a /\ mrr m = JNum b /\
              (0 <= a)%Q /\ (a <= b)%Q /\ (b <= 1)%Q.
Proof.
  eexists. split; [reflexivity|].
  apply (metrics_bounds 3 [rankedPrediction ["string"; "number"]; singlePrediction "number"] [gtNumber]).
  reflexivity.
Defined.

(** Extra property: the order of the predictions does not matter to
    the counts of [calculateMetrics]: a permutation gives the same
    correctPredictions, totalPredictions and accuracy, or throws exactly
    when the original does. (The double sum behind mrr may round
    differently in another order, so mrr is left out.) *)
Theorem metrics_order_independent : forall fuel preds preds' gts,
  Permutation preds preds' ->
  match calculateMetrics fuel preds gts, calculateMetrics fuel preds' gts with
  | Some m, Some m' =>
      correctPredictions m = correctPredictions m' /\
      totalPredictions m = totalPredictions m' /\
      jsnumEq (accuracy m) (accuracy m')
  | None, None => True
  | _, _ => False
  end.
Proof.
  intros fuel preds preds' gts Hp.
  pose proof (mapE_Permutation (predContribution fuel (mapOfList gname gts)) _ _ Hp) as Hm.
  destruct (calculateMetrics fuel preds gts) as [m|] eqn:E1, (calculateMetrics fuel preds' gts) as [m'|] eqn:E2.
  - destruct (calculateMetrics_sums _ _ _ _ E1) as [ds [Hd [Hc [Ht [Hn [Ha Hr]]]]]].
    destruct (calculateMetrics_sums _ _ _ _ E2) as [ds' [Hd' [Hc' [Ht' [Hn' [Ha' Hr']]]]]].
    rewrite Hd, Hd' in Hm.
    assert (Ec : correctPredictions m = correctPredictions m').
    { rewrite Hc, Hc'. apply sumNat_Permutation, Permutation_map. exact Hm. }
    assert (En : totalPredictions m = totalPredictions m').
    { rewrite Hn, Hn'. apply Permutation_length. exact Hp. }
    split; [exact Ec|split; [exact En|]].
    rewrite Ha, Ha', Ec, En. apply orZero_jsDiv_proper. reflexivity.
  - apply calculateMetrics_none in E2. rewrite E2 in Hm.
    destruct (calculateMetrics_sums _ _ _ _ E1) as [ds [Hd _]]. rewrite Hd in Hm. exact Hm.
  - apply calculateMetrics_none in E1. rewrite E1 in Hm.
    destruct (calculateMetrics_sums _ _ _ _ E2) as [ds [Hd _]]. rewrite Hd in Hm. exact Hm.
  - exact I.
Qed.

Lemma metrics_order_independent_witness :
  Permutation [singlePrediction "number"; rankedPrediction ["string"; "number"]]
              [rankedPrediction ["string"; "number"]; singlePrediction "number"] /\
  match calculateMetrics 3 [singlePrediction "number"; rankedPrediction ["string"; "number"]] [gtNumber],
        calculateMetrics 3 [rankedPrediction ["string"; "number"]; singlePrediction "number"] [gtNumber] with
  | Some m, Some m' =>
      correctPredictions m = correctPredictions m' /\
      totalPredictions m = totalPredictions m' /\
      jsnumEq (accuracy m) (accuracy m')
  | None, None => True
  | _, _ => False
  end.
Proof.
  split; [apply perm_swap|].
  apply metrics_order_independent. apply perm_swap.
Defined.

(** Extra property: predictions of names absent from the ground truth
    add to totalPredictions and to nothing else: appended to a list of
    predictions they leave correctPredictions and totalReciprocalRank
    unchanged, and they never make [calculateMetrics] throw. *)
Theorem metrics_unknown_names : forall fuel preds extra gts,
  (forall p, In p extra -> ~ In (pname p) (map gname gts)) ->
  match calculateMetrics fuel preds gts, calculateMetrics fuel (preds ++ extra) gts with
  | Some m, Some m' =>
      correctPredictions m' = correctPredictions m /\
      (totalReciprocalRank m' == totalReciprocalRank m)%Q /\
      totalPredictions m' = totalPredictions m + List.length extra
  | None, None => True
  | _, _ => False
  end.
Proof.
  intros fuel preds extra gts Hx.
  assert (Hz : mapE (predContribution fuel (mapOfList gname gts)) extra
               = Some (map (fun _ => (0, 0%Q)) extra)).
  { clear preds. induction extra as [|p extra IH]; [reflexivity|]. simpl.
    assert (Hp : predContribution fuel (mapOfList gname gts) p = Some (0, 0%Q)).
    { unfold predContribution.
      destruct (mapGet (pname p) (mapOfList gname gts)) as [gt|] eqn:E; [|reflexivity].
      exfalso. apply (Hx p (or_introl eq_refl)). eapply mapGet_mapOfList_key. exact E. }
    rewrite Hp. simpl. rewrite IH; [reflexivity|]. intros q Hq. apply Hx. right. exact Hq. }
  assert (Hsum : forall l : list Prediction,
            sumNat (map fst (map (fun _ => (0, 0%Q)) l)) = 0 /\
            (sumQ (map snd (map (fun _ : Prediction => (0%nat, 0%Q)) l)) == 0)%Q).
  { induction l as [|x l [IH1 IH2]]; simpl; [split; reflexivity|]. rewrite IH1, IH2. split; reflexivity. }
  destruct (calculateMetrics fuel preds gts) as [m|] eqn:E1,
           (calculateMetrics fuel (preds ++ extra) gts) as [m'|] eqn:E2.
  - destruct (calculateMetrics_sums _ _ _ _ E1) as [ds [Hd [Hc [Ht [Hn _]]]]].
    destruct (calculateMetrics_sums _ _ _ _ E2) as [ds' [Hd' [Hc' [Ht' [Hn' _]]]]].
    rewrite mapE_app, Hd, Hz in Hd'. simpl in Hd'. inversion Hd'; subst ds'.
    destruct (Hsum extra) as [S1 S2].
    rewrite map_app, sumNat_app, S1 in Hc'. rewrite map_app, sumQ_app, S2 in Ht'.
    split; [lia|split; [rewrite Ht', Ht; apply Qplus_0_r|]].
    rewrite Hn', Hn, length_app. reflexivity.
  - apply calculateMetrics_none in E2. rewrite mapE_app, Hz in E2.
    destruct (calculateMetrics_sums _ _ _ _ E1) as [ds [Hd _]]. rewrite Hd in E2. discriminate.
  - apply calculateMetrics_none in E1. pose proof (calculateMetrics_none fuel (preds ++ extra) gts) as H.
    rewrite mapE_app, E1 in H. simpl in H. destruct (calculateMetrics_sums _ _ _ _ E2) as [ds [Hd _]].
    rewrite mapE_app, E1 in Hd. discriminate.
  - exact I.
Qed.

Lemma metrics_unknown_names_witness :
  (forall p, In p [{| pname := "g"; ptypes := None; candidates := None |}] ->
             ~ In (pname p) (map gname [gtNumber])) /\
  match calculateMetrics 3 [singlePrediction "number"] [gtNumber],
        calculateMetrics 3 ([singlePrediction "number"] ++ [{| pname := "g"; ptypes := None; candidates := None |}])
          [gtNumber] with
  | Some m, Some m' =>
      correctPredictions m' = correctPredictions m /\
      (totalReciprocalRank m' == totalReciprocalRank m)%Q /\
      totalPredictions m' = totalPredictions m + List.length [{| pname := "g"; ptypes := None; candidates := None |}]
  | None, None => True
  | _, _ => False
  end.
Proof.
  assert (H : forall p, In p [{| pname := "g"; ptypes := None; candidates := None |}] ->
                        ~ In (pname p) (map gname [gtNumber])).
  { intros p [<-|[]]. simpl. intros [E|[]]. discriminate. }
  split; [exact H|]. apply metrics_unknown_names. exact H.
Defined.

Lemma append_eq_empty_l : forall s1 s2, (s1 ++ s2)%string = "" -> s1 = "".
Proof. intros [|c s1] s2 H; [reflexivity|discriminate]. Qed.

Lemma concat_nonempty_nil : forall sep l,
  (forall x, In x l -> x <> "") -> String.concat sep l = "" -> l = [].
Proof.
  intros sep [|x [|y l]] Hne H; [reflexivity| |].
  - exfalso. apply (Hne x (or_introl eq_refl)). exact H.
  - exfalso. apply (Hne x (or_introl eq_refl)). simpl in H. eapply append_eq_empty_l. exact H.
Qed.

Lemma flat_map_nil : forall {A B} (f : A -> list B) l,
  flat_map f l = [] -> forall x, In x l -> f x = [].
Proof.
  intros A B f l H x Hx. induction l as [|y l IH]; [destruct Hx|].
  simpl in H. apply app_eq_nil in H. destruct H as [H1 H2].
  destruct Hx as [<-|Hx]; [exact H1|exact (IH H2 Hx)].
Qed.

Lemma flat_map_nil_intro : forall {A B} (f : A -> list B) l,
  (forall x, In x l -> f x = []) -> flat_map f l = [].
Proof.
  intros A B f l H. induction l as [|y l IH]; [reflexivity|].
  simpl. rewrite (H y (or_introl eq_refl)). apply IH. intros x Hx. apply H. right. exact Hx.
Qed.

(** Extra property: a prediction that [typesMatch] accepts gets no
    difference description: [getTypeDifference] returns the empty
    string. *)
Theorem typesMatch_no_difference : forall fuel t g,
  typesMatch fuel t g = Some true -> getTypeDifference fuel t g = Some "".
Proof.
  intros fuel t g H. unfold typesMatch, getTypeDifference in *.
  destruct (retTruthy (ret t) && retTruthy (ret g)).
  2:{ destruct (params t) as [pp|], (params g) as [gp|]; try reflexivity.
      injection H as H. unfold paramsMatch in H. apply andb_prop in H as [H _].
      rewrite flat_map_nil_intro; [reflexivity|].
      intros [k gtType] Hin. rewrite forallb_forall in H. specialize (H _ Hin). simpl in H.
      unfold paramTruthy. destruct (mapGet k pp) as [v|]; [|discriminate].
      apply andb_prop in H as [H1 H2]. rewrite H1, H2. reflexivity. }
  destruct (compatRet fuel (ret t) (ret g)) as [[|]|]; try discriminate.
  destruct (params t) as [pp|], (params g) as [gp|]; try reflexivity.
  injection H as H. unfold paramsMatch in H. apply andb_prop in H as [H _].
  rewrite flat_map_nil_intro; [reflexivity|].
  intros [k gtType] Hin. rewrite forallb_forall in H. specialize (H _ Hin). simpl in H.
  unfold paramTruthy. destruct (mapGet k pp) as [v|]; [|discriminate].
  apply andb_prop in H as [H1 H2]. rewrite H1, H2. reflexivity.
Qed.

Lemma typesMatch_no_difference_witness :
  typesMatch 3 {| ret := RStr "string[]"; params := Some [("x", "Number")] |}
    {| ret := RStr "Array<string>"; params := Some [("x", "number")] |} = Some true /\
  getTypeDifference 3 {| ret := RStr "string[]"; params := Some [("x", "Number")] |}
    {| ret := RStr "Array<string>"; params := Some [("x", "number")] |} = Some "".
Proof.
  split; [vm_compute; reflexivity|]. apply typesMatch_no_difference. vm_compute. reflexivity.
Defined.

Lemma getTypeDifference_parts : forall fuel t g,
  getTypeDifference fuel t g =
  match retDifferences fuel t g with
  | None => None
  | Some ds => Some (join "; " (ds ++ paramDifferences fuel t g)%list)
  end.
Proof. reflexivity. Qed.

Lemma forallb_false_exists : forall {A} (f : A -> bool) l,
  forallb f l = false -> exists x, In x l /\ f x = false.
Proof.
  intros A f l H. induction l as [|y l IH]; [discriminate|].
  simpl in H. destruct (f y) eqn:E.
  - destruct (IH H) as [x [Hx Hf]]. exists x. split; [right; exact Hx|exact Hf].
  - exists y. split; [left; reflexivity|exact E].
Qed.

(** Extra property: when [getTypeDifference] finds no difference,
    [typesMatch] accepts the prediction, unless the prediction has a
    parameter that is not truthy among the ground truth's parameters:
    the check for extra parameters has no counterpart in
    [getTypeDifference]. *)
Theorem no_difference_typesMatch : forall fuel t g,
  getTypeDifference fuel t g = Some "" ->
  typesMatch fuel t g = Some true \/
  exists pp gp k v, params t = Some pp /\ params g = Some gp /\
                    In (k, v) pp /\ paramTruthy gp k = false.
Proof.
  intros fuel t g H. rewrite getTypeDifference_parts in H.
  destruct (retDifferences fuel t g) as [ds|] eqn:Hds; [|discriminate].
  injection H as Hj.
  apply concat_nonempty_nil in Hj.
  2:{ intros x Hx. apply in_app_or in Hx as [Hx|Hx].
      - unfold retDifferences in Hds. destruct (retTruthy (ret t) && retTruthy (ret g)).
        + destruct (compatRet fuel (ret t) (ret g)) as [[|]|]; try discriminate;
            injection Hds as <-; [destruct Hx|destruct Hx as [<-|[]]; discriminate].
        + injection Hds as <-. destruct Hx.
      - unfold paramDifferences in Hx. destruct (params t) as [pp|], (params g) as [gp|]; try destruct Hx.
        apply in_flat_map in Hx as [[k gtType] [_ Hx]].
        destruct (paramTruthy pp k); [|destruct Hx as [<-|[]]; discriminate].
        destruct (mapGet k pp) as [v|]; [|destruct Hx].
        destruct (isStructurallyCompatible fuel v gtType); [destruct Hx|destruct Hx as [<-|[]]; discriminate]. }
  apply app_eq_nil in Hj as [-> Hpd].
  unfold typesMatch.
  assert (Hok : (if retTruthy (ret t) && retTruthy (ret g)
                 then compatRet fuel (ret t) (ret g) else Some true) = Some true).
  { unfold retDifferences in Hds. destruct (retTruthy (ret t) && retTruthy (ret g)); [|reflexivity].
    destruct (compatRet fuel (ret t) (ret g)) as [[|]|]; try discriminate; reflexivity. }
  rewrite Hok. unfold paramDifferences in Hpd.
  destruct (params t) as [pp|], (params g) as [gp|]; try (left; reflexivity).
  unfold paramsMatch.
  assert (H1 : forallb (fun '(paramName, gtType) =>
      match mapGet paramName pp with
      | Some predType => negb (String.eqb predType "") && isStructurallyCompatible fuel predType gtType
      | None => false
      end) gp = true).
  { apply forallb_forall. intros [k gtType] Hin. pose proof (flat_map_nil _ _ Hpd _ Hin) as Hk.
    simpl in Hk. unfold paramTruthy in Hk. destruct (mapGet k pp) as [v|]; [|discriminate].
    destruct (negb (String.eqb v "")); [|discriminate].
    destruct (isStructurallyCompatible fuel v gtType); [reflexivity|discriminate]. }
  rewrite H1. simpl.
  destruct (forallb (fun '(paramName, _) => paramTruthy gp paramName) pp) eqn:E2; [left; reflexivity|].
  right. apply forallb_false_exists in E2 as [[k v] [Hin Hk]].
  exists pp, gp, k, v. repeat split; assumption.
Qed.

Lemma no_difference_typesMatch_witness :
  getTypeDifference 3 {| ret := RStr "number"; params := Some [("x", "string"); ("y", "number")] |}
    {| ret := RStr "number"; params := Some [("x", "string")] |} = Some "" /\
  (typesMatch 3 {| ret := RStr "number"; params := Some [("x", "string"); ("y", "number")] |}
    {| ret := RStr "number"; params := Some [("x", "string")] |} = Some true \/
   exists pp gp k v,
     params {| ret := RStr "number"; params := Some [("x", "string"); ("y", "number")] |} = Some pp /\
     params {| ret := RStr "number"; params := Some [("x", "string")] |} = Some gp /\
     In (k, v) pp /\ paramTruthy gp k = false).
Proof.
  split; [vm_compute; reflexivity|]. apply no_difference_typesMatch. vm_compute. reflexivity.
Defined.

Lemma isSC_congr : forall k p p' g g',
  normalizeType p = normalizeType p' -> normalizeType g = normalizeType g' ->
  isStructurallyCompatible k p g = isStructurallyCompatible k p' g'.
Proof.
  induction k as [|k IH]; intros p p' g g' Hp Hg; [reflexivity|].
  rewrite !isSC_step. cbv zeta. rewrite Hp, Hg.
  destruct (String.eqb _ _); [reflexivity|].
  destruct (isObjectType _ && isObjectType _); [reflexivity|].
  destruct (isUnionType _); [|reflexivity].
  induction (parseUnionType _) as [|u l IHl]; simpl; [reflexivity|].
  rewrite IHl, (IH p p' u u Hp eq_refl). reflexivity.
Qed.

Lemma lowerChar_idem : forall c, lowerChar (lowerChar c) = lowerChar c.
Proof. intros c. apply lowerChar_id. apply isUpper_lowerChar. Qed.

Lemma toLowerCase_idem : forall s, toLowerCase (toLowerCase s) = toLowerCase s.
Proof. induction s as [|c s IH]; simpl; [reflexivity|]. rewrite lowerChar_idem, IH. reflexivity. Qed.

Lemma isSpace_lowerChar : forall c, isSpace (lowerChar c) = isSpace c.
Proof. intros [b0 b1 b2 b3 b4 b5 b6 b7]. destruct b0, b1, b2, b3, b4, b5, b6, b7; reflexivity. Qed.

Lemma toLowerCase_removeSpaces : forall s, toLowerCase (removeSpaces s) = removeSpaces (toLowerCase s).
Proof.
  induction s as [|c s IH]; simpl; [reflexivity|]. rewrite isSpace_lowerChar.
  destruct (isSpace c); simpl; rewrite IH; reflexivity.
Qed.

Lemma removeSpaces_idem : forall s, removeSpaces (removeSpaces s) = removeSpaces s.
Proof.
  induction s as [|c s IH]; simpl; [reflexivity|].
  destruct (isSpace c) eqn:E; simpl; [exact IH|]. rewrite E, IH. reflexivity.
Qed.

Lemma normalizeType_toLowerCase : forall s, normalizeType (toLowerCase s) = normalizeType s.
Proof. intros s. unfold normalizeType. rewrite toLowerCase_idem. reflexivity. Qed.

Lemma normalizeType_removeSpaces : forall s, normalizeType (removeSpaces s) = normalizeType s.
Proof.
  intros s. unfold normalizeType. rewrite toLowerCase_removeSpaces, removeSpaces_idem. reflexivity.
Qed.

(** Extra property: [isStructurallyCompatible] sees its arguments only
    through [normalizeType]: two predicted types with the same
    normalization, and two ground-truth types with the same
    normalization, give the same answer at every depth. *)
Theorem isStructurallyCompatible_normalized : forall k p p' g g',
  normalizeType p = normalizeType p' -> normalizeType g = normalizeType g' ->
  isStructurallyCompatible k p g = isStructurallyCompatible k p' g'.
Proof. exact isSC_congr. Qed.

Lemma isStructurallyCompatible_normalized_witness :
  normalizeType "Promise<string>" = normalizeType "Promise<number>" /\
  normalizeType "{b:string;a:number}" = normalizeType "{ a : Number, b : string }" /\
  isStructurallyCompatible 3 "Promise<string>" "{b:string;a:number}" =
  isStructurallyCompatible 3 "Promise<number>" "{ a : Number, b : string }".
Proof.
  split; [vm_compute; reflexivity|]. split; [vm_compute; reflexivity|].
  apply isStructurallyCompatible_normalized; vm_compute; reflexivity.
Defined.

(** Extra property: [isStructurallyCompatible] ignores letter case and
    white space in both of its arguments. *)
Theorem isStructurallyCompatible_case_space : forall k p g,
  isStructurallyCompatible k (toLowerCase p) g = isStructurallyCompatible k p g /\
  isStructurallyCompatible k p (toLowerCase g) = isStructurallyCompatible k p g /\
  isStructurallyCompatible k (removeSpaces p) g = isStructurallyCompatible k p g /\
  isStructurallyCompatible k p (removeSpaces g) = isStructurallyCompatible k p g.
Proof.
  intros k p g. repeat split; apply isSC_congr;
    first [apply normalizeType_toLowerCase | apply normalizeType_removeSpaces | reflexivity].
Qed.

(** *** The first version of [part_004] *)

Lemma isSC_of_normalized_eq : forall k a b,
  String.eqb (normalizeType a) (normalizeType b) = true ->
  isStructurallyCompatible (S k) a b = true.
Proof. intros k a b H. rewrite isSC_step. cbv zeta. rewrite H. reflexivity. Qed.

(** Extra property: the structural [typesMatch] refines the exact one of
    the first version of [part_004]: it accepts every prediction the
    exact comparison of normalized strings accepted. *)
Theorem typesMatch_refines_exact : forall k t g,
  ExactVariant.typesMatch t g = Some true -> typesMatch (S k) t g = Some true.
Proof.
  intros k t g.
  - unfold ExactVariant.typesMatch, typesMatch. intros H.
    assert (Hr : forall b, (if retTruthy (ret t) && retTruthy (ret g)
                            then ExactVariant.eqRet (ret t) (ret g) else Some true) = Some b ->
                 b = true ->
                 (if retTruthy (ret t) && retTruthy (ret g)
                  then compatRet (S k) (ret t) (ret g) else Some true) = Some true).
    { intros b E ->. destruct (retTruthy (ret t) && retTruthy (ret g)); [|reflexivity].
      destruct (ret t), (ret g); try discriminate. unfold ExactVariant.eqRet in E. unfold compatRet.
      injection E as E.
      rewrite (isSC_of_normalized_eq k _ _ E). reflexivity. }
    destruct (if retTruthy (ret t) && retTruthy (ret g)
              then ExactVariant.eqRet (ret t) (ret g) else Some true) as [[|]|] eqn:E;
      try discriminate.
    rewrite (Hr true eq_refl eq_refl).
    destruct (params t) as [pp|], (params g) as [gp|]; try reflexivity.
    injection H as H. unfold ExactVariant.paramsMatch in H. unfold paramsMatch.
    apply andb_prop in H as [H1 H2]. rewrite H2, andb_true_r. f_equal.
    rewrite forallb_forall in H1 |- *. intros [n gtType] Hin. specialize (H1 _ Hin). simpl in H1 |- *.
    destruct (mapGet n pp) as [v|]; [|discriminate].
    apply andb_prop in H1 as [H1a H1b]. rewrite H1a. simpl. apply isSC_of_normalized_eq. exact H1b.
Qed.

Lemma typesMatch_refines_exact_witness :
  ExactVariant.typesMatch {| ret := RStr "Array<string>"; params := Some [("x", "number")] |}
    {| ret := RStr "string[]"; params := Some [("x", "Number")] |} = Some true /\
  typesMatch 1 {| ret := RStr "Array<string>"; params := Some [("x", "number")] |}
    {| ret := RStr "string[]"; params := Some [("x", "Number")] |} = Some true.
Proof.
  assert (H : ExactVariant.typesMatch {| ret := RStr "Array<string>"; params := Some [("x", "number")] |}
    {| ret := RStr "string[]"; params := Some [("x", "Number")] |} = Some true) by (vm_compute; reflexivity).
  split; [exact H|]. exact (typesMatch_refines_exact 0 _ _ H).
Defined.

Lemma exact_processEntries_inv : forall gm es tp fp c tp' fp' c',
  ExactVariant.processEntries gm (tp, fp, c) es = Some (tp', fp', c') ->
  tp' + fp' = tp + fp + List.length es /\ c' + tp = tp' + c /\
  tp' <= tp + List.length (filter (fun e => mapHas (fst e) gm) es).
Proof.
  intros gm es. induction es as [|[name pred] es IH]; intros tp fp c tp' fp' c' H.
  - simpl in H. injection H as <- <- <-. simpl. lia.
  - cbn [ExactVariant.processEntries] in H. unfold bindE at 1 in H.
    unfold ExactVariant.processEntry in H. cbn [fst filter List.length].
    unfold mapHas at 1. destruct (mapGet name gm) as [gt|].
    + destruct (ptypes pred) as [t|]; [|discriminate]. simpl in H.
      destruct (ExactVariant.typesMatch t (gtypes gt)) as [[|]|]; [| |discriminate]; simpl in H;
        apply IH in H; simpl; lia.
    + apply IH in H. lia.
Qed.

Lemma length_mapOfList_le : forall {A} (key : A -> string) l, List.length (mapOfList key l) <= List.length l.
Proof.
  intros A key l. unfold mapOfList.
  assert (Hs : forall {V} k (v : V) m, List.length (mapSet k v m) <= S (List.length m)).
  { intros V k v m. induction m as [|[k' v'] m IHm]; simpl; [lia|].
    destruct (String.eqb k k'); simpl; lia. }
  assert (H : forall l m, List.length (fold_left (fun m x => mapSet (key x) x m) l m)
                          <= List.length m + List.length l).
  { induction l0 as [|x l0 IHl]; intros m; simpl; [lia|].
    specialize (IHl (mapSet (key x) x m)). specialize (Hs _ (key x) x m). lia. }
  specialize (H l []). simpl in H. exact H.
Qed.

Lemma mapHas_In_keys : forall {V} k (m : JsMap V), mapHas k m = true -> In k (map fst m).
Proof.
  intros V k m H. unfold mapHas in H. destruct (mapGet k m) as [v|] eqn:E; [|discriminate].
  apply mapGet_In in E. change k with (fst (k, v)). apply in_map. exact E.
Qed.

Lemma filter_complement_length : forall {A} (f : A -> bool) l,
  List.length (filter f l) + List.length (filter (fun x => negb (f x)) l) = List.length l.
Proof. intros A f l. induction l as [|x l IH]; simpl; [reflexivity|]. destruct (f x); simpl; lia. Qed.

Lemma filter_cross_length : forall {V W} (a : JsMap V) (b : JsMap W),
  NoDup (map fst a) ->
  List.length (filter (fun e => mapHas (fst e) b) a) <= List.length (filter (fun e => mapHas (fst e) a) b).
Proof.
  intros V W a b Ha.
  rewrite <- (length_map fst (filter (fun e => mapHas (fst e) b) a)).
  rewrite <- (length_map fst (filter (fun e => mapHas (fst e) a) b)).
  apply NoDup_incl_length.
  - induction a as [|[k v] a IH]; simpl; [constructor|].
    inversion Ha as [|? ? Hn Hd]; subst.
    destruct (mapHas k _); simpl; [|apply IH; exact Hd].
    constructor; [|apply IH; exact Hd].
    intros Hin. apply Hn. apply in_map_iff in Hin as [[k' v'] [Ek Hin]]. simpl in Ek; subst k'.
    apply filter_In in Hin as [Hin _]. change k with (fst (k, v')). apply in_map. exact Hin.
  - intros k Hk. apply in_map_iff in Hk as [[k' v] [Ek Hin]]. simpl in Ek; subst k'.
    apply filter_In in Hin as [Hin Hb]. simpl in Hb.
    apply mapHas_In_keys in Hb. apply in_map_iff in Hb as [[k' w] [Ek Hw]]. simpl in Ek; subst k'.
    change k with (fst (k, w)). apply in_map. apply filter_In. split; [exact Hw|].
    simpl. apply In_keys_mapHas. change k with (fst (k, v)). apply in_map. exact Hin.
Qed.

Lemma countMissing_filter : forall pm gm,
  ExactVariant.countMissing pm gm = List.length (filter (fun e => negb (mapHas (fst e) pm)) gm).
Proof.
  intros pm gm. unfold ExactVariant.countMissing. f_equal.
  induction gm as [|[k v] gm IH]; simpl; [reflexivity|]. rewrite IH. reflexivity.
Qed.

(** Extra property: in the first version of [part_004], every distinct
    predicted name is counted once, as a true or a false positive;
    correctPredictions equals truePositives; distinct names never
    exceed totalPredictions; and truePositives plus falseNegatives never
    exceeds the number of distinct ground-truth names. *)
Theorem exact_metrics_counts : forall preds gts m,
  ExactVariant.calculateMetrics preds gts = Some m ->
  ExactVariant.correctPredictions m = ExactVariant.truePositives m /\
  ExactVariant.truePositives m + ExactVariant.falsePositives m = List.length (mapOfList pname preds) /\
  List.length (mapOfList pname preds) <= ExactVariant.totalPredictions m /\
  ExactVariant.truePositives m + ExactVariant.falseNegatives m <= List.length (mapOfList gname gts).
Proof.
  intros preds gts m H. unfold ExactVariant.calculateMetrics in H.
  destruct (ExactVariant.processEntries _ _ _) as [[[tp fp] c]|] eqn:E; [|discriminate].
  simpl in H. injection H as <-. simpl.
  apply exact_processEntries_inv in E as [E1 [E2 E3]].
  split; [lia|]. split; [lia|]. split; [apply length_mapOfList_le|].
  rewrite countMissing_filter.
  pose proof (filter_cross_length (mapOfList pname preds) (mapOfList gname gts) (NoDup_mapOfList _ _)).
  pose proof (filter_complement_length (fun e : string * GroundTruthType => mapHas (fst e) (mapOfList pname preds))
                (mapOfList gname gts)).
  lia.
Qed.

Lemma exact_metrics_counts_witness :
  exists m, ExactVariant.calculateMetrics [singlePrediction "number"; singlePrediction "string"]
              [gtNumber; {| gname := "h"; gtypes := typesRet "void" |}] = Some m /\
  ExactVariant.correctPredictions m = ExactVariant.truePositives m /\
  ExactVariant.truePositives m + ExactVariant.falsePositives m =
    List.length (mapOfList pname [singlePrediction "number"; singlePrediction "string"]) /\
  List.length (mapOfList pname [singlePrediction "number"; singlePrediction "string"])
    <= ExactVariant.totalPredictions m /\
  ExactVariant.truePositives m + ExactVariant.falseNegatives m
    <= List.length (mapOfList gname [gtNumber; {| gname := "h"; gtypes := typesRet "void" |}]).
Proof.
  eexists. split; [vm_compute; reflexivity|].
  apply exact_metrics_counts. vm_compute. reflexivity.
Defined.

Lemma inject_nat_zero : forall n, (inject_Z (Z.of_nat n) == 0)%Q <-> n = 0.
Proof.
  intros n. change 0%Q with (inject_Z 0). rewrite inject_Z_injective. lia.
Qed.

Lemma nat_ratio_value : forall c n, c <= n ->
  exists v, orZero (jsDiv (inject_Z (Z.of_nat c)) (inject_Z (Z.of_nat n))) = JNum v /\
            (0 <= v)%Q /\ (v <= 1)%Q /\
            (n = 0 /\ (v == 0)%Q \/ n <> 0 /\ (v == inject_Z (Z.of_nat c) / inject_Z (Z.of_nat n))%Q).
Proof.
  intros c n Hcn.
  assert (Hz : (inject_Z (Z.of_nat n) == 0)%Q -> (inject_Z (Z.of_nat c) == 0)%Q).
  { intros E. apply inject_nat_zero in E. apply inject_nat_zero. lia. }
  destruct (orZero_jsDiv_value _ _ (inject_nat_nonneg c) (inject_nat_nonneg n) Hz) as [v [Hv Hc]].
  exists v. split; [exact Hv|].
  destruct Hc as [[E Ev]|[E Ev]].
  - apply inject_nat_zero in E. rewrite Ev. split; [apply Qle_refl|split; [discriminate|left; split; [exact E|reflexivity]]].
  - assert (Hpos : (0 < inject_Z (Z.of_nat n))%Q).
    { change 0%Q with (inject_Z 0). rewrite <- Zlt_Qlt. rewrite inject_nat_zero in E. lia. }
    rewrite Ev. split; [|split].
    + apply Qle_shift_div_l; [exact Hpos|]. rewrite Qmult_0_l. apply inject_nat_nonneg.
    + apply Qle_shift_div_r; [exact Hpos|]. rewrite Qmult_1_l. rewrite <- Zle_Qle. lia.
    + right. split; [rewrite inject_nat_zero in E; exact E|reflexivity].
Qed.

Lemma Qdiv_le_denom : forall c d n, (0 <= c)%Q -> (0 < d)%Q -> (d <= n)%Q -> (c / n <= c / d)%Q.
Proof.
  intros c d n Hc Hd Hdn.
  assert (Hn : (0 < n)%Q) by (eapply Qlt_le_trans; eassumption).
  apply Qle_shift_div_r; [exact Hn|].
  apply Qle_trans with (c / d * d)%Q.
  - rewrite Qmult_comm, Qmult_div_r; [apply Qle_refl|]. intros E. rewrite E in Hd. discriminate.
  - rewrite (Qmult_comm _ d), (Qmult_comm _ n). apply Qmult_le_compat_r; [exact Hdn|].
    apply Qle_shift_div_l; [exact Hd|]. rewrite Qmult_0_l. exact Hc.
Qed.

Lemma f1Of_value : forall p r, (0 <= p)%Q -> (p <= 1)%Q -> (0 <= r)%Q -> (r <= 1)%Q ->
  exists f, ExactVariant.f1Of (JNum p) (JNum r) = JNum f /\ (0 <= f)%Q /\ (f <= 1)%Q.
Proof.
  intros p r Hp0 Hp1 Hr0 Hr1. unfold ExactVariant.f1Of.
  assert (Hx : (0 <= 2 * (p * r))%Q).
  { apply Qmult_le_0_compat; [discriminate|apply Qmult_le_0_compat; assumption]. }
  assert (Hn : (0 <= p + r)%Q).
  { rewrite <- (Qplus_0_l 0). apply Qplus_le_compat; assumption. }
  assert (Hz : (p + r == 0)%Q -> (2 * (p * r) == 0)%Q).
  { intros E. assert (Ep : (p == 0)%Q).
    { apply Qle_antisym; [|exact Hp0]. rewrite <- E. rewrite <- (Qplus_0_r p) at 1.
      apply Qplus_le_compat; [apply Qle_refl|exact Hr0]. }
    rewrite Ep. ring. }
  destruct (orZero_jsDiv_value _ _ Hx Hn Hz) as [f [Hf Hc]].
  exists f. split; [exact Hf|].
  destruct Hc as [[E Ef]|[E Ef]].
  - rewrite Ef. split; [apply Qle_refl|discriminate].
  - assert (Hpos : (0 < p + r)%Q).
    { apply Qle_lt_or_eq in Hn. destruct Hn as [P|P]; [exact P|exfalso; apply E; symmetry; exact P]. }
    rewrite Ef. split.
    + apply Qle_shift_div_l; [exact Hpos|]. rewrite Qmult_0_l. exact Hx.
    + apply Qle_shift_div_r; [exact Hpos|].
      setoid_replace (2 * (p * r))%Q with (p * r + p * r)%Q by ring.
      setoid_replace (1 * (p + r))%Q with (p * 1 + 1 * r)%Q by ring.
      apply Qplus_le_compat.
      * apply Qmult_le_compat_nonneg; split; try assumption; apply Qle_refl.
      * apply Qmult_le_compat_nonneg; split; try assumption; apply Qle_refl.
Qed.

(** Extra property: in the first version of [part_004], precision,
    recall, F1 and accuracy are always numbers between 0 and 1, and
    accuracy never exceeds precision. *)
Theorem exact_metrics_bounds : forall preds gts m,
  ExactVariant.calculateMetrics preds gts = Some m ->
  exists p r f a,
    ExactVariant.precision m = JNum p /\ ExactVariant.recall m = JNum r /\
    ExactVariant.f1Score m = JNum f /\ ExactVariant.accuracy m = JNum a /\
    (0 <= p <= 1)%Q /\ (0 <= r <= 1)%Q /\ (0 <= f <= 1)%Q /\ (0 <= a)%Q /\ (a <= p)%Q.
Proof.
  intros preds gts m H. unfold ExactVariant.calculateMetrics in H.
  destruct (ExactVariant.processEntries _ _ _) as [[[tp fp] c]|] eqn:E; [|discriminate].
  simpl in H. injection H as <-. cbn [ExactVariant.precision ExactVariant.recall
    ExactVariant.f1Score ExactVariant.accuracy].
  apply exact_processEntries_inv in E as [E1 [E2 _]].
  pose proof (length_mapOfList_le pname preds) as Hl.
  destruct (nat_ratio_value tp (tp + fp) ltac:(lia)) as [p [-> [Hp0 [Hp1 Hp]]]].
  destruct (nat_ratio_value tp (tp + ExactVariant.countMissing (mapOfList pname preds) (mapOfList gname gts))
              ltac:(lia)) as [r [-> [Hr0 [Hr1 _]]]].
  destruct (nat_ratio_value c (List.length preds) ltac:(lia)) as [a [-> [Ha0 [Ha1 Ha]]]].
  destruct (f1Of_value p r Hp0 Hp1 Hr0 Hr1) as [f [-> [Hf0 Hf1]]].
  exists p, r, f, a. repeat split; try assumption; try reflexivity.
  destruct Ha as [[Et Ea]|[Et Ea]]; [rewrite Ea; exact Hp0|].
  destruct Hp as [[Ed Ep]|[Ed Ep]].
  - assert (c = 0) by lia. subst c. rewrite Ea. unfold Qdiv. rewrite Qmult_0_l. exact Hp0.
  - rewrite Ea, Ep. replace c with tp by lia. apply Qdiv_le_denom.
    + apply inject_nat_nonneg.
    + change 0%Q with (inject_Z 0). rewrite <- Zlt_Qlt. lia.
    + rewrite <- Zle_Qle. lia.
Qed.

Lemma exact_metrics_bounds_witness :
  exists m, ExactVariant.calculateMetrics [singlePrediction "number"; singlePrediction "string"]
              [gtNumber; {| gname := "h"; gtypes := typesRet "void" |}] = Some m /\
  exists p r f a,
    ExactVariant.precision m = JNum p /\ ExactVariant.recall m = JNum r /\
    ExactVariant.f1Score m = JNum f /\ ExactVariant.accuracy m = JNum a /\
    (0 <= p <= 1)%Q /\ (0 <= r <= 1)%Q /\ (0 <= f <= 1)%Q /\ (0 <= a)%Q /\ (a <= p)%Q.
Proof.
  eexists. split; [vm_compute; reflexivity|].
  apply (exact_metrics_bounds [singlePrediction "number"; singlePrediction "string"]
           [gtNumber; {| gname := "h"; gtypes := typesRet "void" |}]).
  vm_compute. reflexivity.
Defined.

(** *** The earlier [calculateMetrics] of [part_004] *)

Lemma earlier_processEntries_inv : forall fuel gm es c t i c' t' i',
  EarlierVariant.processEntries fuel gm (c, t, i) es = Some (c', t', i') ->
  c' <= c + List.length es /\ i <= i' /\ i' <= i + List.length es /\ (t <= t')%Q /\
  (t' + inject_Z (Z.of_nat i) <= t + inject_Z (Z.of_nat i'))%Q.
Proof.
  intros fuel gm es. induction es as [|[name pred] es IH]; intros c t i c' t' i' H.
  - simpl in H. injection H as <- <- <-. simpl. repeat split; try lia; apply Qle_refl.
  - cbn [EarlierVariant.processEntries] in H. unfold bindE at 1 in H.
    unfold EarlierVariant.processEntry in H. cbn [List.length].
    destruct (mapGet name gm) as [gt|];
      [|apply IH in H as [A [B [C [D F]]]]; repeat split; try lia; assumption].
    destruct (ptypes pred) as [ty|]; [|discriminate]. simpl in H.
    assert (Hstep : forall c1 t1 i1, EarlierVariant.processEntries fuel gm (c1, t1, i1) es = Some (c', t', i') ->
              c1 <= S c -> i <= i1 <= S i -> (t <= t1)%Q ->
              (t1 + inject_Z (Z.of_nat i) <= t + inject_Z (Z.of_nat i1))%Q ->
              c' <= c + S (List.length es) /\ i <= i' /\ i' <= i + S (List.length es) /\ (t <= t')%Q /\
              (t' + inject_Z (Z.of_nat i) <= t + inject_Z (Z.of_nat i'))%Q).
    { intros c1 t1 i1 H1 Hc Hi Ht Hti. apply IH in H1 as [A [B [C [D F]]]].
      repeat split; try lia.
      - eapply Qle_trans; eassumption.
      - apply Qplus_le_l with (inject_Z (Z.of_nat i1)).
        apply Qle_trans with (t1 + inject_Z (Z.of_nat i') + inject_Z (Z.of_nat i))%Q.
        + setoid_replace (t' + inject_Z (Z.of_nat i) + inject_Z (Z.of_nat i1))%Q
            with (t' + inject_Z (Z.of_nat i1) + inject_Z (Z.of_nat i))%Q by ring.
          apply Qplus_le_compat; [exact F|apply Qle_refl].
        + setoid_replace (t1 + inject_Z (Z.of_nat i') + inject_Z (Z.of_nat i))%Q
            with (t1 + inject_Z (Z.of_nat i) + inject_Z (Z.of_nat i'))%Q by ring.
          setoid_replace (t + inject_Z (Z.of_nat i') + inject_Z (Z.of_nat i1))%Q
            with (t + inject_Z (Z.of_nat i1) + inject_Z (Z.of_nat i'))%Q by ring.
          apply Qplus_le_compat; [exact Hti|apply Qle_refl]. }
    destruct (ret ty) as [| |l].
    1-2: destruct (typesMatch fuel ty (gtypes gt)) as [[|]|]; simpl in H; try discriminate;
      [eapply (Hstep (S c) (t + 1)%Q (S i)); [exact H|lia|lia| |]
      |eapply (Hstep c t i); [exact H|lia|lia|apply Qle_refl|apply Qle_refl]];
      [rewrite <- (Qplus_0_r t) at 1; apply Qplus_le_compat; [apply Qle_refl|discriminate]
      |rewrite Nat2Z.inj_succ, <- Z.add_1_r, inject_Z_plus;
       setoid_replace (t + 1 + inject_Z (Z.of_nat i))%Q with (t + (inject_Z (Z.of_nat i) + inject_Z 1))%Q by ring;
       apply Qle_refl].
    destruct (typesMatch fuel _ (gtypes gt)) as [first|]; [|discriminate]. simpl in H.
    destruct (EarlierVariant.firstMatchIndex fuel ty (gtypes gt) l 0) as [[j|]|]; [| |discriminate]; simpl in H.
    + assert (Hr0 : (0 <= 1 / inject_Z (Z.of_nat (S j)))%Q).
      { apply Qle_shift_div_l; [|rewrite Qmult_0_l; discriminate].
        change 0%Q with (inject_Z 0). rewrite <- Zlt_Qlt. lia. }
      assert (Hr1 : (1 / inject_Z (Z.of_nat (S j)) <= 1)%Q).
      { apply Qle_shift_div_r; [change 0%Q with (inject_Z 0); rewrite <- Zlt_Qlt; lia|].
        rewrite Qmult_1_l. change 1%Q with (inject_Z 1). rewrite <- Zle_Qle. lia. }
      eapply Hstep; [exact H|destruct first; lia|lia| |].
      * rewrite <- (Qplus_0_r t) at 1. apply Qplus_le_compat; [apply Qle_refl|exact Hr0].
      * rewrite Nat2Z.inj_succ, <- Z.add_1_r, inject_Z_plus.
        setoid_replace (t + 1 / inject_Z (Z.of_nat (S j)) + inject_Z (Z.of_nat i))%Q
          with (t + inject_Z (Z.of_nat i) + 1 / inject_Z (Z.of_nat (S j)))%Q by ring.
        setoid_replace (t + (inject_Z (Z.of_nat i) + inject_Z 1))%Q
          with (t + inject_Z (Z.of_nat i) + 1)%Q by ring.
        apply Qplus_le_compat; [apply Qle_refl|exact Hr1].
    + eapply Hstep; [exact H|destruct first; lia|lia|apply Qle_refl|apply Qle_refl].
Qed.

Lemma Qratio_unit : forall x n, (0 <= x)%Q -> (x <= n)%Q -> (0 < n)%Q -> (0 <= x / n <= 1)%Q.
Proof.
  intros x n Hx Hxn Hn. split.
  - apply Qle_shift_div_l; [exact Hn|]. rewrite Qmult_0_l. exact Hx.
  - apply Qle_shift_div_r; [exact Hn|]. rewrite Qmult_1_l. exact Hxn.
Qed.

(** Extra property: the earlier [calculateMetrics] of [part_004] never
    counts more correct predictions than predictions, and its accuracy
    and mrr are numbers between 0 and 1, although it divides by the
    number of predictions while it counts each name once. *)
Theorem earlier_metrics_bounds : forall fuel preds gts m,
  EarlierVariant.calculateMetrics fuel preds gts = Some m ->
  correctPredictions m <= totalPredictions m /\
  exists a b, accuracy m = JNum a /\ mrr m = JNum b /\ (0 <= a <= 1)%Q /\ (0 <= b <= 1)%Q.
Proof.
  intros fuel preds gts m H. unfold EarlierVariant.calculateMetrics in H.
  destruct (EarlierVariant.processEntries _ _ _ _) as [[[c t] i]|] eqn:E; [|discriminate].
  simpl in H. injection H as <-. cbn [correctPredictions totalPredictions accuracy mrr].
  apply earlier_processEntries_inv in E as [Ec [_ [Ei [Et Eti]]]].
  pose proof (length_mapOfList_le pname preds) as Hl.
  split; [lia|].
  assert (Hc : (inject_Z (Z.of_nat c) <= inject_Z (Z.of_nat (List.length preds)))%Q)
    by (rewrite <- Zle_Qle; lia).
  assert (Hti : (t <= inject_Z (Z.of_nat (List.length preds)))%Q).
  { apply Qle_trans with (inject_Z (Z.of_nat i)).
    - rewrite <- (Qplus_0_r t), <- (Qplus_0_l (inject_Z (Z.of_nat i))). exact Eti.
    - rewrite <- Zle_Qle. lia. }
  assert (Hunit : (0 <= 0 <= 1)%Q) by (split; [apply Qle_refl|discriminate]).
  assert (Hpos : 0 < List.length preds -> (0 < inject_Z (Z.of_nat (List.length preds)))%Q).
  { intros P. change 0%Q with (inject_Z 0). rewrite <- Zlt_Qlt. lia. }
  exists (if Nat.ltb 0 (List.length preds)
          then inject_Z (Z.of_nat c) / inject_Z (Z.of_nat (List.length preds)) else 0)%Q.
  exists (if Nat.ltb 0 i then t / inject_Z (Z.of_nat (List.length preds)) else 0)%Q.
  split; [destruct (Nat.ltb 0 (List.length preds)); reflexivity|].
  split; [destruct (Nat.ltb 0 i); reflexivity|].
  split.
  - destruct (Nat.ltb 0 (List.length preds)) eqn:Ht0; [|exact Hunit].
    apply Nat.ltb_lt in Ht0. apply Qratio_unit; [apply inject_nat_nonneg|exact Hc|exact (Hpos Ht0)].
  - destruct (Nat.ltb 0 i) eqn:Hi0; [|exact Hunit].
    apply Nat.ltb_lt in Hi0. apply Qratio_unit; [exact Et|exact Hti|apply Hpos; lia].
Qed.

Lemma earlier_metrics_bounds_witness :
  exists m, EarlierVariant.calculateMetrics 3 [arrayReturnPrediction ["string"; "number"]; singlePrediction "number"]
              [gtNumber] = Some m /\
  correctPredictions m <= totalPredictions m /\
  exists a b, accuracy m = JNum a /\ mrr m = JNum b /\ (0 <= a <= 1)%Q /\ (0 <= b <= 1)%Q.
Proof.
  eexists. split; [vm_compute; reflexivity|].
  apply (earlier_metrics_bounds 3 [arrayReturnPrediction ["string"; "number"]; singlePrediction "number"] [gtNumber]).
  vm_compute. reflexivity.
Defined.

(** *** [typesMatch] on identical shapes, and what the metrics read *)

Lemma forallb_ext_in : forall {A} (f g : A -> bool) l,
  (forall x, In x l -> f x = g x) -> forallb f l = forallb g l.
Proof.
  intros A f g l H. induction l as [|x l IH]; simpl; [reflexivity|].
  rewrite (H x (or_introl eq_refl)), IH; [reflexivity|]. intros y Hy. apply H. right. exact Hy.
Qed.

(** Extra property: a shape without an array [return] whose parameter
    names are distinct matches itself exactly when none of its
    parameter types is the empty string: [!predParams[paramName]]
    rejects an empty type even when the ground truth has the same. *)
Theorem typesMatch_self : forall k t,
  (forall l, ret t <> RArr l) ->
  (forall pp, params t = Some pp -> NoDup (map fst pp)) ->
  typesMatch (S k) t t =
  Some (match params t with
        | Some pp => forallb (fun '(_, v) => negb (String.eqb v "")) pp
        | None => true
        end).
Proof.
  intros k t Hr Hp. unfold typesMatch.
  assert (Hok : (if retTruthy (ret t) && retTruthy (ret t)
                 then compatRet (S k) (ret t) (ret t) else Some true) = Some true).
  { destruct (ret t) as [|s|l] eqn:E; unfold retTruthy.
    - reflexivity.
    - destruct (negb (String.eqb s "")); [|reflexivity]. cbn [andb]. unfold compatRet.
      rewrite isSC_refl. reflexivity.
    - exfalso. exact (Hr l eq_refl). }
  rewrite Hok. destruct (params t) as [pp|]; [|reflexivity].
  specialize (Hp pp eq_refl). f_equal. unfold paramsMatch.
  assert (E1 : forallb (fun '(paramName, gtType) =>
      match mapGet paramName pp with
      | Some predType => negb (String.eqb predType "") && isStructurallyCompatible (S k) predType gtType
      | None => false
      end) pp = forallb (fun '(_, v) => negb (String.eqb v "")) pp).
  { apply forallb_ext_in. intros [n v] Hin. rewrite (In_mapGet n v pp Hp Hin), isSC_refl, andb_true_r.
    reflexivity. }
  assert (E2 : forallb (fun '(paramName, _) => paramTruthy pp paramName) pp
               = forallb (fun '(_, v) => negb (String.eqb v "")) pp).
  { apply forallb_ext_in. intros [n v] Hin. unfold paramTruthy. rewrite (In_mapGet n v pp Hp Hin).
    reflexivity. }
  rewrite E1, E2. apply andb_diag.
Qed.

Lemma typesMatch_self_witness :
  typesMatch 1 {| ret := RStr "void"; params := Some [("x", ""); ("y", "number")] |}
               {| ret := RStr "void"; params := Some [("x", ""); ("y", "number")] |} = Some false.
Proof.
  change (Some false) with
    (Some (match params {| ret := RStr "void"; params := Some [("x", ""); ("y", "number")] |} with
           | Some pp => forallb (fun '(_, v) => negb (String.eqb v "")) pp
           | None => true
           end)).
  apply typesMatch_self.
  - intros l E. discriminate.
  - intros pp E. injection E as <-. vm_compute. repeat constructor; simpl; intuition discriminate.
Defined.

(** Extra property: the rank loop stops at the first matching
    candidate: candidates after it are never examined, so appending
    candidates (even ones that would throw) does not change the rank. *)
Theorem findRank_stops_at_match : forall fuel cands rest gt r,
  findRank fuel cands gt = Some (Some r) ->
  findRank fuel (cands ++ rest)%list gt = Some (Some r).
Proof.
  intros fuel cands rest gt. induction cands as [|c cs IH]; intros r H; simpl in *; [discriminate|].
  destruct (typesMatch fuel c gt) as [[|]|]; simpl in *; [exact H| |discriminate].
  destruct (findRank fuel cs gt) as [[r'|]|]; simpl in H; try discriminate.
  injection H as <-. rewrite (IH r' eq_refl). reflexivity.
Qed.

Lemma findRank_stops_at_match_witness :
  findRank 3 [typesRet "string"; typesRet "number"] (typesRet "number") = Some (Some 2) /\
  findRank 3 ([typesRet "string"; typesRet "number"] ++ [{| ret := RArr []; params := None |}])%list
    (typesRet "number") = Some (Some 2).
Proof.
  assert (H : findRank 3 [typesRet "string"; typesRet "number"] (typesRet "number") = Some (Some 2))
    by (vm_compute; reflexivity).
  split; [exact H|]. exact (findRank_stops_at_match _ _ _ _ _ H).
Defined.

(** Extra property: [calculateMetrics] never reads the [types] of a
    prediction that has [candidates]: predictions that differ only there
    give the same result. *)
Theorem metrics_ignore_types_with_candidates : forall fuel preds preds' gts,
  Forall2 (fun p p' => pname p = pname p' /\ candidates p = candidates p' /\
                       (candidates p = None -> ptypes p = ptypes p')) preds preds' ->
  calculateMetrics fuel preds gts = calculateMetrics fuel preds' gts.
Proof.
  intros fuel preds preds' gts H. unfold calculateMetrics.
  assert (Hp : forall acc, processAll fuel (mapOfList gname gts) acc preds
                         = processAll fuel (mapOfList gname gts) acc preds').
  { induction H as [|p p' l l' [En [Ec Et]] _ IH]; intros acc; [reflexivity|].
    cbn [processAll].
    assert (E : processPrediction fuel (mapOfList gname gts) acc p
                = processPrediction fuel (mapOfList gname gts) acc p').
    { unfold processPrediction. destruct acc as [c t]. rewrite En, Ec.
      destruct (candidates p') as [cands|]; [reflexivity|]. rewrite (Et Ec). reflexivity. }
    rewrite E. unfold bindE. destruct (processPrediction _ _ _ p'); [apply IH|reflexivity]. }
  rewrite Hp, (Forall2_length H). reflexivity.
Qed.

Lemma metrics_ignore_types_with_candidates_witness :
  calculateMetrics 3 [rankedPrediction ["string"; "number"]] [gtNumber] =
  calculateMetrics 3 [{| pname := pname (rankedPrediction ["string"; "number"]);
                         ptypes := Some {| ret := RArr []; params := None |};
                         candidates := candidates (rankedPrediction ["string"; "number"]) |}] [gtNumber].
Proof.
  apply metrics_ignore_types_with_candidates. constructor; [|constructor].
  split; [reflexivity|split; [reflexivity|]]. intros E. vm_compute in E. discriminate.
Defined.

(** *** Array suffixes *)

Lemma strlen_app : forall a b, String.length (a ++ b) = String.length a + String.length b.
Proof. induction a as [|c a IH]; intros b; simpl; [reflexivity|]. rewrite IH. reflexivity. Qed.

Lemma string_app_assoc : forall a b c, a ++ (b ++ c) = (a ++ b) ++ c.
Proof. induction a as [|x a IH]; intros b c; simpl; [reflexivity|]. rewrite IH. reflexivity. Qed.

Lemma substring_app_l : forall a b, substring 0 (String.length a) (a ++ b) = a.
Proof. induction a as [|c a IH]; intros b; simpl; [destruct b; reflexivity|]. rewrite IH. reflexivity. Qed.

Lemma substring_full : forall s, substring 0 (String.length s) s = s.
Proof. induction s as [|c s IH]; simpl; [reflexivity|]. rewrite IH. reflexivity. Qed.

Lemma substring_app_r : forall a b m, substring (String.length a) m (a ++ b) = substring 0 m b.
Proof. induction a as [|c a IH]; intros b m; simpl; [reflexivity|]. destruct m; apply IH. Qed.

Lemma endsWith_app : forall pre suf, endsWith suf (pre ++ suf) = true.
Proof.
  intros pre suf. unfold endsWith. rewrite strlen_app.
  replace (String.length pre + String.length suf - String.length suf) with (String.length pre) by lia.
  rewrite substring_app_r, substring_full, String.eqb_refl, andb_true_r.
  apply Nat.leb_le. lia.
Qed.

Lemma toLowerCase_app : forall a b, toLowerCase (a ++ b) = toLowerCase a ++ toLowerCase b.
Proof. induction a as [|c a IH]; intros b; simpl; [reflexivity|]. rewrite IH. reflexivity. Qed.

Lemma removeSpaces_app : forall a b, removeSpaces (a ++ b) = removeSpaces a ++ removeSpaces b.
Proof.
  induction a as [|c a IH]; intros b; simpl; [reflexivity|]. destruct (isSpace c); rewrite IH; reflexivity.
Qed.

Lemma mapChars_app : forall f a b, mapChars f (a ++ b) = mapChars f a ++ mapChars f b.
Proof. intros f. induction a as [|c a IH]; intros b; simpl; [reflexivity|]. rewrite IH. reflexivity. Qed.

Lemma litMatcher_two : forall rep c d r,
  litMatcher "[]" rep (String c (String d r)) =
  if Ascii.eqb c "[" && Ascii.eqb d "]" then Some (rep, r) else None.
Proof.
  intros rep c d r. unfold litMatcher. cbn [prefix].
  destruct (ascii_dec "[" c) as [Hc|Hc]; destruct (Ascii.eqb_spec c "[") as [Hc'|Hc'];
    try congruence; cbn [andb]; [|reflexivity].
  destruct (ascii_dec "]" d) as [Hd|Hd]; destruct (Ascii.eqb_spec d "]") as [Hd'|Hd'];
    try congruence; destruct r; reflexivity.
Qed.

Lemma litMatcher_one : forall rep c, litMatcher "[]" rep (String c EmptyString) = None.
Proof. intros rep c. unfold litMatcher. cbn [prefix]. destruct (ascii_dec "[" c); reflexivity. Qed.

Lemma scan_pair_fuel : forall k k' s, String.length s <= k -> String.length s <= k' ->
  scan (litMatcher "[]" "array") k s = scan (litMatcher "[]" "array") k' s.
Proof.
  induction k as [|k IH]; intros k' s Hk Hk'.
  - destruct s; [destruct k'; reflexivity|simpl in Hk; lia].
  - destruct k' as [|k']; [destruct s; [reflexivity|simpl in Hk'; lia]|].
    destruct s as [|c s']; [reflexivity|]. simpl.
    destruct (litMatcher "[]" "array" (String c s')) as [[out rest]|] eqn:E.
    + apply litMatcher_pair_out in E as [-> ->]. f_equal. apply IH;
        destruct s' as [|d s'']; simpl in *; try lia; pose proof (length_drop 0 s''); lia.
    + simpl in Hk, Hk'. rewrite (IH k' s') by lia. reflexivity.
Qed.

Lemma scan_pair_app : forall k x, String.length x + 2 <= k ->
  scan (litMatcher "[]" "array") k (x ++ "[]") = scan (litMatcher "[]" "array") k x ++ "array".
Proof.
  induction k as [|k IH]; intros x Hk; [simpl in Hk; lia|].
  destruct x as [|c [|d x'']].
  - change ("" ++ "[]") with "[]". cbn [scan]. rewrite litMatcher_two. simpl. destruct k; reflexivity.
  - simpl in Hk. change (String c "" ++ "[]") with (String c "[]"). cbn [scan].
    rewrite litMatcher_two, litMatcher_one.
    replace (Ascii.eqb "[" "]") with false by reflexivity. rewrite andb_false_r.
    assert (H0 : scan (litMatcher "[]" "array") k "[]" = scan (litMatcher "[]" "array") k "" ++ "array")
      by (apply (IH ""); simpl; lia).
    rewrite H0. reflexivity.
  - simpl in Hk. change (String c (String d x'') ++ "[]") with (String c (String d (x'' ++ "[]"))).
    cbn [scan].
    rewrite !litMatcher_two. destruct (Ascii.eqb c "[" && Ascii.eqb d "]").
    + replace (String.length x'' + 2) with (S (S (String.length x''))) in Hk by lia.
      rewrite (IH x'') by lia. rewrite string_app_assoc. reflexivity.
    + change (String d (x'' ++ "[]")) with (String d x'' ++ "[]").
      rewrite (IH (String d x'')) by (simpl; lia). reflexivity.
Qed.

Lemma normalizeType_array_suffix : forall e, allChars plainChar e = true ->
  normalizeType (e ++ "[]") = normalizeType e ++ "array".
Proof.
  intros e He.
  assert (He' : allChars plainChar (e ++ "[]") = true) by (rewrite allChars_app, He; reflexivity).
  destruct (normalizeType_plain (e ++ "[]") He') as [_ [_ ->]].
  destruct (normalizeType_plain e He) as [_ [_ ->]].
  rewrite toLowerCase_app, removeSpaces_app.
  change (removeSpaces (toLowerCase "[]")) with "[]".
  set (x := removeSpaces (toLowerCase e)).
  unfold replaceAll. rewrite strlen_app. change (String.length "[]") with 2.
  rewrite scan_pair_app by lia.
  rewrite (scan_pair_fuel (String.length x + 2) (String.length x) x) by lia.
  rewrite mapChars_app. reflexivity.
Qed.

Lemma normalizeType_plain_normChar : forall e, allChars plainChar e = true ->
  allChars normChar (normalizeType e) = true.
Proof.
  intros e He. destruct (normalizeType_plain e He) as [H3 [_ ->]].
  apply (allChars_mapChars_to normChar); [exact normChar_separatorChar|exact H3].
Qed.

Lemma normalizeType_plain_idem : forall t,
  allChars plainChar t = true -> normalizeType (normalizeType t) = normalizeType t.
Proof.
  intros t Ht. destruct (normalizeType_plain t Ht) as [H3 [Hn3 ->]].
  set (s3 := replaceAll (litMatcher "[]" "array") (removeSpaces (toLowerCase t))) in *.
  set (n := mapChars separatorChar s3).
  assert (Hn : allChars normChar n = true).
  { apply (allChars_mapChars_to normChar); [exact normChar_separatorChar|exact H3]. }
  assert (Hpn : allChars plainChar n = true) by (apply normChar_plain; exact Hn).
  unfold normalizeType. cbv zeta.
  rewrite (toLowerCase_id n) by (apply normChar_noUpper; exact Hn).
  rewrite (removeSpaces_id n) by (apply normChar_noSpace; exact Hn).
  unfold replaceAll.
  rewrite (scan_id (litMatcher "[]" "array") (fun s => noPair s = true) noPair_tail
             (litMatcher_noPair _) _ n) by (unfold n; rewrite noPair_mapChars_separator; exact Hn3).
  rewrite (scan_id (genericMatcher "array" (fun g => g ++ "array")) (fun s => allChars plainChar s = true)
             (allChars_tail plainChar) (genericMatcher_plain _ _) _ n Hpn).
  rewrite (scan_id (litMatcher "{}" "object") (fun s => allChars plainChar s = true)
             (allChars_tail plainChar) (litMatcher_plain _) _ n Hpn).
  rewrite (scan_id (genericMatcher "promise" (fun _ => "promise")) (fun s => allChars plainChar s = true)
             (allChars_tail plainChar) (genericMatcher_plain _ _) _ n Hpn).
  unfold n. rewrite mapChars_separator_idem. fold n.
  apply (scan_id objectMatcher (fun s => allChars plainChar s = true)
           (allChars_tail plainChar) objectMatcher_plain). exact Hpn.
Qed.

Lemma isObjectType_plain : forall s, allChars plainChar s = true -> isObjectType s = false.
Proof.
  intros [|c s] H; [reflexivity|]. unfold isObjectType, startsWith. cbn [prefix].
  destruct (ascii_dec "{" c) as [<-|_]; [discriminate|reflexivity].
Qed.

Lemma includesChar_app : forall c a b, includesChar c (a ++ b) = includesChar c a || includesChar c b.
Proof.
  intros c. induction a as [|d a IH]; intros b; simpl; [reflexivity|]. rewrite IH. apply orb_assoc.
Qed.

Lemma string_app_inj_tail : forall a b c, a ++ c = b ++ c -> a = b.
Proof.
  induction a as [|x a IH]; intros [|y b] c H; simpl in H; try reflexivity.
  - exfalso. apply (f_equal String.length) in H. simpl in H. rewrite strlen_app in H. lia.
  - exfalso. apply (f_equal String.length) in H. simpl in H. rewrite strlen_app in H. lia.
  - injection H as -> H. f_equal. exact (IH _ _ H).
Qed.

Lemma extractArrayElementType_suffix : forall n, extractArrayElementType (n ++ "array") = n.
Proof.
  intros n. unfold extractArrayElementType. rewrite endsWith_app. unfold sliceEnd.
  rewrite strlen_app. change (String.length "array") with 5.
  replace (String.length n + 5 - 5) with (String.length n) by lia. apply substring_app_l.
Qed.

(** Extra property: two array types written with the [[]] suffix are
    compared element by element: for element types without [<], [{]
    and (on the ground-truth side) [|], [T[]] is compatible with [U[]]
    exactly when [T] is compatible with [U], one level deeper. *)
Theorem isStructurallyCompatible_array_suffix : forall k e1 e2,
  allChars plainChar e1 = true -> allChars plainChar e2 = true -> includesChar "|" e2 = false ->
  isStructurallyCompatible (S (S k)) (e1 ++ "[]") (e2 ++ "[]") = isStructurallyCompatible (S k) e1 e2.
Proof.
  intros k e1 e2 H1 H2 Hb.
  rewrite (isSC_step (S k) (e1 ++ "[]") (e2 ++ "[]")). cbv zeta.
  rewrite !normalizeType_array_suffix by assumption.
  destruct (String.eqb (normalizeType e1 ++ "array") (normalizeType e2 ++ "array")) eqn:E.
  - apply String.eqb_eq, string_app_inj_tail in E.
    rewrite isSC_step. cbv zeta. rewrite E, String.eqb_refl. reflexivity.
  - rewrite (isObjectType_plain (normalizeType e1 ++ "array"))
      by (rewrite allChars_app, (normChar_plain _ (normalizeType_plain_normChar e1 H1)); reflexivity).
    unfold isUnionType. rewrite includesChar_app, (normalizeType_no_bar e2 Hb).
    unfold isArrayType. rewrite !endsWith_app. cbn [andb orb].
    rewrite !extractArrayElementType_suffix.
    apply isSC_congr; apply normalizeType_plain_idem; assumption.
Qed.

Lemma isStructurallyCompatible_array_suffix_witness :
  allChars plainChar "Number" = true /\ allChars plainChar "number" = true /\
  includesChar "|" "number" = false /\
  isStructurallyCompatible 3 ("Number" ++ "[]") ("number" ++ "[]") = isStructurallyCompatible 2 "Number" "number".
Proof.
  split; [reflexivity|split; [reflexivity|split; [reflexivity|]]].
  apply isStructurallyCompatible_array_suffix; reflexivity.
Defined.

Lemma string_app_nil_r : forall s, s ++ "" = s.
Proof. induction s as [|c s IH]; simpl; [reflexivity|rewrite IH; reflexivity]. Qed.

Lemma scan_empty : forall m k, scan m k "" = "".
Proof. intros m [|k]; reflexivity. Qed.

Lemma scan_first_match : forall m k s out rest, s <> "" -> m s = Some (out, rest) ->
  scan m (S k) s = out ++ scan m k rest.
Proof. intros m k [|c s] out rest Hs E; [congruence|]. cbn [scan]. rewrite E. reflexivity. Qed.

Lemma litMatcher_not_open : forall rep c r, Ascii.eqb c "[" = false ->
  litMatcher "[]" rep (String c r) = None.
Proof.
  intros rep c r H. unfold litMatcher. cbn [prefix].
  destruct (ascii_dec "[" c) as [<-|_]; [rewrite Ascii.eqb_refl in H; discriminate|reflexivity].
Qed.

Lemma scan_pair_prefix : forall p b k,
  allChars (fun c => negb (Ascii.eqb c "[")) p = true -> String.length p <= k ->
  scan (litMatcher "[]" "array") k (p ++ b) =
  p ++ scan (litMatcher "[]" "array") (k - String.length p) b.
Proof.
  induction p as [|c p IH]; intros b k Hp Hk.
  - simpl. rewrite Nat.sub_0_r. reflexivity.
  - destruct k as [|k]; [simpl in Hk; lia|]. simpl in Hp, Hk.
    apply andb_prop in Hp as [Hc Hp]. apply negb_true_iff in Hc.
    change (String c p ++ b) with (String c (p ++ b)). cbn [scan].
    rewrite litMatcher_not_open by exact Hc. rewrite IH by (assumption || lia). reflexivity.
Qed.

Lemma scan_pair_app_safe : forall k x suf, headIs "]" suf = false -> noPair suf = true ->
  scan (litMatcher "[]" "array") k (x ++ suf) = scan (litMatcher "[]" "array") k x ++ suf.
Proof.
  induction k as [|k IH]; intros x suf Hh Hn; [reflexivity|].
  destruct x as [|c [|d x'']].
  - change ("" ++ suf) with suf.
    rewrite (scan_id _ (fun s => noPair s = true) noPair_tail (litMatcher_noPair _) (S k) suf Hn).
    reflexivity.
  - change (String c "" ++ suf) with (String c suf). cbn [scan]. rewrite litMatcher_one.
    destruct suf as [|d r].
    + rewrite litMatcher_one, scan_empty. reflexivity.
    + rewrite litMatcher_two. simpl in Hh. rewrite Hh, andb_false_r, scan_empty.
      rewrite (scan_id _ (fun s => noPair s = true) noPair_tail (litMatcher_noPair _) k _ Hn).
      reflexivity.
  - change (String c (String d x'') ++ suf) with (String c (String d (x'' ++ suf))).
    cbn [scan]. rewrite !litMatcher_two. destruct (Ascii.eqb c "[" && Ascii.eqb d "]").
    + rewrite (IH x'' suf Hh Hn), string_app_assoc. reflexivity.
    + change (String d (x'' ++ suf)) with (String d x'' ++ suf).
      rewrite IH by assumption. reflexivity.
Qed.

Lemma prefix_app_self : forall p r, prefix p (p ++ r) = true.
Proof.
  induction p as [|c p IH]; intros r; [destruct r; reflexivity|].
  cbn [prefix String.append]. destruct (ascii_dec c c) as [_|n]; [apply IH|contradiction].
Qed.

Lemma drop_app_len : forall p r, drop (String.length p) (p ++ r) = r.
Proof. induction p as [|c p IH]; intros r; simpl; [reflexivity|apply IH]. Qed.

Lemma breakAt_app_char : forall c x r, includesChar c x = false ->
  breakAt c (x ++ String c r) = (x, Some r).
Proof.
  intros c; induction x as [|d x IH]; intros r H.
  - cbn [breakAt String.append]. rewrite Ascii.eqb_refl. reflexivity.
  - simpl in H. apply orb_false_iff in H as [Hd H].
    cbn [breakAt String.append]. rewrite Hd, IH by exact H. reflexivity.
Qed.

Lemma genericMatcher_array_whole : forall f x r, x <> "" -> includesChar ">" x = false ->
  genericMatcher "array" f ("array<" ++ (x ++ String ">" r)) = Some (f x, r).
Proof.
  intros f x r Hx Hg. unfold genericMatcher. cbv beta.
  change ("array" ++ "<") with "array<". rewrite prefix_app_self.
  change (String.length "array" + 1) with (String.length "array<").
  rewrite drop_app_len, breakAt_app_char by exact Hg.
  destruct x; [congruence|reflexivity].
Qed.

Lemma scan_pair_nonempty : forall k s, s <> "" -> 1 <= k -> scan (litMatcher "[]" "array") k s <> "".
Proof.
  intros [|k] [|c s] Hs Hk; try congruence; [lia|]. cbn [scan].
  destruct (litMatcher "[]" "array" (String c s)) as [[out rest]|] eqn:E; [|discriminate].
  apply litMatcher_pair_out in E as [-> _]. discriminate.
Qed.

Lemma toLowerCase_nonempty : forall s, s <> "" -> toLowerCase s <> "".
Proof. intros [|c s] H; [congruence|discriminate]. Qed.

(** Extra property: the two spellings of an array type normalize to the
    same string: for an element type [T] with at least one non-space
    character and no [<], [{] or [>], [Array<T>] and [T[]] have the same
    [normalizeType]. *)
Theorem normalizeType_generic_array : forall T,
  allChars plainChar T = true -> includesChar ">" T = false -> removeSpaces T <> "" ->
  normalizeType ("Array<" ++ T ++ ">") = normalizeType (T ++ "[]").
Proof.
  intros T Hp Hg Hne.
  rewrite normalizeType_array_suffix by exact Hp.
  destruct (normalizeType_plain T Hp) as [H3 [_ ->]].
  set (y := removeSpaces (toLowerCase T)) in *.
  set (x := replaceAll (litMatcher "[]" "array") y) in *.
  assert (Hy : y <> "") by (unfold y; rewrite <- toLowerCase_removeSpaces;
                           apply toLowerCase_nonempty; exact Hne).
  assert (Hgy : includesChar ">" y = false).
  { rewrite includesChar_allChars in Hg |- *. apply negb_false_iff in Hg. apply negb_false_iff.
    unfold y. apply allChars_removeSpaces. rewrite toLowerCase_mapChars.
    apply allChars_mapChars; [|exact Hg].
    intros c Hc. rewrite lowerChar_eqb by reflexivity. exact Hc. }
  assert (Hgx : includesChar ">" x = false).
  { rewrite includesChar_allChars in Hgy |- *. apply negb_false_iff in Hgy. apply negb_false_iff.
    unfold x, replaceAll. apply allChars_scan; [|exact Hgy].
    intros s out rest E Hs. apply litMatcher_pair_out in E as [-> ->].
    split; [reflexivity|apply allChars_drop; exact Hs]. }
  assert (Hx : x <> "").
  { unfold x, replaceAll. apply scan_pair_nonempty; [exact Hy|].
    destruct y; [congruence|simpl; lia]. }
  unfold normalizeType. cbv zeta.
  rewrite !toLowerCase_app, !removeSpaces_app.
  change (removeSpaces (toLowerCase "Array<")) with "array<".
  change (removeSpaces (toLowerCase ">")) with ">". fold y.
  assert (E3 : replaceAll (litMatcher "[]" "array") ("array<" ++ (y ++ ">")) = "array<" ++ (x ++ ">")).
  { unfold replaceAll. rewrite scan_pair_prefix by (reflexivity || (rewrite !strlen_app; simpl; lia)).
    f_equal. rewrite scan_pair_app_safe by reflexivity. f_equal.
    unfold x, replaceAll. apply scan_pair_fuel; rewrite ?strlen_app; simpl; lia. }
  rewrite E3.
  assert (E4 : replaceAll (genericMatcher "array" (fun g => g ++ "array")) ("array<" ++ (x ++ ">"))
               = x ++ "array").
  { unfold replaceAll. rewrite strlen_app. change (String.length "array<") with (S 5). cbn [Nat.add].
    rewrite (scan_first_match _ _ _ (x ++ "array") "").
    - rewrite scan_empty. apply string_app_nil_r.
    - discriminate.
    - apply (genericMatcher_array_whole (fun g => g ++ "array") x ""); assumption. }
  rewrite E4.
  assert (Hnx : allChars normChar (x ++ "array") = true) by (rewrite allChars_app, H3; reflexivity).
  assert (Hpx : allChars plainChar (x ++ "array") = true) by (apply normChar_plain; exact Hnx).
  unfold replaceAll.
  rewrite (scan_id (litMatcher "{}" "object") (fun s => allChars plainChar s = true)
             (allChars_tail plainChar) (litMatcher_plain _) _ _ Hpx).
  rewrite (scan_id (genericMatcher "promise" (fun _ => "promise")) (fun s => allChars plainChar s = true)
             (allChars_tail plainChar) (genericMatcher_plain _ _) _ _ Hpx).
  rewrite (scan_id objectMatcher (fun s => allChars plainChar s = true)
             (allChars_tail plainChar) objectMatcher_plain).
  - rewrite mapChars_app. reflexivity.
  - apply normChar_plain. apply (allChars_mapChars_to normChar); [exact normChar_separatorChar|exact Hnx].
Qed.

Lemma normalizeType_generic_array_witness :
  allChars plainChar "string | null" = true /\ includesChar ">" "string | null" = false /\
  removeSpaces "string | null" <> "" /\
  normalizeType ("Array<" ++ "string | null" ++ ">") = normalizeType ("string | null" ++ "[]").
Proof.
  split; [reflexivity|split; [reflexivity|split; [discriminate|]]].
  apply normalizeType_generic_array; [reflexivity|reflexivity|discriminate].
Defined.

Lemma mapSet_absent : forall {V} k (v : V) m, ~ In k (map fst m) -> mapSet k v m = (m ++ [(k, v)])%list.
Proof.
  intros V k v m. induction m as [|[k' v'] m IH]; intros H; simpl; [reflexivity|].
  destruct (String.eqb_spec k k') as [->|_]; [exfalso; apply H; left; reflexivity|].
  rewrite IH by (intros Hk; apply H; right; exact Hk). reflexivity.
Qed.

Lemma mapOfList_distinct_gen : forall {A} (key : A -> string) l m,
  NoDup (map key l) -> (forall x, In x l -> ~ In (key x) (map fst m)) ->
  fold_left (fun m x => mapSet (key x) x m) l m = (m ++ map (fun x => (key x, x)) l)%list.
Proof.
  intros A key. induction l as [|x l IH]; intros m Hn Hd; simpl; [rewrite app_nil_r; reflexivity|].
  apply NoDup_cons_iff in Hn as [Hx Hn].
  rewrite mapSet_absent by (apply Hd; left; reflexivity).
  rewrite IH; [rewrite <- app_assoc; reflexivity|exact Hn|].
  intros y Hy. rewrite map_app, in_app_iff. simpl. intros [H|[H|[]]].
  - exact (Hd y (or_intror Hy) H).
  - apply Hx. rewrite H. apply in_map. exact Hy.
Qed.

(** With distinct keys, [new Map(l.map(x => [key(x), x]))] lists the
    elements of [l] in order. *)
Lemma mapOfList_distinct : forall {A} (key : A -> string) l,
  NoDup (map key l) -> mapOfList key l = map (fun x => (key x, x)) l.
Proof.
  intros A key l Hn. unfold mapOfList. rewrite mapOfList_distinct_gen; [reflexivity|exact Hn|].
  intros x _ [].
Qed.

Lemma typesMatch_false_difference : forall fuel t g,
  typesMatch fuel t g = Some false -> exists d, getTypeDifference fuel t g = Some d.
Proof.
  intros fuel t g H. unfold typesMatch, getTypeDifference in *.
  destruct (retTruthy (ret t) && retTruthy (ret g)); [|eexists; reflexivity].
  destruct (compatRet fuel (ret t) (ret g)) as [[|]|]; [eexists; reflexivity|eexists; reflexivity|discriminate].
Qed.

Lemma filter_length_Permutation : forall {A} (f : A -> bool) l l',
  Permutation l l' -> List.length (filter f l) = List.length (filter f l').
Proof.
  intros A f l l' H. induction H as [|x l l' _ IH|x y l|l l' l'' _ IH1 _ IH2]; simpl.
  - reflexivity.
  - destruct (f x); simpl; rewrite IH; reflexivity.
  - destruct (f x), (f y); reflexivity.
  - rewrite IH1. exact IH2.
Qed.

Lemma filter_all_false : forall {A} (f : A -> bool) l, (forall x, In x l -> f x = false) -> filter f l = [].
Proof.
  intros A f. induction l as [|x l IH]; intros H; simpl; [reflexivity|].
  rewrite (H x (or_introl eq_refl)). apply IH. intros y Hy. apply H. right. exact Hy.
Qed.

Lemma filter_all_true : forall {A} (f : A -> bool) l, Forall (fun x => f x = true) l -> filter f l = l.
Proof. intros A f l H. induction H as [|x l Hx _ IH]; simpl; [reflexivity|]. rewrite Hx, IH. reflexivity. Qed.

Lemma comparePredicted_step : forall fuel gm p c q,
  candidates p = None ->
  match processPrediction fuel gm (c, q) p, comparePredicted fuel gm (pname p, p) with
  | Some (c', q'), Some r =>
      c' = c + (if isCorrectRecord r then 1 else 0) /\ negb (isMissingRecord r) = true
  | None, None => True
  | _, _ => False
  end.
Proof.
  intros fuel gm p c q Hp. unfold processPrediction, comparePredicted. rewrite Hp.
  destruct (mapGet (pname p) gm) as [gt|].
  - destruct (ptypes p) as [t|]; simpl; [|exact I].
    destruct (typesMatch fuel t (gtypes gt)) as [[|]|] eqn:Em; simpl; [| |exact I].
    + split; [lia|reflexivity].
    + destruct (typesMatch_false_difference fuel t (gtypes gt) Em) as [d ->]. simpl.
      split; [lia|reflexivity].
  - simpl. split; [lia|reflexivity].
Qed.

(** The loop of [calculateMetrics] and the first loop of
    [generateDetailedComparison], over predictions without candidates
    listed in a map with distinct names, throw together and count the
    same correct predictions. *)
Lemma processAll_comparePredicted : forall fuel gm preds c q,
  Forall (fun p => candidates p = None) preds ->
  match processAll fuel gm (c, q) preds,
        mapE (comparePredicted fuel gm) (map (fun p => (pname p, p)) preds) with
  | Some (c', _), Some rs =>
      c' = c + List.length (filter isCorrectRecord rs) /\
      Forall (fun r => negb (isMissingRecord r) = true) rs
  | None, None => True
  | _, _ => False
  end.
Proof.
  intros fuel gm preds. induction preds as [|p ps IH]; intros c q Hc.
  - simpl. split; [lia|constructor].
  - apply Forall_cons_iff in Hc as [Hp Hps]. cbn [processAll mapE map bindE].
    pose proof (comparePredicted_step fuel gm p c q Hp) as K.
    destruct (processPrediction fuel gm (c, q) p) as [[c1 q1]|];
      destruct (comparePredicted fuel gm (pname p, p)) as [r|]; try contradiction;
      cbn [bindE]; [|exact I].
    destruct K as [Kc Kr]. specialize (IH c1 q1 Hps).
    destruct (processAll fuel gm (c1, q1) ps) as [[c' q']|];
      destruct (mapE (comparePredicted fuel gm) (map (fun p => (pname p, p)) ps)) as [rs|];
      try contradiction; cbn [bindE]; [|exact I].
    destruct IH as [-> Hf]. split; [|constructor; [exact Kr|exact Hf]].
    simpl. destruct (isCorrectRecord r); simpl in *; lia.
Qed.

(** For predictions with distinct names and no candidates, the
    models of [calculateMetrics] and [generateDetailedComparison] throw
    together and count the same correct predictions. *)
Lemma metrics_comparison_agree : forall cmp fuel preds gts,
  NoDup (map pname preds) -> Forall (fun p => candidates p = None) preds ->
  match calculateMetrics fuel preds gts, generateDetailedComparison cmp fuel preds gts with
  | Some m, Some out =>
      correctPredictions m = List.length (filter isCorrectRecord out) /\
      totalPredictions m = List.length (filter (fun r => negb (isMissingRecord r)) out)
  | None, None => True
  | _, _ => False
  end.
Proof.
  intros cmp fuel preds gts Hn Hc. unfold calculateMetrics, generateDetailedComparison. cbv zeta.
  rewrite (mapOfList_distinct pname preds Hn).
  pose proof (processAll_comparePredicted fuel (mapOfList gname gts) preds 0 0%Q Hc) as K.
  destruct (processAll fuel (mapOfList gname gts) (0, 0%Q) preds) as [[c q]|];
    destruct (mapE (comparePredicted fuel (mapOfList gname gts)) (map (fun p => (pname p, p)) preds))
      as [rs|] eqn:Ers; try contradiction; simpl; [|exact I].
  destruct K as [-> Hf].
  set (miss := missingRecords (map (fun p => (pname p, p)) preds) (mapOfList gname gts)).
  assert (Hm : forall r, In r miss -> isMissingRecord r = true).
  { intros r Hr. destruct (In_missingRecords _ _ r Hr) as [gt [_ [_ [Hs _]]]].
    unfold isMissingRecord. rewrite Hs. reflexivity. }
  rewrite (filter_length_Permutation isCorrectRecord _ _ (Permutation_sortByIdentifier cmp (rs ++ miss)%list)).
  rewrite (filter_length_Permutation (fun r => negb (isMissingRecord r)) _ _
             (Permutation_sortByIdentifier cmp (rs ++ miss)%list)).
  rewrite !filter_app, !length_app.
  rewrite (filter_all_false isCorrectRecord miss)
    by (intros r Hr; specialize (Hm r Hr); unfold isMissingRecord, isCorrectRecord in *;
        destruct (status r); congruence).
  rewrite (filter_all_false (fun r => negb (isMissingRecord r)) miss)
    by (intros r Hr; rewrite (Hm r Hr); reflexivity).
  rewrite (filter_all_true _ rs Hf).
  apply mapE_Forall2, Forall2_length in Ers. rewrite length_map in Ers.
  simpl. split; lia.
Qed.

(** Extra property: for predictions with distinct names and no
    candidates, whenever [generateDetailedComparison] returns,
    [calculateMetrics] returns too (it calls [typesMatch] on the same
    pairs), its correctPredictions is the number of [correct] records
    of the comparison, and its totalPredictions the number of records
    that are not [missing]. *)
Theorem metrics_match_comparison : forall cmp fuel preds gts out,
  NoDup (map pname preds) -> Forall (fun p => candidates p = None) preds ->
  generateDetailedComparison cmp fuel preds gts = Some out ->
  exists m, calculateMetrics fuel preds gts = Some m /\
    correctPredictions m = List.length (filter isCorrectRecord out) /\
    totalPredictions m = List.length (filter (fun r => negb (isMissingRecord r)) out).
Proof.
  intros cmp fuel preds gts out Hn Hc Ho.
  pose proof (metrics_comparison_agree cmp fuel preds gts Hn Hc) as K. rewrite Ho in K.
  destruct (calculateMetrics fuel preds gts) as [m|]; [|contradiction].
  exists m. split; [reflexivity|exact K].
Qed.

Lemma metrics_match_comparison_witness :
  NoDup (map pname [singlePrediction "Number"]) /\
  Forall (fun p => candidates p = None) [singlePrediction "Number"] /\
  exists out, generateDetailedComparison (fun _ _ => Eq) 5 [singlePrediction "Number"] [gtNumber] = Some out /\
  exists m, calculateMetrics 5 [singlePrediction "Number"] [gtNumber] = Some m /\
    correctPredictions m = List.length (filter isCorrectRecord out) /\
    totalPredictions m = List.length (filter (fun r => negb (isMissingRecord r)) out).
Proof.
  split; [repeat constructor; simpl; tauto|split; [repeat constructor|]].
  eexists. split; [vm_compute; reflexivity|].
  apply (metrics_match_comparison (fun _ _ => Eq) 5 [singlePrediction "Number"] [gtNumber]);
    [repeat constructor; simpl; tauto|repeat constructor|vm_compute; reflexivity].
Defined.
